(** * sqlite-live-select: a shallow embedding of [sqlite-live-select.js]

    The development follows the source file top to bottom:

    - JavaScript values, objects and insertion-ordered [Map]s;
    - Node [Buffer] reads ([readUInt8], [readUInt16BE], [readUInt32LE],
      [readDoubleLE], [slice], [toString]) and the 32-bit integer operators
      [&], [|], [<<];
    - the varint helpers [getVarintSize] and [readVarint];
    - the value and row decoders [parseValue], [getValueSize], [parseRowData];
    - the frame decoder [processWALFrame] and the frame loop of [parseWAL];
    - the mutation applicator [applyChanges] and the notifier [notifyQueries];
    - the table cache ([cacheTableInfo], [cacheTable], [ensureTableCached]);
    - the live query ([execute], [diffResults], [invalidate]) and the key
      selectors [Index], [Columns], [Func].

    What the engine gets from outside is an argument: the bytes [parseWAL]
    reads from the WAL file, the database behind the [better-sqlite3]
    handle, the text of a query as the function that prepares it on a
    database.  The watcher, the timers and the pause flag of
    [processWALChanges] come last, on their own.

    A number is its exact value: an integer ([Num]), or the exact decimal
    text of a double that is not an integer ([Real]), where JavaScript
    prints the shortest digits that read back as the same double.  A
    string is its sequence of UTF-8 bytes.  An object keeps its properties
    in insertion order; the keys a key selector returns are primitive
    values.

    A live query emits its ['error'] event to a listener: Node throws an
    ['error'] event that no listener takes, which ends the call that runs
    the query.  No listener can be attached before the constructor of
    [LiveSQLiteSelect] returns, so there the error is thrown
    ([LiveSQLiteSelect_new]); afterwards the runs followed are those in
    which the queries' errors are listened to. *)

From Stdlib Require Import ZArith List String Ascii Lia DecimalString.
From Stdlib Require Import Strings.Byte.
From stdpp Require Import base option list strings gmap.

Local Open Scope Z_scope.

(** ** Errors and the exception monad *)

(** The [code] given to [LiveSQLiteError]. *)
Inductive ErrorCode :=
| CACHE_TABLE_INFO_ERROR
| CACHE_TABLE_ERROR
| WAL_PROCESS_ERROR
| WAL_PARSE_ERROR
| PARSE_COLUMN_ERROR.

(** What a [throw] carries.  Messages are dropped; a [LiveSQLiteError] that
    wraps another error keeps it as its cause. *)
Inductive JsError :=
| RangeError
| TypeError
| SqliteError
| LiveSQLiteError (code : ErrorCode) (cause : JsError).

(** A computation that returns or throws. *)
Inductive Result (A : Type) :=
| Ok (a : A)
| Throw (e : JsError).
Arguments Ok {A} a.
Arguments Throw {A} e.

Definition rbind {A B} (m : Result A) (k : A -> Result B) : Result B :=
  match m with
  | Ok a => k a
  | Throw e => Throw e
  end.

(** [try { m } catch (error) { throw h error }] *)
Definition rcatch {A} (m : Result A) (h : JsError -> JsError) : Result A :=
  match m with
  | Ok a => Ok a
  | Throw e => Throw (h e)
  end.

Notation "'let*' x := m 'in' k" := (rbind m (fun x => k))
  (at level 10, x name, m at level 100, k at level 200).

(** ** Buffers *)

(** A Node [Buffer]: a sequence of bytes. *)
Definition Buffer := list byte.

Definition byteZ (b : byte) : Z := Z.of_N (Byte.to_N b).

Definition blen (b : Buffer) : Z := Z.of_nat (length b).

(** [buffer[i]]: the byte, or [undefined] outside the buffer. *)
Definition buf_get (b : Buffer) (i : Z) : option byte :=
  if i <? 0 then None else nth_error b (Z.to_nat i).

(** An index argument of [slice]: a negative one counts from the end, and the
    result is clamped to the buffer. *)
Definition slice_index (len i : Z) : Z :=
  if i <? 0 then Z.max (len + i) 0 else Z.min i len.

(** [buffer.slice(start, end)] *)
Definition buf_slice (b : Buffer) (start stop : Z) : Buffer :=
  let s := slice_index (blen b) start in
  let e := slice_index (blen b) stop in
  firstn (Z.to_nat (e - s)) (skipn (Z.to_nat s) b).

(** [buffer.readUInt8(offset)] *)
Definition readUInt8 (b : Buffer) (offset : Z) : Result Z :=
  if (0 <=? offset) && (offset + 1 <=? blen b) then
    match buf_get b offset with
    | Some x => Ok (byteZ x)
    | None => Throw RangeError
    end
  else Throw RangeError.

(** [buffer.readUInt16BE(offset)] *)
Definition readUInt16BE (b : Buffer) (offset : Z) : Result Z :=
  if (0 <=? offset) && (offset + 2 <=? blen b) then
    match buf_get b offset, buf_get b (offset + 1) with
    | Some hi, Some lo => Ok (byteZ hi * 256 + byteZ lo)
    | _, _ => Throw RangeError
    end
  else Throw RangeError.

(** [buffer.readUInt32LE(offset)] *)
Definition readUInt32LE (b : Buffer) (offset : Z) : Result Z :=
  if (0 <=? offset) && (offset + 4 <=? blen b) then
    match buf_get b offset, buf_get b (offset + 1),
          buf_get b (offset + 2), buf_get b (offset + 3) with
    | Some b0, Some b1, Some b2, Some b3 =>
        Ok (byteZ b0 + byteZ b1 * 256 + byteZ b2 * 65536 + byteZ b3 * 16777216)
    | _, _, _, _ => Throw RangeError
    end
  else Throw RangeError.

(** A Rocq string is the sequence of the UTF-8 bytes of a JavaScript
    string. *)
Definition string_of_bytes (b : Buffer) : string :=
  string_of_list_ascii (map ascii_of_byte b).

Definition bytes_of_string (s : string) : Buffer :=
  map byte_of_ascii (list_ascii_of_string s).

(** The bytes of U+FFFD, the replacement character. *)
Definition replacement : Buffer := [xef; xbf; xbd].

(** What the UTF-8 decoder does with a byte when it is not inside a
    sequence: it gives bytes out, or begins a sequence of [needed] more
    bytes, the next of which lies between [lower] and [upper]. *)
Inductive Utf8Start :=
| Utf8Out (out : Buffer)
| Utf8Begin (needed : nat) (lower upper : Z).

Definition utf8_start (b : byte) : Utf8Start :=
  let n := byteZ b in
  if n <=? 127 then Utf8Out [b]
  else if (194 <=? n) && (n <=? 223) then Utf8Begin 1 128 191
  else if (224 <=? n) && (n <=? 239) then
    Utf8Begin 2 (if n =? 224 then 160 else 128) (if n =? 237 then 159 else 191)
  else if (240 <=? n) && (n <=? 244) then
    Utf8Begin 3 (if n =? 240 then 144 else 128) (if n =? 244 then 143 else 191)
  else Utf8Out replacement.

(** The UTF-8 decoder of [buffer.toString]: a well-formed sequence is kept;
    every maximal part of an ill-formed one becomes U+FFFD, and the byte
    that breaks a sequence is read again as the start of the next.
    [pending] are the bytes of the sequence being read, [needed] the number
    of bytes it still lacks. *)
Fixpoint utf8_decode (pending : Buffer) (needed : nat) (lower upper : Z)
    (bs : Buffer) : Buffer :=
  match bs with
  | [] => match needed with O => [] | S _ => replacement end
  | b :: bs' =>
      let restart :=
        match utf8_start b with
        | Utf8Out out => out ++ utf8_decode [] 0 128 191 bs'
        | Utf8Begin n lo hi => utf8_decode [b] n lo hi bs'
        end in
      match needed with
      | O => restart
      | S n =>
          if (lower <=? byteZ b) && (byteZ b <=? upper) then
            match n with
            | O => pending ++ [b] ++ utf8_decode [] 0 128 191 bs'
            | S _ => utf8_decode (pending ++ [b]) n 128 191 bs'
            end
          else replacement ++ restart
      end
  end.

(** The string a byte sequence decodes to. *)
Definition utf8_text (b : Buffer) : string :=
  string_of_bytes (utf8_decode [] 0 128 191 b).

(** [buffer.toString('utf8', start, end)]: [start] below zero is zero, [end]
    beyond the buffer is its length, and an empty range gives the empty
    string. *)
Definition buf_toString (b : Buffer) (start stop : Z) : string :=
  let s := Z.max 0 start in
  let e := Z.min stop (blen b) in
  if e <=? s then EmptyString
  else utf8_text (firstn (Z.to_nat (e - s)) (skipn (Z.to_nat s) b)).

(** ** 32-bit integer operators *)

(** [ToInt32] *)
Definition toInt32 (z : Z) : Z := (z + 2147483648) mod 4294967296 - 2147483648.

(** [x & mask] where [x] is a byte read from a buffer, [undefined] counting
    as 0. *)
Definition js_and (x : option byte) (mask : Z) : Z :=
  Z.land (match x with Some b => byteZ b | None => 0 end) mask.

(** [a << n]: the shift count is taken modulo 32 and the result is a signed
    32-bit integer. *)
Definition js_shl (a n : Z) : Z := toInt32 (Z.shiftl a (n mod 32)).

(** [a | b] on signed 32-bit integers. *)
Definition js_or (a b : Z) : Z := toInt32 (Z.lor a b).

(** ** Varints *)

(** The loop of [getVarintSize], with [n] iterations left before [size]
    reaches 8. *)
Fixpoint getVarintSize_loop (n : nat) (buffer : Buffer) (offset size : Z) : Z :=
  match n with
  | O => size
  | S n' =>
      if negb (js_and (buf_get buffer (offset + size)) 128 =? 0)
      then getVarintSize_loop n' buffer offset (size + 1)
      else size
  end.

Definition getVarintSize (buffer : Buffer) (offset : Z) : Z :=
  getVarintSize_loop 8 buffer offset 0 + 1.

(** The loop of [readVarint], with [n] iterations left before [size]
    reaches 8. *)
Fixpoint readVarint_loop (n : nat) (buffer : Buffer) (offset size value : Z) : Z :=
  match n with
  | O => value
  | S n' =>
      let byte := buf_get buffer (offset + size) in
      let value := js_or value (js_shl (js_and byte 127) (7 * size)) in
      if js_and byte 128 =? 0 then value
      else readVarint_loop n' buffer offset (size + 1) value
  end.

Definition readVarint (buffer : Buffer) (offset : Z) : Z :=
  readVarint_loop 8 buffer offset 0 0.

(** ** JavaScript values *)

#[local] Set Warnings "-register-all".

(** The values rows hold.  [Num] is an integral number; [Real] is any other
    number, carried by its decimal text ([NaN], [Infinity] and [-Infinity]
    by their names); [Buf] is a Node [Buffer]. *)
Inductive jsval :=
| Undefined
| Null
| Bool (b : bool)
| Num (z : Z)
| Real (repr : string)
| Str (s : string)
| Buf (b : Buffer)
| Arr (elems : list jsval)
| Obj (fields : list (string * jsval)).

(** A row is a plain object: its properties in insertion order. *)
Definition row := list (string * jsval).

(** [obj[k]] *)
Fixpoint obj_get (o : row) (k : string) : jsval :=
  match o with
  | [] => Undefined
  | (k', v) :: o' => if String.eqb k' k then v else obj_get o' k
  end.

(** [obj[k] = v]: an existing property keeps its place. *)
Fixpoint obj_set (o : row) (k : string) (v : jsval) : row :=
  match o with
  | [] => [(k, v)]
  | (k', v') :: o' =>
      if String.eqb k' k then (k, v) :: o' else (k', v') :: obj_set o' k v
  end.


(** ** Insertion-ordered maps ([Map]) *)

Section JsMap.
Context {K V : Type} `{EqDecision K}.

Fixpoint Map_get (m : list (K * V)) (k : K) : option V :=
  match m with
  | [] => None
  | (k', v) :: m' => if decide (k' = k) then Some v else Map_get m' k
  end.

Definition Map_has (m : list (K * V)) (k : K) : bool :=
  match Map_get m k with Some _ => true | None => false end.

(** [m.set(k, v)]: a key already present keeps its place in the iteration
    order. *)
Fixpoint Map_set (m : list (K * V)) (k : K) (v : V) : list (K * V) :=
  match m with
  | [] => [(k, v)]
  | (k', v') :: m' =>
      if decide (k' = k) then (k, v) :: m' else (k', v') :: Map_set m' k v
  end.

Fixpoint Map_delete (m : list (K * V)) (k : K) : list (K * V) :=
  match m with
  | [] => []
  | (k', v') :: m' =>
      if decide (k' = k) then m' else (k', v') :: Map_delete m' k
  end.
End JsMap.

(** ** Numbers and their text *)

(** The decimal digits of an integer, as [String(n)] prints them. *)
Definition string_of_Z (z : Z) : string := NilZero.string_of_int (Z.to_int z).

Fixpoint zeros (n : nat) : string :=
  match n with O => EmptyString | S n' => String "0" (zeros n') end.

(** Remove the factors 10 that a negative exponent can absorb. *)
Fixpoint strip_zeros (fuel : nat) (m e : Z) : Z * Z :=
  match fuel with
  | O => (m, e)
  | S fuel' =>
      if (e <? 0) && (m mod 10 =? 0) then strip_zeros fuel' (m / 10) (e + 1)
      else (m, e)
  end.

(** The positional text of [m * 10^e] for [e < 0] and [m] not a multiple
    of 10. *)
Definition render_decimal (m e : Z) : string :=
  let digits := string_of_Z (Z.abs m) in
  let k := Z.to_nat (- e) in
  let n := String.length digits in
  let sign := if m <? 0 then "-" else EmptyString in
  if (k <? n)%nat then
    sign +:+ substring 0 (n - k) digits +:+ "." +:+ substring (n - k) k digits
  else sign +:+ "0." +:+ zeros (k - n) +:+ digits.

(** The number [m * 10^e]. *)
Definition decimal_number (m e : Z) : jsval :=
  if 0 <=? e then Num (m * 10 ^ e)
  else if m =? 0 then Num 0
  else
    let '(m', e') := strip_zeros (Z.to_nat (- e)) m e in
    if e' =? 0 then Num m' else Real (render_decimal m' e').

(** The double [sign * m * 2^e], for [m] below 2^53, kept exact. *)
Definition binary_number (sign m e : Z) : jsval :=
  if 0 <=? e then Num (sign * m * 2 ^ e)
  else decimal_number (sign * m * 5 ^ (- e)) e.

(** [buffer.readDoubleLE(offset)]: the binary64 value of eight bytes, kept
    exact. *)
Definition double_of_bytes (b0 b1 b2 b3 b4 b5 b6 b7 : Z) : jsval :=
  let negative := 128 <=? b7 in
  let exponent := (b7 mod 128) * 16 + b6 / 16 in
  let mantissa :=
    b0 + b1 * 2^8 + b2 * 2^16 + b3 * 2^24 + b4 * 2^32 + b5 * 2^40
    + (b6 mod 16) * 2^48 in
  let sign := if negative then -1 else 1 in
  if exponent =? 2047 then
    if mantissa =? 0 then Real (if negative then "-Infinity" else "Infinity")
    else Real "NaN"
  else
    let m := if exponent =? 0 then mantissa else 2^52 + mantissa in
    let e := if exponent =? 0 then -1074 else exponent - 1075 in
    binary_number sign m e.

(** The number a decimal literal [m * 10^e] denotes: the double nearest to
    it, a tie going to the even significand, [Infinity] from 2^1024 on. *)
Definition double_of_decimal (m e : Z) : jsval :=
  if m =? 0 then Num 0
  else
    let sign := if m <? 0 then -1 else 1 in
    let p := if 0 <=? e then Z.abs m * 10 ^ e else Z.abs m in
    let q := if 0 <=? e then 1 else 10 ^ (- e) in
    let k0 := Z.log2 p - Z.log2 q in
    let k :=
      if (if 0 <=? k0 then q * 2 ^ k0 <=? p else q <=? p * 2 ^ (- k0))
      then k0 else k0 - 1 in
    let s := Z.max (k - 52) (-1074) in
    let num := if 0 <=? s then p else p * 2 ^ (- s) in
    let den := if 0 <=? s then q * 2 ^ s else q in
    let n0 := num / den in
    let r := num mod den in
    let n :=
      if 2 * r <? den then n0
      else if den <? 2 * r then n0 + 1
      else if Z.even n0 then n0 else n0 + 1 in
    if (0 <=? s) && (2 ^ 1024 <=? n * 2 ^ s)
    then Real (if m <? 0 then "-Infinity" else "Infinity")
    else if n =? 0 then Num 0
    else binary_number sign n s.

Definition readDoubleLE (b : Buffer) (offset : Z) : Result jsval :=
  if (0 <=? offset) && (offset + 8 <=? blen b) then
    match map byteZ (firstn 8 (skipn (Z.to_nat offset) b)) with
    | [b0; b1; b2; b3; b4; b5; b6; b7] =>
        Ok (double_of_bytes b0 b1 b2 b3 b4 b5 b6 b7)
    | _ => Throw RangeError
    end
  else Throw RangeError.

(** ** [JSON.parse] *)

Module JSON.

Definition code (c : ascii) : Z := Z.of_N (N_of_ascii c).

Definition is_ws (c : ascii) : bool :=
  let n := code c in (n =? 32) || (n =? 9) || (n =? 10) || (n =? 13).

Definition is_digit (c : ascii) : bool :=
  let n := code c in (48 <=? n) && (n <=? 57).

Fixpoint skip_ws (l : list ascii) : list ascii :=
  match l with
  | c :: r => if is_ws c then skip_ws r else l
  | [] => []
  end.

(** The longest prefix of digits, and what follows it. *)
Fixpoint digits (l : list ascii) : list ascii * list ascii :=
  match l with
  | c :: r =>
      if is_digit c then let '(ds, r') := digits r in (c :: ds, r')
      else ([], l)
  | [] => ([], [])
  end.

Definition Z_of_digits (ds : list ascii) : Z :=
  fold_left (fun acc c => acc * 10 + (code c - 48)) ds 0.

(** [int]: a single 0, or a non-empty run of digits that does not start
    with 0. *)
Definition int_part (l : list ascii) : option (list ascii * list ascii) :=
  match l with
  | c :: r =>
      if code c =? 48 then Some ([c], r)
      else if is_digit c then Some (digits l)
      else None
  | [] => None
  end.

(** [frac]: a dot and at least one digit, or nothing. *)
Definition frac_part (l : list ascii) : option (list ascii * list ascii) :=
  match l with
  | "."%char :: r =>
      match digits r with
      | ([], _) => None
      | (ds, r') => Some (ds, r')
      end
  | _ => Some ([], l)
  end.

(** [exp]: [e] or [E], an optional sign and at least one digit, or
    nothing.  The flag tells whether an exponent was written. *)
Definition exp_part (l : list ascii) : option (bool * Z * list ascii) :=
  let after_e r :=
    let '(neg, r1) :=
      match r with
      | "-"%char :: r1 => (true, r1)
      | "+"%char :: r1 => (false, r1)
      | _ => (false, r)
      end in
    match digits r1 with
    | ([], _) => None
    | (ds, r2) => Some (true, if neg : bool then - Z_of_digits ds else Z_of_digits ds, r2)
    end in
  match l with
  | "e"%char :: r => after_e r
  | "E"%char :: r => after_e r
  | _ => Some (false, 0, l)
  end.

Definition number (l : list ascii) : option (jsval * list ascii) :=
  let '(neg, l1) :=
    match l with
    | "-"%char :: r => (true, r)
    | _ => (false, l)
    end in
  match int_part l1 with
  | None => None
  | Some (ids, l2) =>
      match frac_part l2 with
      | None => None
      | Some (fds, l3) =>
          match exp_part l3 with
          | None => None
          | Some (_, ex, l4) =>
              let m := Z_of_digits (ids ++ fds) in
              let m := if neg : bool then - m else m in
              Some (double_of_decimal m (ex - Z.of_nat (length fds)), l4)
          end
      end
  end.

Definition hex_digit (c : ascii) : option Z :=
  let n := code c in
  if (48 <=? n) && (n <=? 57) then Some (n - 48)
  else if (65 <=? n) && (n <=? 70) then Some (n - 55)
  else if (97 <=? n) && (n <=? 102) then Some (n - 87)
  else None.

Definition hex4 (l : list ascii) : option (Z * list ascii) :=
  match l with
  | a :: b :: c :: d :: r =>
      match hex_digit a, hex_digit b, hex_digit c, hex_digit d with
      | Some x, Some y, Some z, Some w =>
          Some (x * 4096 + y * 256 + z * 16 + w, r)
      | _, _, _, _ => None
      end
  | _ => None
  end.

Definition chr (n : Z) : ascii := ascii_of_N (Z.to_N n).

(** The UTF-8 bytes of a code point. *)
Definition utf8 (cp : Z) : list ascii :=
  if cp <? 128 then [chr cp]
  else if cp <? 2048 then [chr (192 + cp / 64); chr (128 + cp mod 64)]
  else if cp <? 65536 then
    [chr (224 + cp / 4096); chr (128 + (cp / 64) mod 64); chr (128 + cp mod 64)]
  else
    [chr (240 + cp / 262144); chr (128 + (cp / 4096) mod 64);
     chr (128 + (cp / 64) mod 64); chr (128 + cp mod 64)].

(** What follows [\u]: four hex digits, and a low surrogate escape after a
    high surrogate joins it. *)
Definition unicode_escape (l : list ascii) : option (list ascii * list ascii) :=
  match hex4 l with
  | None => None
  | Some (hi, r) =>
      if (55296 <=? hi) && (hi <=? 56319) then
        match r with
        | "\"%char :: "u"%char :: r' =>
            match hex4 r' with
            | Some (lo, r'') =>
                if (56320 <=? lo) && (lo <=? 57343)
                then Some (utf8 (65536 + (hi - 55296) * 1024 + (lo - 56320)), r'')
                else Some (utf8 hi, r)
            | None => Some (utf8 hi, r)
            end
        | _ => Some (utf8 hi, r)
        end
      else Some (utf8 hi, r)
  end.

(** The characters of a string literal after its opening quote, up to the
    closing quote. *)
Fixpoint chars (fuel : nat) (l : list ascii) : option (list ascii * list ascii) :=
  match fuel with
  | O => None
  | S fuel' =>
      match l with
      | [] => None
      | c :: r =>
          if code c =? 34 then Some ([], r)
          else if code c <? 32 then None
          else if code c =? 92 then
            match r with
            | e :: r' =>
                let simple x :=
                  match chars fuel' r' with
                  | Some (s, r'') => Some (chr x :: s, r'')
                  | None => None
                  end in
                if code e =? 34 then simple 34
                else if code e =? 92 then simple 92
                else if code e =? 47 then simple 47
                else if code e =? 98 then simple 8
                else if code e =? 102 then simple 12
                else if code e =? 110 then simple 10
                else if code e =? 114 then simple 13
                else if code e =? 116 then simple 9
                else if code e =? 117 then
                  match unicode_escape r' with
                  | Some (bs, r'') =>
                      match chars fuel' r'' with
                      | Some (s, r''') => Some (bs ++ s, r''')
                      | None => None
                      end
                  | None => None
                  end
                else None
            | [] => None
            end
          else
            match chars fuel' r with
            | Some (s, r') => Some (c :: s, r')
            | None => None
            end
      end
  end.

Definition string_lit (l : list ascii) : option (string * list ascii) :=
  match chars (S (length l)) l with
  | Some (s, r) => Some (string_of_list_ascii s, r)
  | None => None
  end.

(** A value, the elements of an array after its bracket, the members of an
    object after its brace.  Every call that takes fuel has read a
    character since the call before the last, so twice the length of the
    text is fuel enough. *)
Fixpoint value (fuel : nat) (l : list ascii) : option (jsval * list ascii) :=
  match fuel with
  | O => None
  | S fuel' =>
      match skip_ws l with
      | "["%char :: r =>
          match skip_ws r with
          | "]"%char :: r' => Some (Arr [], r')
          | _ =>
              match elements fuel' r with
              | Some (vs, r') => Some (Arr vs, r')
              | None => None
              end
          end
      | "{"%char :: r =>
          match skip_ws r with
          | "}"%char :: r' => Some (Obj [], r')
          | _ =>
              match members fuel' r [] with
              | Some (fs, r') => Some (Obj fs, r')
              | None => None
              end
          end
      | "t"%char :: "r"%char :: "u"%char :: "e"%char :: r => Some (Bool true, r)
      | "f"%char :: "a"%char :: "l"%char :: "s"%char :: "e"%char :: r =>
          Some (Bool false, r)
      | "n"%char :: "u"%char :: "l"%char :: "l"%char :: r => Some (Null, r)
      | c :: r =>
          if code c =? 34 then
            match string_lit r with
            | Some (s, r') => Some (Str s, r')
            | None => None
            end
          else number (c :: r)
      | [] => None
      end
  end
with elements (fuel : nat) (l : list ascii) : option (list jsval * list ascii) :=
  match fuel with
  | O => None
  | S fuel' =>
      match value fuel' l with
      | Some (v, r) =>
          match skip_ws r with
          | ","%char :: r' =>
              match elements fuel' r' with
              | Some (vs, r'') => Some (v :: vs, r'')
              | None => None
              end
          | "]"%char :: r' => Some ([v], r')
          | _ => None
          end
      | None => None
      end
  end
with members (fuel : nat) (l : list ascii) (acc : row) : option (row * list ascii) :=
  match fuel with
  | O => None
  | S fuel' =>
      match skip_ws l with
      | c :: r =>
          if code c =? 34 then
            match string_lit r with
            | Some (k, r1) =>
                match skip_ws r1 with
                | ":"%char :: r2 =>
                    match value fuel' r2 with
                    | Some (v, r3) =>
                        let acc := obj_set acc k v in
                        match skip_ws r3 with
                        | ","%char :: r4 => members fuel' r4 acc
                        | "}"%char :: r4 => Some (acc, r4)
                        | _ => None
                        end
                    | None => None
                    end
                | _ => None
                end
            | None => None
            end
          else None
      | [] => None
      end
  end.

(** [JSON.parse(text)]: the value, or [None] where it throws a
    [SyntaxError]. *)
Definition parse (text : string) : option jsval :=
  let l := list_ascii_of_string text in
  match value (2 * length l + 2) l with
  | Some (v, r) =>
      match skip_ws r with
      | [] => Some v
      | _ => None
      end
  | None => None
  end.

End JSON.

(** ** [JSON.stringify], [String] and [Array.prototype.join] *)

Fixpoint join (sep : string) (l : list string) : string :=
  match l with
  | [] => EmptyString
  | [s] => s
  | s :: l' => s +:+ sep +:+ join sep l'
  end.

Definition hex_char (n : Z) : ascii :=
  JSON.chr (if n <? 10 then 48 + n else 87 + n).

(** One character of a quoted JSON string. *)
Definition quote_char (c : ascii) : string :=
  let n := JSON.code c in
  let esc x := String "\" (String x EmptyString) in
  if n =? 34 then esc (JSON.chr 34)
  else if n =? 92 then esc "\"%char
  else if n =? 8 then esc "b"%char
  else if n =? 9 then esc "t"%char
  else if n =? 10 then esc "n"%char
  else if n =? 12 then esc "f"%char
  else if n =? 13 then esc "r"%char
  else if n <? 32 then
    "\u00" +:+ String (hex_char (n / 16)) (String (hex_char (n mod 16)) EmptyString)
  else String c EmptyString.

Definition quote (s : string) : string :=
  let dq := String (JSON.chr 34) EmptyString in
  dq +:+ String.concat EmptyString (map quote_char (list_ascii_of_string s)) +:+ dq.

(** [JSON.stringify(v)]; [None] is [undefined].  A property whose value is
    [undefined] is left out, an [undefined] array element prints as [null],
    and a [Buffer] prints through its [toJSON]. *)
Fixpoint JSON_stringify (v : jsval) : option string :=
  match v with
  | Undefined => None
  | Null => Some "null"
  | Bool true => Some "true"
  | Bool false => Some "false"
  | Num z => Some (string_of_Z z)
  | Real r =>
      if String.eqb r "NaN" || String.eqb r "Infinity" || String.eqb r "-Infinity"
      then Some "null" else Some r
  | Str s => Some (quote s)
  | Buf b =>
      Some ("{" +:+ quote "type" +:+ ":" +:+ quote "Buffer" +:+ ","
            +:+ quote "data" +:+ ":["
            +:+ join "," (map (fun x => string_of_Z (byteZ x)) b) +:+ "]}")
  | Arr l =>
      Some ("[" +:+ join "," (map (fun x => default "null" (JSON_stringify x)) l)
            +:+ "]")
  | Obj fs =>
      let members :=
        (fix members (fs : list (string * jsval)) : list string :=
           match fs with
           | [] => []
           | (k, x) :: fs' =>
               match JSON_stringify x with
               | Some s => (quote k +:+ ":" +:+ s) :: members fs'
               | None => members fs'
               end
           end) fs in
      Some ("{" +:+ join "," members +:+ "}")
  end.

(** [String(v)], as [join] applies it to an element: [null] and [undefined]
    give the empty string there. *)
Fixpoint ToString (v : jsval) : string :=
  match v with
  | Undefined => "undefined"
  | Null => "null"
  | Bool true => "true"
  | Bool false => "false"
  | Num z => string_of_Z z
  | Real r => r
  | Str s => s
  | Buf b => utf8_text b
  | Arr l =>
      join "," (map (fun x =>
                       match x with
                       | Undefined | Null => EmptyString
                       | _ => ToString x
                       end) l)
  | Obj _ => "[object Object]"
  end.

(** [array.join(sep)] *)
Definition Array_join (l : list jsval) (sep : string) : string :=
  join sep (map (fun x =>
                   match x with
                   | Undefined | Null => EmptyString
                   | _ => ToString x
                   end) l).

(** ** Table metadata and the database *)

(** A row of [PRAGMA table_info]: the column's name and declared type. *)
Record Column := { name : string; type : string }.

(** The database behind the [better-sqlite3] handle, as far as the engine
    queries it: every rowid table with its name and columns as declared,
    its root page, the column that is its INTEGER PRIMARY KEY, which then
    names the rowid, and its rows by rowid, each with its values under the
    declared column names.  The engine never writes to it. *)
Record Table := {
  tbl_name : string;
  rootpage : Z;
  tbl_columns : list Column;
  integer_primary_key : option string;
  tbl_rows : list (Z * row)
}.

Definition Database := list Table.

(** SQLite compares identifiers without regard to the case of the ASCII
    letters. *)
Definition lower_ascii (c : ascii) : ascii :=
  let n := N_of_ascii c in
  if ((65 <=? n) && (n <=? 90))%N then ascii_of_N (n + 32) else c.

Fixpoint lower (s : string) : string :=
  match s with
  | EmptyString => EmptyString
  | String c rest => String (lower_ascii c) (lower rest)
  end.

Definition same_name (a b : string) : bool := String.eqb (lower a) (lower b).

Definition find_table (db : Database) (tableName : string) : option Table :=
  find (fun t => same_name (tbl_name t) tableName) db.

(** [PRAGMA table_info(t)]: no rows for a table that does not exist. *)
Definition db_table_info (db : Database) (tableName : string) : Result (list Column) :=
  match find_table db tableName with
  | Some t => Ok (tbl_columns t)
  | None => Ok []
  end.

(** [SELECT name FROM sqlite_master WHERE rootpage = ?], first row. *)
Definition db_master_name (db : Database) (pageNumber : Z) : option string :=
  match find (fun t => rootpage t =? pageNumber) db with
  | Some t => Some (tbl_name t)
  | None => None
  end.

(** The name under which a result row holds the rowid: [rowid], or the
    name of the INTEGER PRIMARY KEY column. *)
Definition rowid_name (t : Table) : string :=
  default "rowid" (integer_primary_key t).

(** What a quoted identifier of a result column list stands for: the name
    of the result column and its value in a row of the table.  A column of
    the table comes under its declared name; [rowid], [oid] and [_rowid_],
    when no column has the name, are the rowid. *)
Definition result_column (t : Table) (c : string)
  : option (string * (Z * row -> jsval)) :=
  match find (fun col => same_name (name col) c) (tbl_columns t) with
  | Some col =>
      Some (name col,
            fun entry =>
              if bool_decide (integer_primary_key t = Some (name col))
              then Num (fst entry) else obj_get (snd entry) (name col))
  | None =>
      if same_name c "rowid" || same_name c "oid" || same_name c "_rowid_"
      then Some (rowid_name t, fun entry => Num (fst entry))
      else None
  end.

(** The object of a result row: a property for each result column, in
    order, a later column of the same name giving the value. *)
Definition result_row (columns : list (string * (Z * row -> jsval)))
    (entry : Z * row) : row :=
  fold_left (fun o column => obj_set o (fst column) (snd column entry)) columns [].

(** [SELECT rowid, "c1", ..., "cn" FROM "t"].  An empty column list is a
    syntax error; an unknown table or column is an error of the
    database. *)
Definition db_select_rowid (db : Database) (tableName : string)
    (columns : list string) : Result (list row) :=
  match find_table db tableName with
  | None => Throw SqliteError
  | Some t =>
      match columns with
      | [] => Throw SqliteError
      | _ :: _ =>
          match mapM (result_column t) ("rowid" :: columns) with
          | None => Throw SqliteError
          | Some results => Ok (map (result_row results) (tbl_rows t))
          end
      end
  end.

(** ** Decoding values and rows *)

(** [parseValue(data, offset, type)] *)
Definition parseValue (data : Buffer) (offset : Z) (type : string) : Result jsval :=
  if String.eqb type "INTEGER" then Ok (Num (readVarint data offset))
  else if String.eqb type "REAL" then readDoubleLE data offset
  else if String.eqb type "TEXT" then
    let length := readVarint data offset in
    let textData :=
      buf_toString data (offset + getVarintSize data offset)
                   (offset + getVarintSize data offset + length) in
    match JSON.parse textData with
    | Some v => Ok v
    | None => Ok (Str textData)
    end
  else if String.eqb type "BLOB" then
    let blobLength := readVarint data offset in
    Ok (Buf (buf_slice data (offset + getVarintSize data offset)
                       (offset + getVarintSize data offset + blobLength)))
  else Ok Null.

(** [getValueSize(data, offset, type)] *)
Definition getValueSize (data : Buffer) (offset : Z) (type : string) : Z :=
  if String.eqb type "INTEGER" then getVarintSize data offset
  else if String.eqb type "REAL" then 8
  else if String.eqb type "TEXT" || String.eqb type "BLOB" then
    let length := readVarint data offset in
    getVarintSize data offset + length
  else 0.

(** The loop of [parseRowData] over the columns. *)
Fixpoint parseRowData_loop (columns : list Column) (data : Buffer)
    (offset : Z) (rowData : row) : Result row :=
  match columns with
  | [] => Ok rowData
  | column :: columns' =>
      let* step :=
        rcatch
          (let* value := parseValue data offset (type column) in
           Ok (obj_set rowData (name column) value,
               offset + getValueSize data offset (type column)))
          (LiveSQLiteError PARSE_COLUMN_ERROR) in
      parseRowData_loop columns' data (snd step) (fst step)
  end.

(** [parseRowData(tableName, data)], given [this.tableInfo].  Iterating the
    columns of a table without table info is a [TypeError]. *)
Definition parseRowData (tableInfo : gmap string (list Column))
    (tableName : string) (data : Buffer) : Result row :=
  match tableInfo !! tableName with
  | None => Throw TypeError
  | Some columns => parseRowData_loop columns data 0 []
  end.

(** ** Live queries *)

(** What a key selector returns: a primitive value, compared by [===]. *)
Inductive key :=
| KUndefined
| KNull
| KBool (b : bool)
| KNum (z : Z)
| KStr (s : string).

#[global] Instance key_eq_dec : EqDecision key.
Proof. solve_decision. Defined.

(** A key selector is a function of the row and of the index, which is
    [undefined] ([None]) when the caller passes the row alone. *)
Definition KeySelector := row -> option nat -> key.

Module LiveSQLiteKeySelector.
Definition Index : KeySelector :=
  fun row index =>
    match index with
    | Some i => KNum (Z.of_nat i)
    | None => KUndefined
    end.

Definition Columns (columns : list string) : KeySelector :=
  fun row _ => KStr (Array_join (map (fun col => obj_get row col) columns) "|").

Definition Func (keyFunc : KeySelector) : KeySelector := keyFunc.
End LiveSQLiteKeySelector.

Record Diff := {
  added : list row;
  changed : list row;
  removed : list row
}.

(** A trigger: the table, and the optional condition on
    [(newRow, oldRow, rowDeleted)], where [null] is [None]. *)
Record Trigger := {
  table : string;
  condition : option (option row -> option row -> bool -> bool)
}.

(** A prepared statement: its result, [stmt.all(values)], on the database
    as it is when it runs. *)
Definition Statement := list jsval -> Database -> Result (list row).

(** The text of a query: what [prepare(query)] makes of it on a database,
    a statement or the error of the database. *)
Definition Query := Database -> Result Statement.

(** A [LiveSQLiteSelect]; its [id] is the key under which the engine holds
    it. *)
Record LiveSQLiteSelect := {
  stmt : Statement;
  values : list jsval;
  keySelector : KeySelector;
  triggers : list Trigger;
  lastResult : option (list row);
  active : bool
}.

Definition set_lastResult (q : LiveSQLiteSelect) (r : list row) : LiveSQLiteSelect :=
  {| stmt := stmt q; values := values q; keySelector := keySelector q;
     triggers := triggers q; lastResult := Some r; active := active q |}.

(** [array.map(f)] calls [f] with the element and its index. *)
Definition map_with_index {A B} (f : A -> option nat -> B) (l : list A) : list B :=
  imap (fun i x => f x (Some i)) l.

(** [set.has(k)] *)
Definition has_key (keys : list key) (k : key) : bool := bool_decide (k ∈ keys).

(** [diffResults(oldResult, newResult)] *)
Definition diffResults (keySelector : KeySelector)
    (oldResult : option (list row)) (newResult : list row) : Diff :=
  let oldKeys :=
    match oldResult with
    | Some old => map_with_index keySelector old
    | None => []
    end in
  let newKeys := map_with_index keySelector newResult in
  let scan_new :=
    fold_left
      (fun (diff : list row * list row) row =>
         let key := keySelector row None in
         if negb (has_key oldKeys key) then (fst diff ++ [row], snd diff)
         else
           let found :=
             find (fun r => bool_decide (keySelector r None = key))
                  (default [] oldResult) in
           if negb (bool_decide (JSON_stringify (Obj row)
                                 = match found with
                                   | Some r => JSON_stringify (Obj r)
                                   | None => JSON_stringify Undefined
                                   end))
           then (fst diff, snd diff ++ [row])
           else diff)
      newResult ([], []) in
  let scan_old :=
    fold_left
      (fun removed row =>
         let key := keySelector row None in
         if negb (has_key newKeys key) then removed ++ [row] else removed)
      (default [] oldResult) [] in
  {| added := fst scan_new; changed := snd scan_new; removed := scan_old |}.

(** The [Map] of the rows of a table.  The decoder and the applicator
    look rows up by rowid, a number: [by_rowid] has the entries under the
    keys that are integers.  [cacheTable] stores a row under whatever its
    [rowid] property is: [other_keys] has the entries under any other key,
    [undefined] among them, in insertion order. *)
Record RowCache := {
  by_rowid : gmap Z row;
  other_keys : list (jsval * row)
}.

#[global] Instance RowCache_empty : Empty RowCache :=
  {| by_rowid := ∅; other_keys := [] |}.

(** [cache.get(rowId)], [cache.set(rowId, row)] and [cache.delete(rowId)]
    for a number [rowId]. *)
#[global] Instance RowCache_lookup : Lookup Z row RowCache :=
  fun rowId cache => by_rowid cache !! rowId.

#[global] Instance RowCache_insert : Insert Z row RowCache :=
  fun rowId r cache =>
    {| by_rowid := <[rowId := r]> (by_rowid cache); other_keys := other_keys cache |}.

#[global] Instance RowCache_delete : Delete Z RowCache :=
  fun rowId cache =>
    {| by_rowid := delete rowId (by_rowid cache); other_keys := other_keys cache |}.

#[global] Instance RowCache_singleton : SingletonM Z row RowCache :=
  fun rowId r => {| by_rowid := {[ rowId := r ]}; other_keys := [] |}.

(** The equality of [Map] keys on the values a row can hold: primitive
    values are equal by value, and a [Buffer], an array or an object is
    equal to itself alone, which no value read later is. *)
Definition same_value_zero (a b : jsval) : bool :=
  match a, b with
  | Undefined, Undefined | Null, Null => true
  | Bool x, Bool y => Bool.eqb x y
  | Num x, Num y => x =? y
  | Real x, Real y => String.eqb x y
  | Str x, Str y => String.eqb x y
  | _, _ => false
  end.

Fixpoint other_keys_set (entries : list (jsval * row)) (k : jsval) (r : row)
  : list (jsval * row) :=
  match entries with
  | [] => [(k, r)]
  | (k', r') :: entries' =>
      if same_value_zero k' k then (k', r) :: entries'
      else (k', r') :: other_keys_set entries' k r
  end.

(** [cache.set(key, row)] for any key. *)
Definition RowCache_set (cache : RowCache) (k : jsval) (r : row) : RowCache :=
  match k with
  | Num rowId => <[rowId := r]> cache
  | _ => {| by_rowid := by_rowid cache;
            other_keys := other_keys_set (other_keys cache) k r |}
  end.

(** What the engine makes observable.  [Update] and [QueryError] are the
    events a live query emits.  [Notified] records a call of
    [notifyQueries] with its arguments and the table cache at that moment:
    the state every trigger condition evaluated by the call runs in. *)
Inductive Event :=
| Update (id : nat) (diff : Diff) (data : list row)
| QueryError (id : nat) (error : JsError)
| Notified (tableName : string) (oldRow newRow : option row) (rowDeleted : bool)
           (observed : gmap string RowCache).

(** [execute()], once the query is constructed: the query after it, and
    the event it emits, if any.  The ['error'] event is emitted to a
    listener. *)
Definition execute (id : nat) (db : Database) (q : LiveSQLiteSelect)
  : LiveSQLiteSelect * list Event :=
  match stmt q (values q) db with
  | Ok newResult =>
      let diff := diffResults (keySelector q) (lastResult q) newResult in
      let emitted :=
        if (0 <? length (added diff))%nat || (0 <? length (changed diff))%nat
           || (0 <? length (removed diff))%nat
        then [Update id diff newResult] else [] in
      (set_lastResult q newResult, emitted)
  | Throw error => (q, [QueryError id error])
  end.

(** [invalidate()] *)
Definition invalidate (id : nat) (db : Database) (q : LiveSQLiteSelect)
  : LiveSQLiteSelect * list Event :=
  if active q then execute id db q else (q, []).

(** ** The engine *)

(** An entry of [settings.columnCache]. *)
Record CacheSettings := {
  include : option (list string);
  exclude : option (list string)
}.

(** The fields of a [LiveSQLite] the decoder, the applicator and the
    registry use, the database it is connected to, the counter that makes
    query ids distinct, and the events emitted so far. *)
Record LiveSQLite := {
  checkConditionWhenQueued : bool;
  columnCache : gmap string CacheSettings;
  db : Database;
  pageSize : Z;
  liveQueries : list (nat * LiveSQLiteSelect);
  queuedUpdates : gset nat;
  tableCache : gmap string RowCache;
  tableInfo : gmap string (list Column);
  usedTables : gset string;
  nextId : nat;
  events : list Event
}.

Definition set_liveQueries (f : list (nat * LiveSQLiteSelect) -> list (nat * LiveSQLiteSelect))
    (s : LiveSQLite) : LiveSQLite :=
  {| checkConditionWhenQueued := checkConditionWhenQueued s;
     columnCache := columnCache s; db := db s; pageSize := pageSize s;
     liveQueries := f (liveQueries s); queuedUpdates := queuedUpdates s;
     tableCache := tableCache s; tableInfo := tableInfo s;
     usedTables := usedTables s; nextId := nextId s; events := events s |}.

Definition set_queuedUpdates (f : gset nat -> gset nat) (s : LiveSQLite) : LiveSQLite :=
  {| checkConditionWhenQueued := checkConditionWhenQueued s;
     columnCache := columnCache s; db := db s; pageSize := pageSize s;
     liveQueries := liveQueries s; queuedUpdates := f (queuedUpdates s);
     tableCache := tableCache s; tableInfo := tableInfo s;
     usedTables := usedTables s; nextId := nextId s; events := events s |}.

Definition set_tableCache (f : gmap string RowCache -> gmap string RowCache)
    (s : LiveSQLite) : LiveSQLite :=
  {| checkConditionWhenQueued := checkConditionWhenQueued s;
     columnCache := columnCache s; db := db s; pageSize := pageSize s;
     liveQueries := liveQueries s; queuedUpdates := queuedUpdates s;
     tableCache := f (tableCache s); tableInfo := tableInfo s;
     usedTables := usedTables s; nextId := nextId s; events := events s |}.

Definition set_tableInfo (f : gmap string (list Column) -> gmap string (list Column))
    (s : LiveSQLite) : LiveSQLite :=
  {| checkConditionWhenQueued := checkConditionWhenQueued s;
     columnCache := columnCache s; db := db s; pageSize := pageSize s;
     liveQueries := liveQueries s; queuedUpdates := queuedUpdates s;
     tableCache := tableCache s; tableInfo := f (tableInfo s);
     usedTables := usedTables s; nextId := nextId s; events := events s |}.

Definition set_usedTables (f : gset string -> gset string) (s : LiveSQLite) : LiveSQLite :=
  {| checkConditionWhenQueued := checkConditionWhenQueued s;
     columnCache := columnCache s; db := db s; pageSize := pageSize s;
     liveQueries := liveQueries s; queuedUpdates := queuedUpdates s;
     tableCache := tableCache s; tableInfo := tableInfo s;
     usedTables := f (usedTables s); nextId := nextId s; events := events s |}.

Definition set_nextId (f : nat -> nat) (s : LiveSQLite) : LiveSQLite :=
  {| checkConditionWhenQueued := checkConditionWhenQueued s;
     columnCache := columnCache s; db := db s; pageSize := pageSize s;
     liveQueries := liveQueries s; queuedUpdates := queuedUpdates s;
     tableCache := tableCache s; tableInfo := tableInfo s;
     usedTables := usedTables s; nextId := f (nextId s); events := events s |}.

Definition emit (es : list Event) (s : LiveSQLite) : LiveSQLite :=
  {| checkConditionWhenQueued := checkConditionWhenQueued s;
     columnCache := columnCache s; db := db s; pageSize := pageSize s;
     liveQueries := liveQueries s; queuedUpdates := queuedUpdates s;
     tableCache := tableCache s; tableInfo := tableInfo s;
     usedTables := usedTables s; nextId := nextId s; events := events s ++ es |}.

(** ** The frame decoder *)

(** The [changes] of a batch: table name to rowid to decoded row, both maps
    in insertion order.  [applyChanges] tests every row for truthiness, so
    an entry is an [option]; [None] stands for a falsy value. *)
Definition Changes := list (string * list (Z * option row)).

(** [getTableInfo(pageNumber)] *)
Definition getTableInfo (this : LiveSQLite) (pageNumber : Z) : option string :=
  db_master_name (db this) pageNumber.

(** One iteration of the cell loop of [processWALFrame]. *)
Definition processCell (this : LiveSQLite) (tableName : string)
    (pageData : Buffer) (cellPointerOffset : Z) (changes : Changes) : Result Changes :=
  let* cellOffset := readUInt16BE pageData cellPointerOffset in
  let rowId := readVarint pageData cellOffset in
  let payloadSize :=
    readVarint pageData (cellOffset + getVarintSize pageData cellOffset) in
  let payloadOffset :=
    cellOffset + getVarintSize pageData cellOffset
    + getVarintSize pageData (cellOffset + getVarintSize pageData cellOffset) in
  let changes :=
    if negb (Map_has changes tableName) then Map_set changes tableName []
    else changes in
  let* rowChanges :=
    parseRowData (tableInfo this) tableName
                 (buf_slice pageData payloadOffset (payloadOffset + payloadSize)) in
  Ok (Map_set changes tableName
              (Map_set (default [] (Map_get changes tableName)) rowId
                       (Some rowChanges))).

(** The cell loop: [n] cells left, the next pointer at [cellPointerOffset]. *)
Fixpoint processCells (this : LiveSQLite) (tableName : string) (pageData : Buffer)
    (n : nat) (cellPointerOffset : Z) (changes : Changes) : Result Changes :=
  match n with
  | O => Ok changes
  | S n' =>
      let* changes := processCell this tableName pageData cellPointerOffset changes in
      processCells this tableName pageData n' (cellPointerOffset + 2) changes
  end.

(** [processWALFrame(pageNumber, pageData, changes)] *)
Definition processWALFrame (this : LiveSQLite) (pageNumber : Z)
    (pageData : Buffer) (changes : Changes) : Result Changes :=
  let* pageType := readUInt8 pageData 0 in
  if pageType =? 13 then
    match getTableInfo this pageNumber with
    | Some tableName =>
        if bool_decide (tableName ∈ usedTables this) then
          let* cellCount := readUInt16BE pageData 3 in
          processCells this tableName pageData (Z.to_nat cellCount) 8 changes
        else Ok changes
    | None => Ok changes
    end
  else Ok changes.

(** The [while] loop of [parseWAL].  [None] is a loop that has not ended
    within [fuel] iterations. *)
Fixpoint parseWAL_loop (fuel : nat) (this : LiveSQLite) (buffer : Buffer)
    (offset : Z) (changes : Changes) : option (Result Changes) :=
  if offset <? blen buffer then
    match fuel with
    | O => None
    | S fuel' =>
        match readUInt32LE buffer offset with
        | Throw e => Some (Throw e)
        | Ok frameSize =>
            match readUInt32LE buffer (offset + 4) with
            | Throw e => Some (Throw e)
            | Ok pageNumber =>
                let pageData := buf_slice buffer (offset + 8) (offset + frameSize) in
                match processWALFrame this pageNumber pageData changes with
                | Throw e => Some (Throw e)
                | Ok changes =>
                    parseWAL_loop fuel' this buffer (offset + frameSize) changes
                end
            end
        end
    end
  else Some (Ok changes).

(** ** The applicator and the notifier *)

(** [query.triggers.some(...)] of [notifyQueries]. *)
Definition needsUpdate (q : LiveSQLiteSelect) (tableName : string)
    (oldRow newRow : option row) (rowDeleted : bool) : bool :=
  existsb
    (fun trigger =>
       if negb (String.eqb (table trigger) tableName) then false
       else
         match condition trigger with
         | Some cond => cond newRow oldRow rowDeleted
         | None => true
         end)
    (triggers q).

(** The body of the loop of [notifyQueries] for one registered query. *)
Definition notifyQuery (tableName : string) (oldRow newRow : option row)
    (rowDeleted : bool) (this : LiveSQLite) (entry : nat * LiveSQLiteSelect)
  : LiveSQLite :=
  let '(queryId, query) := entry in
  if needsUpdate query tableName oldRow newRow rowDeleted then
    if checkConditionWhenQueued this
       || negb (bool_decide (queryId ∈ queuedUpdates this))
    then
      let this := set_queuedUpdates (fun qs => {[queryId]} ∪ qs) this in
      let '(query', emitted) := invalidate queryId (db this) query in
      emit emitted (set_liveQueries (fun m => Map_set m queryId query') this)
    else this
  else this.

(** [notifyQueries(tableName, oldRow, newRow, rowDeleted)] *)
Definition notifyQueries (tableName : string) (oldRow newRow : option row)
    (rowDeleted : bool) (this : LiveSQLite) : LiveSQLite :=
  let this :=
    emit [Notified tableName oldRow newRow rowDeleted (tableCache this)] this in
  fold_left (notifyQuery tableName oldRow newRow rowDeleted) (liveQueries this) this.

(** The body of the inner loop of [applyChanges] for one entry of a table's
    row changes. *)
Definition applyRow (tableName : string) (this : LiveSQLite)
    (entry : Z * option row) : LiveSQLite :=
  let '(rowId, newRow) := entry in
  let cache := default ∅ (tableCache this !! tableName) in
  match cache !! rowId, newRow with
  | None, Some new =>
      notifyQueries tableName None (Some new) false
        (set_tableCache (fun tc => <[tableName := <[rowId := new]> cache]> tc) this)
  | Some old, None =>
      notifyQueries tableName (Some old) None true
        (set_tableCache (fun tc => <[tableName := delete rowId cache]> tc) this)
  | Some old, Some new =>
      notifyQueries tableName (Some old) (Some new) false
        (set_tableCache (fun tc => <[tableName := <[rowId := new]> cache]> tc) this)
  | None, None => this
  end.

(** The body of the outer loop of [applyChanges] for one table. *)
Definition applyTable (this : LiveSQLite)
    (entry : string * list (Z * option row)) : LiveSQLite :=
  let '(tableName, rowChanges) := entry in
  match tableCache this !! tableName with
  | None => this
  | Some _ => fold_left (applyRow tableName) rowChanges this
  end.

(** [applyChanges(changes)] *)
Definition applyChanges (changes : Changes) (this : LiveSQLite) : LiveSQLite :=
  fold_left applyTable changes this.

(** [parseWAL(walPath, start, end)], given the bytes read from the file. *)
Definition parseWAL (this : LiveSQLite) (buffer : Buffer) : option (Result LiveSQLite) :=
  match parseWAL_loop (length buffer) this buffer 0 [] with
  | None => None
  | Some (Ok changes) => Some (Ok (applyChanges changes this))
  | Some (Throw error) => Some (Throw (LiveSQLiteError WAL_PARSE_ERROR error))
  end.

(** ** The table cache and the registry *)

(** [cacheTableInfo(tableName)] *)
Definition cacheTableInfo (tableName : string) (this : LiveSQLite)
  : LiveSQLite * Result unit :=
  match rcatch (db_table_info (db this) tableName)
               (LiveSQLiteError CACHE_TABLE_INFO_ERROR) with
  | Ok columnInfo => (set_tableInfo (fun ti => <[tableName := columnInfo]> ti) this, Ok tt)
  | Throw e => (this, Throw e)
  end.

(** The columns [cacheTable] selects. *)
Definition cachedColumns (this : LiveSQLite) (tableName : string)
    (info : list Column) : list string :=
  let cacheSettings :=
    default {| include := None; exclude := None |} (columnCache this !! tableName) in
  let columns := map name info in
  match include cacheSettings, exclude cacheSettings with
  | Some inc, _ => inc
  | None, Some exc => filter (fun col => ¬ (col ∈ exc)) columns
  | None, None => columns
  end.

(** [cacheTable(tableName)] *)
Definition cacheTable (tableName : string) (this : LiveSQLite)
  : LiveSQLite * Result unit :=
  let '(this, r) :=
    if negb (bool_decide (is_Some (tableInfo this !! tableName)))
    then cacheTableInfo tableName this else (this, Ok tt) in
  match r with
  | Throw e => (this, Throw (LiveSQLiteError CACHE_TABLE_ERROR e))
  | Ok _ =>
      match tableInfo this !! tableName with
      | None => (this, Throw (LiveSQLiteError CACHE_TABLE_ERROR TypeError))
      | Some info =>
          let columns := cachedColumns this tableName info in
          match db_select_rowid (db this) tableName columns with
          | Throw e => (this, Throw (LiveSQLiteError CACHE_TABLE_ERROR e))
          | Ok rows =>
              let cache :=
                fold_left
                  (fun (cache : RowCache) row =>
                     RowCache_set cache (obj_get row "rowid") row)
                  rows ∅ in
              (set_tableCache (fun tc => <[tableName := cache]> tc) this, Ok tt)
          end
      end
  end.

(** [ensureTableCached(tableName)] *)
Definition ensureTableCached (tableName : string) (this : LiveSQLite)
  : LiveSQLite * Result unit :=
  let '(this, r) :=
    if negb (bool_decide (is_Some (tableCache this !! tableName)))
    then cacheTable tableName this else (this, Ok tt) in
  match r with
  | Throw e => (this, Throw e)
  | Ok _ => (set_usedTables (fun u => {[tableName]} ∪ u) this, Ok tt)
  end.

(** The loop of [select] over the triggers. *)
Fixpoint ensureTriggersCached (ts : list Trigger) (this : LiveSQLite)
  : LiveSQLite * Result unit :=
  match ts with
  | [] => (this, Ok tt)
  | trigger :: ts' =>
      match ensureTableCached (table trigger) this with
      | (this, Throw e) => (this, Throw e)
      | (this, Ok _) => ensureTriggersCached ts' this
      end
  end.

(** [new LiveSQLiteSelect(liveSQL, stmt, values, keySelector, triggers)]:
    the constructor runs [execute()].  No ['error'] listener is attached
    yet, so the error of a statement that fails is thrown, by [emit]; the
    ['update'] event of a result that has rows is emitted. *)
Definition LiveSQLiteSelect_new (id : nat) (db : Database) (stmt : Statement)
    (values : list jsval) (keySelector : KeySelector) (triggers : list Trigger)
  : Result (LiveSQLiteSelect * list Event) :=
  let liveQuery :=
    {| stmt := stmt; values := values; keySelector := keySelector;
       triggers := triggers; lastResult := None; active := true |} in
  match stmt values db with
  | Throw error => Throw error
  | Ok _ => Ok (execute id db liveQuery)
  end.

(** [select(query, values, keySelector, triggers)]: the id of the new live
    query. *)
Definition select (query : Query) (values : list jsval) (keySelector : KeySelector)
    (triggers : list Trigger) (this : LiveSQLite) : LiveSQLite * Result nat :=
  match query (db this) with
  | Throw e => (this, Throw e)
  | Ok stmt =>
      match ensureTriggersCached triggers this with
      | (this, Throw e) => (this, Throw e)
      | (this, Ok _) =>
          let id := nextId this in
          match LiveSQLiteSelect_new id (db this) stmt values keySelector triggers with
          | Throw e => (this, Throw e)
          | Ok (liveQuery, emitted) =>
              (emit emitted
                 (set_liveQueries (fun m => Map_set m id liveQuery)
                                  (set_nextId S this)),
               Ok id)
          end
      end
  end.

(** [stop()] on the live query [id]. *)
Definition stop (id : nat) (this : LiveSQLite) : LiveSQLite :=
  set_liveQueries (fun m => Map_delete m id) this.

(** [new LiveSQLite(settings)] on the database [db]: the fields as the
    constructor leaves them. *)
Definition LiveSQLite_new (checkConditionWhenQueued : bool)
    (columnCache : gmap string CacheSettings) (db : Database) (pageSize : Z)
  : LiveSQLite :=
  {| checkConditionWhenQueued := checkConditionWhenQueued;
     columnCache := columnCache; db := db; pageSize := pageSize;
     liveQueries := []; queuedUpdates := ∅; tableCache := ∅; tableInfo := ∅;
     usedTables := ∅; nextId := 0; events := [] |}.

(** A writer outside the engine leaves the database as [d]. *)
Definition set_db (d : Database) (s : LiveSQLite) : LiveSQLite :=
  {| checkConditionWhenQueued := checkConditionWhenQueued s;
     columnCache := columnCache s; db := d; pageSize := pageSize s;
     liveQueries := liveQueries s; queuedUpdates := queuedUpdates s;
     tableCache := tableCache s; tableInfo := tableInfo s;
     usedTables := usedTables s; nextId := nextId s; events := events s |}.

(** ** Definitions used to state the properties *)

(** [buffer[i]] as a number, [undefined] counting as 0: what the bitwise
    operators make of it. *)
Definition byte_at (buffer : Buffer) (i : Z) : Z :=
  match buf_get buffer i with Some b => byteZ b | None => 0 end.

(** The low seven bits of [n] successive bytes, the first byte the least
    significant group. *)
Fixpoint groups (buffer : Buffer) (offset : Z) (n : nat) : Z :=
  match n with
  | O => 0
  | S n' => byte_at buffer offset mod 128 + 128 * groups buffer (offset + 1) n'
  end.



(** A varint as the code reads one, as a byte string: every byte but the
    last has the continuation bit, the last has not. *)
Fixpoint varint_bytes (bs : list byte) : bool :=
  match bs with
  | [] => false
  | [b] => byteZ b <? 128
  | b :: bs' => (128 <=? byteZ b) && varint_bytes bs'
  end.

(** Its value: seven bits a byte, the first byte least significant. *)
Fixpoint varint_value (bs : list byte) : Z :=
  match bs with
  | [] => 0
  | b :: bs' => byteZ b mod 128 + 128 * varint_value bs'
  end.

(** A cell as [processWALFrame] reads it: the rowid varint, the
    payload-size varint, the payload. *)
Definition cell_bytes (rowid size : list byte) (payload : Buffer) : Buffer :=
  rowid ++ size ++ payload.

(** [changes] after [changes.get(tableName).set(rowId, row)], the table's
    map created when missing. *)
Definition record_row (changes : Changes) (tableName : string) (rowId : Z)
    (rowChanges : row) : Changes :=
  Map_set changes tableName
          (Map_set (default [] (Map_get changes tableName)) rowId (Some rowChanges)).

(** Four bytes, least significant first. *)
Definition byte_of_Z (z : Z) : byte :=
  default x00 (Byte.of_N (Z.to_N z)).

Definition le32 (z : Z) : Buffer :=
  [byte_of_Z (z mod 256); byte_of_Z (z / 256 mod 256);
   byte_of_Z (z / 65536 mod 256); byte_of_Z (z / 16777216 mod 256)].

(** A frame as [parseWAL] reads it: its own length in bytes, the page
    number, the page. *)
Definition frame_bytes (frame : Z * Buffer) : Buffer :=
  le32 (8 + blen (snd frame)) ++ le32 (fst frame) ++ snd frame.

(** [processWALFrame] on each frame of a list in turn, stopping at the
    first one that throws. *)
Fixpoint processFrames (this : LiveSQLite) (frames : list (Z * Buffer))
    (changes : Changes) : Result Changes :=
  match frames with
  | [] => Ok changes
  | (pageNumber, pageData) :: frames' =>
      let* changes := processWALFrame this pageNumber pageData changes in
      processFrames this frames' changes
  end.

(** [buffer.readUInt32BE(offset)] *)
Definition readUInt32BE (b : Buffer) (offset : Z) : Result Z :=
  if (0 <=? offset) && (offset + 4 <=? blen b) then
    match buf_get b offset, buf_get b (offset + 1),
          buf_get b (offset + 2), buf_get b (offset + 3) with
    | Some b0, Some b1, Some b2, Some b3 =>
        Ok (byteZ b0 * 16777216 + byteZ b1 * 65536 + byteZ b2 * 256 + byteZ b3)
    | _, _, _, _ => Throw RangeError
    end
  else Throw RangeError.

(** The frames of a WAL byte range as the specification words them: a
    24-byte header that starts with the page number (big-endian, as in a
    standard SQLite WAL), then [pageSize] bytes of page image. *)
Fixpoint frames_spec (fuel : nat) (pageSize : Z) (buffer : Buffer)
  : list (Z * Buffer) :=
  match fuel with
  | O => []
  | S fuel' =>
      if 24 + pageSize <=? blen buffer then
        match readUInt32BE buffer 0 with
        | Ok pageNumber =>
            (pageNumber, buf_slice buffer 24 (24 + pageSize))
              :: frames_spec fuel' pageSize
                   (skipn (Z.to_nat (24 + pageSize)) buffer)
        | Throw _ => []
        end
      else []
  end.

(** The cell header as the specification orders it: the payload-size
    varint first, the rowid varint second.  The pair is (rowid, payload
    size). *)
Definition cell_header_spec (pageData : Buffer) (cellOffset : Z) : Z * Z :=
  let payloadSize := readVarint pageData cellOffset in
  let rowId :=
    readVarint pageData (cellOffset + getVarintSize pageData cellOffset) in
  (rowId, payloadSize).

(** ** What a batch does to the store, one mutation at a time *)

(** The entries of [changes] in the order [applyChanges] visits them. *)
Definition mutations (changes : Changes) : list (string * Z * option row) :=
  flat_map (fun '(tableName, rowChanges) =>
              map (fun '(rowId, newRow) => (tableName, rowId, newRow)) rowChanges)
           changes.

(** Whether [applyChanges] acts on an entry: its table is cached, and the
    row is present before or after. *)
Definition effective (tc : gmap string RowCache)
    (m : string * Z * option row) : bool :=
  let '(tableName, rowId, newRow) := m in
  match tc !! tableName with
  | None => false
  | Some cache =>
      match cache !! rowId, newRow with
      | None, None => false
      | _, _ => true
      end
  end.

(** The table cache after one entry. *)
Definition store_step (tc : gmap string RowCache)
    (m : string * Z * option row) : gmap string RowCache :=
  let '(tableName, rowId, newRow) := m in
  match tc !! tableName with
  | None => tc
  | Some cache =>
      match cache !! rowId, newRow with
      | _, Some new => <[tableName := <[rowId := new]> cache]> tc
      | Some _, None => <[tableName := delete rowId cache]> tc
      | None, None => tc
      end
  end.

(** The table cache right after each entry [applyChanges] acts on. *)
Fixpoint stores_after (tc : gmap string RowCache)
    (ms : list (string * Z * option row)) : list (gmap string RowCache) :=
  match ms with
  | [] => []
  | m :: ms' =>
      (if effective tc m then [store_step tc m] else [])
        ++ stores_after (store_step tc m) ms'
  end.

(** The table cache each call of [notifyQueries] ran in, in order. *)
Definition observed_stores (es : list Event) : list (gmap string RowCache) :=
  flat_map (fun e => match e with
                     | Notified _ _ _ _ observed => [observed]
                     | _ => []
                     end) es.

(** The mutations notified, in order: table, old row, new row, deleted. *)
Definition notified (es : list Event)
  : list (string * option row * option row * bool) :=
  flat_map (fun e => match e with
                     | Notified t old new deleted _ => [(t, old, new, deleted)]
                     | _ => []
                     end) es.

(** The updates emitted, in order. *)
Definition updates (es : list Event) : list (nat * Diff * list row) :=
  flat_map (fun e => match e with
                     | Update id diff data => [(id, diff, data)]
                     | _ => []
                     end) es.

(** ** Scenarios *)

(** The table [players(id INTEGER, name TEXT)] with root page 2. *)
Definition players_columns : list Column :=
  [ {| name := "id"; type := "INTEGER" |}; {| name := "name"; type := "TEXT" |} ].

Definition player (id : Z) (n : string) : row := [("id", Num id); ("name", Str n)].

Definition players (rows : list (Z * row)) : Database :=
  [ {| tbl_name := "players"; rootpage := 2; tbl_columns := players_columns;
       integer_primary_key := None;
       tbl_rows := rows |} ].

(** The statement of [SELECT * FROM t]: every row of the table. *)
Definition all_rows (tableName : string) : Statement :=
  fun _ db =>
    match find_table db tableName with
    | Some t => Ok (map snd (tbl_rows t))
    | None => Throw SqliteError
    end.

(** [SELECT * FROM t]: it is prepared on a database that has the table. *)
Definition select_all (tableName : string) : Query :=
  fun db =>
    match find_table db tableName with
    | Some _ => Ok (all_rows tableName)
    | None => Throw SqliteError
    end.

(** A trigger on every mutation of a table. *)
Definition on_table (tableName : string) : list Trigger :=
  [ {| table := tableName; condition := None |} ].

(** Two bytes, most significant first. *)
Definition be16 (z : Z) : Buffer := [byte_of_Z (z / 256); byte_of_Z (z mod 256)].

(** The cell pointers of a page whose cells start at [offset]. *)
Fixpoint cell_pointers (offset : Z) (cells : list Buffer) : Buffer :=
  match cells with
  | [] => []
  | c :: cells' => be16 offset ++ cell_pointers (offset + blen c) cells'
  end.

(** A leaf table page as [processWALFrame] reads it: the type byte 13, the
    cell count at offset 3, the cell pointers from offset 8, the cells. *)
Definition leaf_page (cells : list Buffer) : Buffer :=
  [x0d; x00; x00] ++ be16 (Z.of_nat (length cells)) ++ [x00; x00; x00]
  ++ cell_pointers (8 + 2 * Z.of_nat (length cells)) cells
  ++ concat cells.

(** A short text as [parseValue] reads a TEXT column: its length, its
    bytes. *)
Definition text_bytes (s : string) : Buffer :=
  byte_of_Z (Z.of_nat (String.length s)) :: bytes_of_string s.

(** The cell of a row of [players]. *)
Definition player_cell (id : Z) (n : string) : Buffer :=
  let payload := byte_of_Z id :: text_bytes n in
  cell_bytes [byte_of_Z id] [byte_of_Z (blen payload)] payload.

(** A byte range holding one frame for the root page of [players]. *)
Definition players_wal (cells : list Buffer) : Buffer :=
  frame_bytes (2, leaf_page cells).

(** An engine on [db] with one live query, [SELECT * FROM players] keyed by
    [id], triggered by every mutation of [players]. *)
Definition watching_players (db : Database) : LiveSQLite :=
  fst (select (select_all "players") [] (LiveSQLiteKeySelector.Columns ["id"])
              (on_table "players") (LiveSQLite_new false ∅ db 4096)).

(** A page whose one cell is laid out as the specification words it, for
    the row 11 of [players]: payload size 7, rowid 11, and a payload with a
    record header (header length 3, serial types 1 and 19) before the
    column bodies. *)
Definition sqlite_cell_page : Buffer :=
  leaf_page [[x07; x0b; x03; x01; x13; x0b; x42; x6f; x62]].

(** Four bytes, most significant first. *)
Definition be32 (z : Z) : Buffer :=
  [byte_of_Z (z / 16777216 mod 256); byte_of_Z (z / 65536 mod 256);
   byte_of_Z (z / 256 mod 256); byte_of_Z (z mod 256)].

(** A page of 4096 bytes holding the cell of the player 11. *)
Definition bob_page : Buffer :=
  let page := leaf_page [player_cell 11 "Bob"] in
  page ++ repeat x00 (4096 - length page).

(** One frame as the specification words it: a 24-byte header (page number
    2, commit size 1, two salts, two checksums) and the page. *)
Definition sqlite_wal : Buffer :=
  be32 2 ++ be32 1
  ++ [x12; x34; x56; x78; x9a; xbc; xde; xf0]
  ++ [x0f; x1e; x2d; x3c; x4b; x5a; x69; x78]
  ++ bob_page.

(** No entry of [changes] is a tombstone. *)
Definition no_tombstone (changes : Changes) : Prop :=
  Forall (fun entry => Forall (fun rc => is_Some (snd rc)) (snd entry)) changes.

(** An event that is not the notification of a deletion. *)
Definition not_a_deletion (e : Event) : Prop :=
  match e with
  | Notified _ _ _ rowDeleted _ => rowDeleted = false
  | _ => True
  end.

(** The engine of the deletion scenario: the players 11 and 12 were cached
    when the query was registered, and a writer has deleted 12 since. *)
Definition after_delete_12 : LiveSQLite :=
  set_db (players [(11, player 11 "Alice")])
         (watching_players (players [(11, player 11 "Alice");
                                     (12, player 12 "Carol")])).

(** The engines of the two-updates scenario: the player 11 is renamed Bob,
    the WAL change is processed, then renamed Carl, and the WAL change is
    processed. *)
Definition renamed_bob : LiveSQLite :=
  applyChanges [("players", [(11, Some (player 11 "Bob"))])]
    (set_db (players [(11, player 11 "Bob")])
            (watching_players (players [(11, player 11 "Alice")]))).

Definition renamed_carl : LiveSQLite :=
  applyChanges [("players", [(11, Some (player 11 "Carl"))])]
    (set_db (players [(11, player 11 "Carl")]) renamed_bob).

(** The events the live query [id] has emitted. *)
Definition emitted_by (id : nat) (es : list Event) : list Event :=
  List.filter (fun e => match e with
                        | Update i _ _ | QueryError i _ => bool_decide (i = id)
                        | Notified _ _ _ _ _ => false
                        end) es.

(** From [this] to [this'] the live query [id] has stayed queued, has not
    run and has emitted nothing. *)
Definition stays_queued (id : nat) (this this' : LiveSQLite) : Prop :=
  checkConditionWhenQueued this' = false
  /\ id ∈ queuedUpdates this'
  /\ Map_get (liveQueries this') id = Map_get (liveQueries this) id
  /\ emitted_by id (events this') = emitted_by id (events this).

(** The text [join] makes of an element. *)
Definition element_text (v : jsval) : string :=
  match v with
  | Undefined | Null => EmptyString
  | _ => ToString v
  end.

(** The old row [diffResults] compares a new row with: the first one with
    its key. *)
Definition old_row_with_key (keySelector : KeySelector) (old : list row)
    (key : key) : option row :=
  find (fun r => bool_decide (keySelector r None = key)) old.

(** Whether [diffResults] reports a new row as changed, its key being among
    the old keys. *)
Definition differs_from_old (keySelector : KeySelector) (old : list row)
    (r : row) : bool :=
  negb (bool_decide
          (JSON_stringify (Obj r)
           = match old_row_with_key keySelector old (keySelector r None) with
             | Some r' => JSON_stringify (Obj r')
             | None => JSON_stringify Undefined
             end)).

(** A live query [SELECT * FROM players] keyed by [Index], after its first
    execution on a database with the player 11. *)
Definition indexed_query : LiveSQLiteSelect :=
  fst (execute 0 (players [(11, player 11 "Alice")])
               {| stmt := all_rows "players"; values := [];
                  keySelector := LiveSQLiteKeySelector.Index;
                  triggers := on_table "players"; lastResult := None;
                  active := true |}).







(** The table [accounts(id INTEGER, profile TEXT)] with root page 4, and an
    engine with one live query on it. *)
Definition accounts (rows : list (Z * row)) : Database :=
  [ {| tbl_name := "accounts"; rootpage := 4;
       tbl_columns := [ {| name := "id"; type := "INTEGER" |};
                        {| name := "profile"; type := "TEXT" |} ];
       integer_primary_key := None;
       tbl_rows := rows |} ].

(** The JSON text of an object with the member [age], 30. *)
Definition age_30 : string :=
  let dq := String (JSON.chr 34) EmptyString in
  "{" +:+ dq +:+ "age" +:+ dq +:+ ":30}".

Definition watching_accounts : LiveSQLite :=
  fst (select (select_all "accounts") [] (LiveSQLiteKeySelector.Columns ["id"])
              (on_table "accounts")
              (LiveSQLite_new false ∅
                 (accounts [(1, [("id", Num 1); ("profile", Str age_30)])]) 4096)).


(** The table [members(id INTEGER PRIMARY KEY, secret TEXT)] with root page
    5, settings that exclude its key from the cache, and a new engine with
    these settings once [cacheTable] has loaded the table. *)
Definition members (rows : list (Z * row)) : Database :=
  [ {| tbl_name := "members"; rootpage := 5;
       tbl_columns := [ {| name := "id"; type := "INTEGER" |};
                        {| name := "secret"; type := "TEXT" |} ];
       integer_primary_key := Some "id";
       tbl_rows := rows |} ].





(** ** Identifiers in SQL text *)

(** The double quote. *)
Definition dquote : ascii := "034"%char.

(** The [replace] of [escapeId]: every double quote becomes two. *)
Fixpoint double_quotes (identifier : string) : string :=
  match identifier with
  | EmptyString => EmptyString
  | String c rest =>
      if Ascii.eqb c dquote
      then String dquote (String dquote (double_quotes rest))
      else String c (double_quotes rest)
  end.

(** [escapeId(identifier)] *)
Definition escapeId (identifier : string) : string :=
  String dquote (double_quotes identifier +:+ String dquote EmptyString).

(** ** The gate of [processWALChanges] *)

(** The fields [processWALChanges] reads and writes before its first
    [await]: the pause flag, the minimum interval of the settings, the time
    of the last pass, and the delay of the pending timer, if there is
    one. *)
Record Scheduler := {
  paused : bool;
  minInterval : Z;
  lastProcessTime : Z;
  updateTimeout : option Z
}.

(** What a call of [processWALChanges] does at the clock reading [now]: it
    returns at once (paused), it returns after arming the timer unless one
    is pending, or it goes on to read the WAL. *)
Inductive Gate :=
| Ignored
| Deferred
| Passed.

Definition processWALChanges_gate (now : Z) (s : Scheduler) : Scheduler * Gate :=
  if paused s then (s, Ignored)
  else if now - lastProcessTime s <? minInterval s then
    (match updateTimeout s with
     | Some _ => s
     | None =>
         {| paused := paused s; minInterval := minInterval s;
            lastProcessTime := lastProcessTime s;
            updateTimeout := Some (minInterval s - (now - lastProcessTime s)) |}
     end, Deferred)
  else
    ({| paused := paused s; minInterval := minInterval s;
        lastProcessTime := now; updateTimeout := updateTimeout s |}, Passed).

(** What reaches the scheduler: a change of the WAL file, the timer, and
    the calls [pause()] and [resume()], each with the clock reading at that
    moment where the code reads the clock. *)
Inductive SchedulerEvent :=
| WalChanged (now : Z)
| TimerFired (now : Z)
| PauseCalled
| ResumeCalled (now : Z).

(** One event.  The timer's callback clears [updateTimeout] and calls
    [processWALChanges]; [resume()] clears the pause flag and calls it. *)
Definition scheduler_step (s : Scheduler) (e : SchedulerEvent) : Scheduler * Gate :=
  match e with
  | WalChanged now => processWALChanges_gate now s
  | TimerFired now =>
      processWALChanges_gate now
        {| paused := paused s; minInterval := minInterval s;
           lastProcessTime := lastProcessTime s; updateTimeout := None |}
  | PauseCalled =>
      ({| paused := true; minInterval := minInterval s;
          lastProcessTime := lastProcessTime s;
          updateTimeout := updateTimeout s |}, Ignored)
  | ResumeCalled now =>
      processWALChanges_gate now
        {| paused := false; minInterval := minInterval s;
           lastProcessTime := lastProcessTime s;
           updateTimeout := updateTimeout s |}
  end.

(** The clock readings at which a sequence of events starts a pass, and the
    scheduler after it. *)
Fixpoint scheduler_run (s : Scheduler) (es : list SchedulerEvent)
  : Scheduler * list Z :=
  match es with
  | [] => (s, [])
  | e :: es' =>
      let '(s', gate) := scheduler_step s e in
      let '(s'', passes) := scheduler_run s' es' in
      let now :=
        match e with
        | WalChanged now | TimerFired now | ResumeCalled now => now
        | PauseCalled => 0
        end in
      (s'', match gate with Passed => now :: passes | _ => passes end)
  end.

(** Every time of the list is at least [interval] after the one before it,
    the first after [last]. *)
Fixpoint spaced (interval last : Z) (times : list Z) : Prop :=
  match times with
  | [] => True
  | t :: times' => interval <= t - last /\ spaced interval t times'
  end.

(** ** Writing what the decoder reads *)

(** The bytes of a varint as [readVarint] reads one: seven bits a byte, the
    least significant group first, the continuation bit on every byte but
    the last; [n] more bytes at most after this one. *)
Fixpoint encodeVarint_groups (n : nat) (z : Z) : list byte :=
  match n with
  | O => [byte_of_Z (z mod 128)]
  | S n' =>
      if z <? 128 then [byte_of_Z z]
      else byte_of_Z (128 + z mod 128) :: encodeVarint_groups n' (z / 128)
  end.

(** At most four bytes: the values [readVarint] reads back. *)
Definition encodeVarint (z : Z) : list byte := encodeVarint_groups 3 z.

(** A column value as a payload holds it. *)
Inductive StoredValue :=
| IntegerValue (z : Z)
| RealValue (bits : Buffer)
| TextValue (text : Buffer)
| BlobValue (b : Buffer)
| Untyped.

(** Its bytes, as [parseValue] and [getValueSize] read them: a varint; the
    eight bytes of a double; a length varint and the bytes; nothing. *)
Definition encode_value (v : StoredValue) : Buffer :=
  match v with
  | IntegerValue z => encodeVarint z
  | RealValue bits => bits
  | TextValue text => encodeVarint (blen text) ++ text
  | BlobValue b => encodeVarint (blen b) ++ b
  | Untyped => []
  end.

(** The value [parseValue] makes of it: the number; the double of the eight
    bytes; the bytes of the text decoded as UTF-8, and parsed when the text
    is JSON; the bytes. *)
Definition decoded_value (v : StoredValue) : jsval :=
  match v with
  | IntegerValue z => Num z
  | RealValue bits =>
      match map byteZ bits with
      | [b0; b1; b2; b3; b4; b5; b6; b7] => double_of_bytes b0 b1 b2 b3 b4 b5 b6 b7
      | _ => Null
      end
  | TextValue text =>
      match JSON.parse (utf8_text text) with
      | Some parsed => parsed
      | None => Str (utf8_text text)
      end
  | BlobValue b => Buf b
  | Untyped => Null
  end.

(** A value a column of declared type [type] can hold so that the decoder
    reads it back: a number and a length are below 2^28, which a varint of
    four bytes holds. *)
Definition value_fits (type : string) (v : StoredValue) : Prop :=
  match v with
  | IntegerValue z => type = "INTEGER" /\ 0 <= z < 268435456
  | RealValue bits => type = "REAL" /\ length bits = 8%nat
  | TextValue text => type = "TEXT" /\ blen text < 268435456
  | BlobValue b => type = "BLOB" /\ blen b < 268435456
  | Untyped =>
      type <> "INTEGER" /\ type <> "REAL" /\ type <> "TEXT" /\ type <> "BLOB"
  end.

(** The row of the values of the columns, set in column order. *)
Definition row_of_values (columns : list Column) (values : list StoredValue)
    (rowData : row) : row :=
  fold_left (fun o cv => obj_set o (name (fst cv)) (decoded_value (snd cv)))
            (combine columns values) rowData.

(** ** Frames the decoder passes over *)

(** A frame [processWALFrame] leaves no change for: its page is not empty
    and either is not a leaf table page, or its number is not the root page
    of a table in [usedTables]. *)
Definition passed_over (this : LiveSQLite) (frame : Z * Buffer) : Prop :=
  0 < blen (snd frame)
  /\ (byte_at (snd frame) 0 <> 13
      \/ match getTableInfo this (fst frame) with
         | None => True
         | Some tableName => tableName ∉ usedTables this
         end).

(** ** The last mutation of a row in a batch *)

(** The new row of the last entry for the row [rowId] of [tableName] among
    the mutations [ms], [None] when no entry is for it. *)
Fixpoint last_for (tableName : string) (rowId : Z)
    (ms : list (string * Z * option row)) : option (option row) :=
  match ms with
  | [] => None
  | (t, r, newRow) :: ms' =>
      match last_for tableName rowId ms' with
      | Some later => Some later
      | None =>
          if bool_decide (t = tableName /\ r = rowId) then Some newRow else None
      end
  end.

(** ** Queries a batch does not concern *)

(** Whether a trigger of the query names the table. *)
Definition triggered_by (q : LiveSQLiteSelect) (tableName : string) : bool :=
  existsb (fun trigger => String.eqb (table trigger) tableName) (triggers q).

(** From [this] to [this'] the live query [id] has emitted nothing, is
    registered as before, and is queued or not as before. *)
Definition untouched (id : nat) (this this' : LiveSQLite) : Prop :=
  emitted_by id (events this') = emitted_by id (events this)
  /\ (forall q, (id, q) ∈ liveQueries this' <-> (id, q) ∈ liveQueries this)
  /\ (id ∈ queuedUpdates this' <-> id ∈ queuedUpdates this).

(** A database with the tables [players] and [accounts], and an engine with
    a live query on each: 0 on [players], 1 on [accounts].  Then the player
    11 is renamed. *)
Definition league (n : string) : Database :=
  players [(11, player 11 n)] ++ accounts [(1, [("id", Num 1); ("profile", Str "x")])].

Definition watching_both : LiveSQLite :=
  fst (select (select_all "accounts") [] (LiveSQLiteKeySelector.Columns ["id"])
              (on_table "accounts") (watching_players (league "Alice"))).

Definition league_renamed : LiveSQLite := set_db (league "Bob") watching_both.

(** The engine of the two-updates scenario once its query is stopped, and
    the same engine after the WAL change that renames the player. *)
Definition bob_stopped : LiveSQLite :=
  stop 0 (set_db (players [(11, player 11 "Bob")])
                 (watching_players (players [(11, player 11 "Alice")]))).

Definition bob_stopped_renamed : LiveSQLite :=
  applyChanges [("players", [(11, Some (player 11 "Bob"))])] bob_stopped.

(** ** What caching tables changes *)

(** From [this] to [this'] only the caches have changed, and they have only
    grown: the registry, the events, the database and the settings are the
    same, a table in [usedTables] stays there, and a table that had a row
    cache or a column list has the same one. *)
Definition caches_grown (this this' : LiveSQLite) : Prop :=
  liveQueries this' = liveQueries this
  /\ events this' = events this
  /\ nextId this' = nextId this
  /\ queuedUpdates this' = queuedUpdates this
  /\ db this' = db this
  /\ columnCache this' = columnCache this
  /\ usedTables this ⊆ usedTables this'
  /\ (forall t, is_Some (tableCache this !! t) ->
                tableCache this' !! t = tableCache this !! t)
  /\ (forall t, is_Some (tableInfo this !! t) ->
                tableInfo this' !! t = tableInfo this !! t).

(** Every table in [usedTables] has a row cache, and every table with a row
    cache has a column list. *)
Definition tables_ready (this : LiveSQLite) : Prop :=
  (forall t, t ∈ usedTables this -> is_Some (tableCache this !! t))
  /\ (forall t, is_Some (tableCache this !! t) -> is_Some (tableInfo this !! t)).

(** The errors of the decoder that come from reading past the end of a
    buffer: the [RangeError] of a [Buffer] read, alone or as [parseRowData]
    wraps it. *)
Definition short_read (e : JsError) : Prop :=
  e = RangeError \/ e = LiveSQLiteError PARSE_COLUMN_ERROR RangeError.

(** A byte range with one frame for the root page of [players]: a leaf
    table page that announces one cell and ends before its cell pointer. *)
Definition cut_short_wal : Buffer :=
  frame_bytes (2, [x0d; x00; x00; x00; x01; x00; x00; x00]).

(** ** Queries a batch brings up to date *)

(** [q'] is the live query [q], whatever its last result. *)
Definition same_query (q q' : LiveSQLiteSelect) : Prop :=
  stmt q' = stmt q /\ values q' = values q /\ triggers q' = triggers q
  /\ active q' = active q /\ keySelector q' = keySelector q.

(** The registry holds the live query [q0] under [id], and its last result
    is [result], or else, when [fresh] is off, the query can still be run:
    [checkConditionWhenQueued] is set or [id] is not in [queuedUpdates]. *)
Definition tracks (id : nat) (q0 : LiveSQLiteSelect) (result : list row)
    (fresh : bool) (this : LiveSQLite) : Prop :=
  exists q,
    Map_get (liveQueries this) id = Some q
    /\ same_query q0 q
    /\ (lastResult q = Some result
        \/ (fresh = false
            /\ (checkConditionWhenQueued this = true \/ id ∉ queuedUpdates this))).

(** The state a batch is applied in, as far as the live query [q0] under
    [id] goes: the database is [d], the keys of the registry are distinct,
    as those of a [Map] are, the table [t0] has a row cache, and the
    registry [tracks] the query. *)
Definition watched (id : nat) (q0 : LiveSQLiteSelect) (d : Database)
    (result : list row) (t0 : string) (fresh : bool) (this : LiveSQLite) : Prop :=
  db this = d
  /\ NoDup (map fst (liveQueries this))
  /\ is_Some (tableCache this !! t0)
  /\ tracks id q0 result fresh this.

(** The live query of [watching_players] on a database with the player 11,
    Alice, as the registry holds it. *)
Definition players_query : LiveSQLiteSelect :=
  {| stmt := all_rows "players"; values := [];
     keySelector := LiveSQLiteKeySelector.Columns ["id"];
     triggers := on_table "players";
     lastResult := Some [player 11 "Alice"]; active := true |}.

(** ** Applying a diff *)

(** What a consumer that keeps the rows by key makes of a diff: the row
    under a key is the added or changed row with that key if there is one,
    none if a removed row has the key, and the row it held otherwise. *)
Definition apply_diff (keySelector : KeySelector) (diff : Diff)
    (old : list row) (k : key) : option row :=
  match old_row_with_key keySelector (added diff ++ changed diff) k with
  | Some r => Some r
  | None =>
      if has_key (map (fun r => keySelector r None) (removed diff)) k then None
      else old_row_with_key keySelector old k
  end.

(** ** Loading a table *)


(** * Properties *)

(** A conjunction of closed equations, each decided by evaluating both
    sides. *)
Ltac evaluate :=
  repeat first [ progress cbv zeta | match goal with |- _ /\ _ => split end ];
  vm_compute; reflexivity.

(** ** Varints *)

Lemma byteZ_range (b : byte) : 0 <= byteZ b < 256.
Proof. destruct b; vm_compute; split; congruence. Qed.

Lemma js_and_128 (x : option byte) :
  (js_and x 128 =? 0) = (match x with Some b => byteZ b | None => 0 end <? 128).
Proof. destruct x as [b|]; [destruct b|]; reflexivity. Qed.

Lemma js_and_127 (x : option byte) :
  js_and x 127 = match x with Some b => byteZ b | None => 0 end mod 128.
Proof. destruct x as [b|]; [destruct b|]; reflexivity. Qed.

Lemma getVarintSize_loop_spec (n : nat) (buffer : Buffer) (offset size : Z) :
  let r := getVarintSize_loop n buffer offset size in
  size <= r <= size + Z.of_nat n
  /\ (forall i, size <= i < r -> 128 <= byte_at buffer (offset + i))
  /\ (r < size + Z.of_nat n -> byte_at buffer (offset + r) < 128).
Proof.
  revert size. induction n as [|n IH]; intros size; cbn -[Z.of_nat].
  - split; [lia|]. split; intros; lia.
  - rewrite js_and_128. fold (byte_at buffer (offset + size)).
    destruct (Z.ltb_spec (byte_at buffer (offset + size)) 128) as [Hlt|Hge]; cbn -[Z.of_nat].
    + split; [lia|]. split; intros; [lia | assumption].
    + destruct (IH (size + 1)) as (Hr & Hall & Hend).
      split; [lia|]. split.
      * intros i Hi. destruct (Z.eq_dec i size) as [->|Hne]; [assumption|].
        apply Hall. lia.
      * intros Hlt. apply Hend. lia.
Qed.

Lemma lor_disjoint (v a k : Z) :
  0 <= k -> 0 <= v < 2 ^ k -> 0 <= a -> Z.lor v (a * 2 ^ k) = v + a * 2 ^ k.
Proof.
  intros Hk Hv Ha. rewrite <- Z.shiftl_mul_pow2 by assumption.
  rewrite <- Z.lxor_lor, Z.add_nocarry_lxor; try reflexivity.
  all: apply Z.bits_inj'; intros i Hi; rewrite Z.land_spec, Z.bits_0.
  all: destruct (Z.lt_ge_cases i k) as [Hlt|Hge];
    [ rewrite Z.shiftl_spec_low by assumption; apply andb_false_r
    | replace (Z.testbit v i) with false; [reflexivity|];
      symmetry; destruct (Z.eq_dec v 0) as [->|Hv0]; [apply Z.bits_0|];
      apply Z.bits_above_log2; [lia|];
      apply Z.log2_lt_pow2; [lia|];
      apply Z.lt_le_trans with (2 ^ k); [lia|];
      apply Z.pow_le_mono_r; lia ].
Qed.

Lemma toInt32_small (z : Z) : 0 <= z < 2147483648 -> toInt32 z = z.
Proof. intros H. unfold toInt32. rewrite Z.mod_small; lia. Qed.

(** One more group onto a value that fits below it, for the first four
    groups. *)
Lemma js_or_group (v g k : Z) :
  0 <= k <= 3 -> 0 <= v < 2 ^ (7 * k) -> 0 <= g < 128 ->
  js_or v (js_shl g (7 * k)) = v + g * 2 ^ (7 * k).
Proof.
  intros Hk Hv Hg. unfold js_or, js_shl.
  assert (Hp : 2 ^ (7 * k) <= 2 ^ 21) by (apply Z.pow_le_mono_r; lia).
  assert (H0 : 0 < 2 ^ (7 * k)) by (apply Z.pow_pos_nonneg; lia).
  rewrite (Z.mod_small (7 * k) 32) by lia.
  rewrite Z.shiftl_mul_pow2 by lia.
  rewrite (toInt32_small (g * 2 ^ (7 * k))) by nia.
  rewrite lor_disjoint by lia.
  apply toInt32_small. nia.
Qed.

Lemma readVarint_loop_groups (buffer : Buffer) (offset : Z) (n : nat) :
  forall size value,
    0 <= size ->
    getVarintSize_loop n buffer offset size <= 3 ->
    getVarintSize_loop n buffer offset size < size + Z.of_nat n ->
    0 <= value < 2 ^ (7 * size) ->
    readVarint_loop n buffer offset size value
    = value + 2 ^ (7 * size)
              * groups buffer (offset + size)
                  (Z.to_nat (getVarintSize_loop n buffer offset size - size + 1)).
Proof.
  induction n as [|n IH]; intros size value Hsize Hr Hend Hv.
  - cbn in Hend. lia.
  - cbn -[Z.of_nat groups Z.pow Z.mul] in *.
    rewrite js_and_128 in *. rewrite js_and_127.
    fold (byte_at buffer (offset + size)) in *.
    pose proof (getVarintSize_loop_spec n buffer offset (size + 1)) as (Hle & _ & _).
    assert (Hg : 0 <= byte_at buffer (offset + size) mod 128 < 128)
      by (apply Z.mod_pos_bound; lia).
    destruct (Z.ltb_spec (byte_at buffer (offset + size)) 128) as [Hlt|Hge];
      cbn -[Z.of_nat groups Z.pow Z.mul] in *.
    + rewrite js_or_group by lia.
      replace (size - size + 1) with 1 by lia.
      change (Z.to_nat 1) with 1%nat. cbn [groups]. lia.
    + rewrite js_or_group by lia.
      assert (Hpow : 2 ^ (7 * (size + 1)) = 128 * 2 ^ (7 * size)).
      { replace (7 * (size + 1)) with (7 * size + 7) by lia.
        rewrite Z.pow_add_r by lia. lia. }
      assert (H0 : 0 < 2 ^ (7 * size)) by (apply Z.pow_pos_nonneg; lia).
      rewrite IH; [| lia | lia | lia | rewrite Hpow; nia ].
      set (r := getVarintSize_loop n buffer offset (size + 1)) in *.
      replace (Z.to_nat (r - size + 1)) with (S (Z.to_nat (r - (size + 1) + 1))) by lia.
      cbn [groups]. rewrite Hpow.
      replace (offset + size + 1) with (offset + (size + 1)) by lia. lia.
Qed.

Lemma groups_nonneg (buffer : Buffer) (n : nat) :
  forall offset, 0 <= groups buffer offset n.
Proof.
  induction n as [|n IH]; intros offset; cbn [groups]; [lia|].
  pose proof (IH (offset + 1)).
  pose proof (Z.mod_pos_bound (byte_at buffer offset) 128). lia.
Qed.

(** One more group onto a value that fits below it, as long as the sum is
    below 2^31: a group that is not 0 then is one of the first five. *)
Lemma js_or_group_int32 (v g k : Z) :
  0 <= k -> 0 <= v < 2 ^ (7 * k) -> 0 <= g < 128 ->
  v + g * 2 ^ (7 * k) < 2 ^ 31 ->
  js_or v (js_shl g (7 * k)) = v + g * 2 ^ (7 * k).
Proof.
  intros Hk Hv Hg Hsum. unfold js_or, js_shl.
  assert (H0 : 0 < 2 ^ (7 * k)) by (apply Z.pow_pos_nonneg; lia).
  change (2 ^ 31) with 2147483648 in Hsum.
  destruct (Z.eq_dec g 0) as [->|Hg0].
  - rewrite Z.shiftl_0_l. change (toInt32 0) with 0.
    rewrite Z.lor_0_r, Z.mul_0_l, Z.add_0_r. apply toInt32_small. lia.
  - assert (Hk4 : k <= 4).
    { destruct (Z.le_gt_cases k 4) as [Hle|Hgt]; [assumption|].
      assert (2 ^ 35 <= 2 ^ (7 * k)) by (apply Z.pow_le_mono_r; lia).
      change (2 ^ 35) with 34359738368 in *. nia. }
    rewrite (Z.mod_small (7 * k) 32) by lia.
    rewrite Z.shiftl_mul_pow2 by lia.
    rewrite (toInt32_small (g * 2 ^ (7 * k))) by nia.
    rewrite lor_disjoint by lia.
    apply toInt32_small. nia.
Qed.

(** The loop of [readVarint] sums the groups it reads, as long as the sum is
    below 2^31. *)
Lemma readVarint_loop_groups_int32 (buffer : Buffer) (offset : Z) (n : nat) :
  forall size value,
    0 <= size ->
    0 <= value < 2 ^ (7 * size) ->
    value + 2 ^ (7 * size)
            * groups buffer (offset + size)
                (Z.to_nat (Z.min (getVarintSize_loop n buffer offset size - size + 1)
                                 (Z.of_nat n)))
    < 2 ^ 31 ->
    readVarint_loop n buffer offset size value
    = value + 2 ^ (7 * size)
              * groups buffer (offset + size)
                  (Z.to_nat (Z.min (getVarintSize_loop n buffer offset size - size + 1)
                                   (Z.of_nat n))).
Proof.
  induction n as [|n IH]; intros size value Hsize Hv Hsum.
  - cbn [readVarint_loop getVarintSize_loop].
    replace (Z.to_nat (Z.min (size - size + 1) (Z.of_nat 0))) with 0%nat by lia.
    cbn [groups]. lia.
  - cbn -[Z.of_nat groups Z.pow Z.mul Z.min] in *.
    rewrite js_and_128 in *. rewrite js_and_127.
    fold (byte_at buffer (offset + size)) in *.
    pose proof (getVarintSize_loop_spec n buffer offset (size + 1)) as (Hle & _ & _).
    assert (Hg : 0 <= byte_at buffer (offset + size) mod 128 < 128)
      by (apply Z.mod_pos_bound; lia).
    assert (H0 : 0 < 2 ^ (7 * size)) by (apply Z.pow_pos_nonneg; lia).
    destruct (Z.ltb_spec (byte_at buffer (offset + size)) 128) as [Hlt|Hge];
      cbn -[Z.of_nat groups Z.pow Z.mul Z.min] in *.
    + replace (Z.to_nat (Z.min (size - size + 1) (Z.of_nat (S n)))) with 1%nat in *
        by lia.
      cbn [groups] in *.
      rewrite js_or_group_int32 by lia. lia.
    + set (r := getVarintSize_loop n buffer offset (size + 1)) in *.
      replace (Z.to_nat (Z.min (r - size + 1) (Z.of_nat (S n))))
        with (S (Z.to_nat (Z.min (r - (size + 1) + 1) (Z.of_nat n)))) in * by lia.
      cbn [groups] in *.
      replace (offset + size + 1) with (offset + (size + 1)) in * by lia.
      set (rest := groups buffer (offset + (size + 1))
                     (Z.to_nat (Z.min (r - (size + 1) + 1) (Z.of_nat n)))) in *.
      assert (Hrest : 0 <= rest) by apply groups_nonneg.
      assert (Hpow : 2 ^ (7 * (size + 1)) = 128 * 2 ^ (7 * size)).
      { replace (7 * (size + 1)) with (7 * size + 7) by lia.
        rewrite Z.pow_add_r by lia. lia. }
      rewrite js_or_group_int32 by nia.
      rewrite IH; fold r; fold rest; rewrite ?Hpow; [lia | lia | nia | nia].
Qed.




(** ** Byte strings inside a buffer *)

Lemma blen_app (a b : Buffer) : blen (a ++ b) = blen a + blen b.
Proof. unfold blen. rewrite length_app. lia. Qed.

Lemma blen_nonneg (b : Buffer) : 0 <= blen b.
Proof. unfold blen. lia. Qed.

(** The bytes of [bs], found in place inside a buffer. *)
Lemma buf_get_middle (pre bs post : Buffer) (i : Z) :
  0 <= i < blen bs ->
  buf_get (pre ++ bs ++ post) (blen pre + i) = nth_error bs (Z.to_nat i).
Proof.
  intros Hi. unfold buf_get, blen in *.
  destruct (Z.ltb_spec (Z.of_nat (length pre) + i) 0); [lia|].
  replace (Z.to_nat (Z.of_nat (length pre) + i)) with (length pre + Z.to_nat i)%nat by lia.
  rewrite nth_error_app2 by lia.
  replace (length pre + Z.to_nat i - length pre)%nat with (Z.to_nat i) by lia.
  apply nth_error_app1. lia.
Qed.

Lemma byte_at_middle (pre bs post : Buffer) (i : Z) :
  0 <= i < blen bs ->
  byte_at (pre ++ bs ++ post) (blen pre + i)
  = match nth_error bs (Z.to_nat i) with Some b => byteZ b | None => 0 end.
Proof. intros Hi. unfold byte_at. now rewrite buf_get_middle. Qed.

Lemma buf_slice_middle (pre bs post : Buffer) :
  buf_slice (pre ++ bs ++ post) (blen pre) (blen pre + blen bs) = bs.
Proof.
  unfold buf_slice, slice_index. rewrite !blen_app.
  pose proof (blen_nonneg pre). pose proof (blen_nonneg bs).
  pose proof (blen_nonneg post).
  destruct (Z.ltb_spec (blen pre) 0); [lia|].
  destruct (Z.ltb_spec (blen pre + blen bs) 0); [lia|].
  rewrite !Z.min_l by lia.
  replace (blen pre + blen bs - blen pre) with (blen bs) by lia.
  unfold blen. rewrite !Nat2Z.id.
  rewrite skipn_app, skipn_all, Nat.sub_diag. change (drop 0 (bs ++ post)) with (bs ++ post). cbn [app].
  rewrite firstn_app, firstn_all, Nat.sub_diag. cbn [firstn]. apply app_nil_r.
Qed.

(** ** Varint byte strings *)

Lemma varint_bytes_nonempty (bs : list byte) : varint_bytes bs = true -> bs <> [].
Proof. destruct bs; [discriminate | discriminate]. Qed.

Lemma getVarintSize_loop_bytes (buffer : Buffer) (offset : Z) (bs : list byte) :
  forall n size,
    varint_bytes bs = true ->
    (length bs <= n)%nat ->
    (forall i, 0 <= i < blen bs ->
               byte_at buffer (offset + size + i)
               = match nth_error bs (Z.to_nat i) with Some b => byteZ b | None => 0 end) ->
    getVarintSize_loop n buffer offset size = size + blen bs - 1.
Proof.
  induction bs as [|b bs IH]; intros n size Hv Hn Hat; [discriminate|].
  destruct n as [|n]; [cbn in Hn; lia|].
  cbn [getVarintSize_loop]. rewrite js_and_128.
  fold (byte_at buffer (offset + size)).
  assert (Hb : byte_at buffer (offset + size) = byteZ b).
  { specialize (Hat 0). rewrite Z.add_0_r in Hat. apply Hat.
    unfold blen. cbn [length]. lia. }
  rewrite Hb. destruct bs as [|b' bs].
  - cbn in Hv. rewrite Hv. cbn. unfold blen. cbn. lia.
  - cbn [varint_bytes] in Hv. apply andb_prop in Hv as [Hc Hv].
    apply Z.leb_le in Hc.
    destruct (Z.ltb_spec (byteZ b) 128) as [|_]; [lia|]. cbn [negb].
    rewrite (IH n (size + 1)); [ unfold blen; cbn [length]; lia | assumption | cbn [length] in *; lia | ].
    intros i Hi.
    replace (offset + (size + 1) + i) with (offset + size + (i + 1)) by lia.
    rewrite Hat by (unfold blen in *; cbn [length] in *; lia).
    replace (Z.to_nat (i + 1)) with (S (Z.to_nat i)) by lia. reflexivity.
Qed.

Lemma groups_bytes (buffer : Buffer) (bs : list byte) :
  forall offset,
    (forall i, 0 <= i < blen bs ->
               byte_at buffer (offset + i)
               = match nth_error bs (Z.to_nat i) with Some b => byteZ b | None => 0 end) ->
    groups buffer offset (length bs) = varint_value bs.
Proof.
  induction bs as [|b bs IH]; intros offset Hat; [reflexivity|].
  cbn [length groups varint_value].
  rewrite <- (Z.add_0_r offset) at 1. rewrite Hat by (unfold blen; cbn [length]; lia).
  cbn [Z.to_nat nth_error]. f_equal. f_equal. apply IH.
  intros i Hi. replace (offset + 1 + i) with (offset + (i + 1)) by lia.
  rewrite Hat by (unfold blen in *; cbn [length] in *; lia).
  replace (Z.to_nat (i + 1)) with (S (Z.to_nat i)) by lia. reflexivity.
Qed.

(** A varint byte string of at most four bytes, read in place. *)
Lemma readVarint_bytes (pre bs post : Buffer) :
  varint_bytes bs = true -> (length bs <= 4)%nat ->
  readVarint (pre ++ bs ++ post) (blen pre) = varint_value bs
  /\ getVarintSize (pre ++ bs ++ post) (blen pre) = blen bs.
Proof.
  intros Hv Hlen.
  assert (Hat : forall i, 0 <= i < blen bs ->
            byte_at (pre ++ bs ++ post) (blen pre + 0 + i)
            = match nth_error bs (Z.to_nat i) with Some b => byteZ b | None => 0 end).
  { intros i Hi. rewrite Z.add_0_r. now apply byte_at_middle. }
  pose proof (getVarintSize_loop_bytes _ _ _ 8%nat 0 Hv ltac:(lia) Hat) as Hsize.
  assert (Hpos : 1 <= blen bs <= 4).
  { unfold blen. destruct bs; [discriminate|]. cbn [length] in *. lia. }
  split.
  - unfold readVarint.
    rewrite readVarint_loop_groups;
      [| lia | lia | change (Z.of_nat 8) with 8; lia | change (2 ^ (7 * 0)) with 1; lia ].
    rewrite Hsize, Z.add_0_r. change (2 ^ (7 * 0)) with 1.
    replace (Z.to_nat (0 + blen bs - 1 - 0 + 1)) with (length bs) by (unfold blen; lia).
    rewrite groups_bytes; [lia|].
    intros i Hi. rewrite <- (Hat i Hi). f_equal. lia.
  - unfold getVarintSize. rewrite Hsize. lia.
Qed.

(** A varint byte string of at most eight bytes with a value below 2^31,
    read in place. *)
Lemma readVarint_bytes_int32 (pre bs post : Buffer) :
  varint_bytes bs = true -> (length bs <= 8)%nat -> varint_value bs < 2 ^ 31 ->
  readVarint (pre ++ bs ++ post) (blen pre) = varint_value bs
  /\ getVarintSize (pre ++ bs ++ post) (blen pre) = blen bs.
Proof.
  intros Hv Hlen Hvalue.
  assert (Hat : forall i, 0 <= i < blen bs ->
            byte_at (pre ++ bs ++ post) (blen pre + 0 + i)
            = match nth_error bs (Z.to_nat i) with Some b => byteZ b | None => 0 end).
  { intros i Hi. rewrite Z.add_0_r. now apply byte_at_middle. }
  pose proof (getVarintSize_loop_bytes _ _ _ 8%nat 0 Hv ltac:(lia) Hat) as Hsize.
  assert (Hpos : 1 <= blen bs <= 8).
  { unfold blen. destruct bs; [discriminate|]. cbn [length] in *. lia. }
  assert (Hgroups : groups (pre ++ bs ++ post) (blen pre) (length bs)
                    = varint_value bs).
  { apply groups_bytes. intros i Hi. rewrite <- (Hat i Hi). f_equal. lia. }
  split.
  - unfold readVarint.
    pose proof (readVarint_loop_groups_int32 (pre ++ bs ++ post) (blen pre)
                  8 0 0) as Hread.
    rewrite Hsize in Hread. change (2 ^ (7 * 0)) with 1 in Hread.
    change (Z.of_nat 8) with 8 in Hread.
    replace (Z.to_nat (Z.min (0 + blen bs - 1 - 0 + 1) 8)) with (length bs) in Hread
      by (unfold blen in *; lia).
    rewrite Z.add_0_r, Z.add_0_l, Z.mul_1_l, Hgroups in Hread.
    apply Hread; [lia | lia | exact Hvalue].
  - unfold getVarintSize. rewrite Hsize. lia.
Qed.

(** ** Insertion-ordered maps *)

Section JsMapFacts.
Context {K V : Type} `{EqDecision K}.

Lemma Map_get_set_eq (m : list (K * V)) (k : K) (v : V) :
  Map_get (Map_set m k v) k = Some v.
Proof.
  induction m as [|[k' v'] m IH]; cbn.
  - destruct (decide (k = k)); congruence.
  - destruct (decide (k' = k)) as [->|Hne]; cbn.
    + destruct (decide (k = k)); congruence.
    + destruct (decide (k' = k)); [contradiction | assumption].
Qed.

Lemma Map_get_set_ne (m : list (K * V)) (k k' : K) (v : V) :
  k <> k' -> Map_get (Map_set m k v) k' = Map_get m k'.
Proof.
  intros Hne. induction m as [|[k0 v0] m IH]; cbn.
  - destruct (decide (k = k')); [contradiction | reflexivity].
  - destruct (decide (k0 = k)) as [->|Hne0]; cbn.
    + destruct (decide (k = k')); [contradiction | reflexivity].
    + destruct (decide (k0 = k')); [reflexivity | assumption].
Qed.

Lemma Map_set_set (m : list (K * V)) (k : K) (v w : V) :
  Map_set (Map_set m k v) k w = Map_set m k w.
Proof.
  induction m as [|[k' v'] m IH]; cbn.
  - destruct (decide (k = k)); congruence.
  - destruct (decide (k' = k)) as [->|Hne]; cbn.
    + destruct (decide (k = k)); congruence.
    + destruct (decide (k' = k)); [contradiction | now rewrite IH].
Qed.
End JsMapFacts.

(** ** The cell layout *)

Lemma record_row_created (changes : Changes) (tableName : string) (rowId : Z)
    (rowChanges : row) :
  let changes' :=
    if negb (Map_has changes tableName) then Map_set changes tableName []
    else changes in
  Map_set changes' tableName
          (Map_set (default [] (Map_get changes' tableName)) rowId (Some rowChanges))
  = record_row changes tableName rowId rowChanges.
Proof.
  unfold record_row, Map_has. cbn zeta.
  destruct (Map_get changes tableName) as [rows|] eqn:Hget; cbn [negb].
  - rewrite Hget. reflexivity.
  - rewrite Map_get_set_eq, Map_set_set. reflexivity.
Qed.

(** The cell layout: the rowid varint, the payload-size varint, the
    payload. *)
Lemma processCell_layout (pre rowid size payload post : Buffer) :
  varint_bytes rowid = true -> (length rowid <= 8)%nat ->
  varint_value rowid < 2 ^ 31 ->
  varint_bytes size = true -> (length size <= 8)%nat ->
  varint_value size = blen payload -> blen payload < 2 ^ 31 ->
  readVarint (pre ++ cell_bytes rowid size payload ++ post) (blen pre)
  = varint_value rowid
  /\ readVarint (pre ++ cell_bytes rowid size payload ++ post)
                (blen pre + getVarintSize (pre ++ cell_bytes rowid size payload ++ post)
                                          (blen pre))
     = blen payload
  /\ buf_slice (pre ++ cell_bytes rowid size payload ++ post)
               (blen pre
                + getVarintSize (pre ++ cell_bytes rowid size payload ++ post)
                                (blen pre)
                + getVarintSize (pre ++ cell_bytes rowid size payload ++ post)
                    (blen pre
                     + getVarintSize (pre ++ cell_bytes rowid size payload ++ post)
                                     (blen pre)))
               (blen pre
                + getVarintSize (pre ++ cell_bytes rowid size payload ++ post)
                                (blen pre)
                + getVarintSize (pre ++ cell_bytes rowid size payload ++ post)
                    (blen pre
                     + getVarintSize (pre ++ cell_bytes rowid size payload ++ post)
                                     (blen pre))
                + blen payload)
     = payload.
Proof.
  intros Hrowid Hlr Hvr Hsize Hls Hpayload Hvs.
  set (page := pre ++ cell_bytes rowid size payload ++ post).
  assert (Hpage1 : page = pre ++ rowid ++ (size ++ payload ++ post)).
  { subst page. unfold cell_bytes. now rewrite <- !app_assoc. }
  assert (Hpage2 : page = (pre ++ rowid) ++ size ++ (payload ++ post)).
  { rewrite Hpage1. now rewrite <- !app_assoc. }
  assert (Hpage3 : page = (pre ++ rowid ++ size) ++ payload ++ post).
  { rewrite Hpage1. now rewrite <- !app_assoc. }
  destruct (readVarint_bytes_int32 pre rowid (size ++ payload ++ post)
              Hrowid Hlr Hvr) as [Hv1 Hn1].
  destruct (readVarint_bytes_int32 (pre ++ rowid) size (payload ++ post)
              Hsize Hls ltac:(now rewrite Hpayload)) as [Hv2 Hn2].
  rewrite <- Hpage1 in Hv1, Hn1. rewrite <- Hpage2 in Hv2, Hn2.
  rewrite blen_app in Hv2, Hn2.
  rewrite Hn1, Hn2, Hv1, Hv2. split; [reflexivity|]. split; [assumption|].
  replace (blen pre + blen rowid + blen size)
    with (blen (pre ++ rowid ++ size)) by (rewrite !blen_app; lia).
  rewrite Hpage3 at 1. apply buf_slice_middle.
Qed.

(** X23: [processWALFrame] reads a cell as its rowid varint first, its
    payload-size varint second, and then that many payload bytes, which
    [parseRowData] decodes into the row it records for the rowid, the
    table's map of changes created when missing; this for a rowid and a
    payload size written as varints of at most eight bytes with values
    below 2^31, a cell pointer that points at the cell, and a page that
    holds the whole payload. *)
Theorem processCell_rowid_size_payload
    (this : LiveSQLite) (tableName : string)
    (pre rowid size payload post : Buffer) (cellPointerOffset : Z)
    (changes : Changes) :
  varint_bytes rowid = true -> (length rowid <= 8)%nat ->
  varint_value rowid < 2 ^ 31 ->
  varint_bytes size = true -> (length size <= 8)%nat ->
  varint_value size = blen payload -> blen payload < 2 ^ 31 ->
  readUInt16BE (pre ++ cell_bytes rowid size payload ++ post) cellPointerOffset
  = Ok (blen pre) ->
  processCell this tableName (pre ++ cell_bytes rowid size payload ++ post)
              cellPointerOffset changes
  = (let* rowChanges := parseRowData (tableInfo this) tableName payload in
     Ok (record_row changes tableName (varint_value rowid) rowChanges)).
Proof.
  intros Hrowid Hlr Hvr Hsize Hls Hpayload Hvs Hptr.
  destruct (processCell_layout pre rowid size payload post
              Hrowid Hlr Hvr Hsize Hls Hpayload Hvs)
    as (Hid & Hlen & Hslice).
  unfold processCell. rewrite Hptr. cbn [rbind].
  rewrite Hid, Hlen, Hslice.
  destruct (parseRowData (tableInfo this) tableName payload) as [rowChanges|e];
    cbn [rbind]; [|reflexivity].
  f_equal. apply record_row_created.
Qed.

(** ** The frame layout *)

Lemma byteZ_byte_of_Z (z : Z) : 0 <= z < 256 -> byteZ (byte_of_Z z) = z.
Proof.
  intros Hz. unfold byteZ, byte_of_Z.
  destruct (Byte.of_N (Z.to_N z)) as [b|] eqn:Hb; cbn.
  - apply Byte.to_of_N in Hb. rewrite Hb. lia.
  - apply Byte.of_N_None_iff in Hb. lia.
Qed.

Lemma length_le32 (z : Z) : blen (le32 z) = 4.
Proof. reflexivity. Qed.

Lemma readUInt32LE_le32 (pre post : Buffer) (z : Z) :
  0 <= z < 4294967296 ->
  readUInt32LE (pre ++ le32 z ++ post) (blen pre) = Ok z.
Proof.
  intros Hz. unfold readUInt32LE.
  pose proof (blen_nonneg pre). pose proof (blen_nonneg post).
  rewrite !blen_app, length_le32.
  destruct (Z.leb_spec 0 (blen pre)); [|lia].
  destruct (Z.leb_spec (blen pre + 4) (blen pre + (4 + blen post))); [|lia].
  cbn [andb].
  rewrite <- (Z.add_0_r (blen pre)) at 1.
  rewrite !buf_get_middle by (rewrite length_le32; lia).
  change (Z.to_nat 0) with 0%nat. change (Z.to_nat 1) with 1%nat.
  change (Z.to_nat 2) with 2%nat. change (Z.to_nat 3) with 3%nat.
  cbn [nth_error le32].
  rewrite !byteZ_byte_of_Z by (apply Z.mod_pos_bound; lia).
  f_equal.
  clear - Hz. Z.div_mod_to_equations. lia.
Qed.

Lemma frame_bytes_length (frame : Z * Buffer) :
  blen (frame_bytes frame) = 8 + blen (snd frame).
Proof. unfold frame_bytes. rewrite !blen_app, !length_le32. lia. Qed.

(** The loop of [parseWAL] over a buffer that holds frames in the layout
    of [frame_bytes] hands each frame's page number and page to
    [processWALFrame]. *)
Lemma parseWAL_loop_frames (this : LiveSQLite) (frames : list (Z * Buffer)) :
  forall (fuel : nat) (pre : Buffer) (changes : Changes),
    Forall (fun f => 0 <= fst f < 4294967296 /\ 8 + blen (snd f) < 4294967296) frames ->
    (length frames <= fuel)%nat ->
    parseWAL_loop fuel this (pre ++ flat_map frame_bytes frames) (blen pre) changes
    = Some (processFrames this frames changes).
Proof.
  induction frames as [|[pageNumber pageData] frames IH];
    intros fuel pre changes Hok Hfuel.
  - cbn [flat_map]. rewrite app_nil_r.
    destruct fuel; cbn [parseWAL_loop]; rewrite Z.ltb_irrefl; reflexivity.
  - inversion Hok as [|f fs [Hpn Hsz] Hok']; subst. cbn [fst snd] in *.
    destruct fuel as [|fuel]; [cbn in Hfuel; lia|].
    pose proof (blen_nonneg pre). pose proof (blen_nonneg pageData).
    cbn [flat_map parseWAL_loop processFrames].
    set (rest := flat_map frame_bytes frames).
    assert (Hlt : (blen pre <? blen (pre ++ frame_bytes (pageNumber, pageData) ++ rest)) = true).
    { apply Z.ltb_lt. rewrite !blen_app, frame_bytes_length.
      pose proof (blen_nonneg rest). cbn [snd]. lia. }
    rewrite Hlt. unfold frame_bytes at 1 2 3. cbn [fst snd].
    rewrite <- !app_assoc.
    rewrite readUInt32LE_le32 by lia.
    replace (blen pre + 4) with (blen (pre ++ le32 (8 + blen pageData)))
      by (rewrite blen_app, length_le32; lia).
    rewrite (app_assoc pre (le32 (8 + blen pageData))).
    rewrite readUInt32LE_le32 by lia.
    rewrite <- !app_assoc.
    replace (blen pre + 8)
      with (blen (pre ++ le32 (8 + blen pageData) ++ le32 pageNumber))
      by (rewrite !blen_app, !length_le32; lia).
    replace (blen pre + (8 + blen pageData))
      with (blen (pre ++ le32 (8 + blen pageData) ++ le32 pageNumber) + blen pageData)
      by (rewrite !blen_app, !length_le32; lia).
    replace (pre ++ le32 (8 + blen pageData) ++ le32 pageNumber ++ pageData ++ rest)
      with ((pre ++ le32 (8 + blen pageData) ++ le32 pageNumber) ++ pageData ++ rest)
      by (now rewrite <- !app_assoc).
    rewrite buf_slice_middle.
    destruct (processWALFrame this pageNumber pageData changes) as [changes'|e];
      cbn [rbind]; [|reflexivity].
    replace ((pre ++ le32 (8 + blen pageData) ++ le32 pageNumber) ++ pageData ++ rest)
      with ((pre ++ frame_bytes (pageNumber, pageData)) ++ rest)
      by (unfold frame_bytes; cbn [fst snd]; now rewrite <- !app_assoc).
    replace (blen (pre ++ le32 (8 + blen pageData) ++ le32 pageNumber) + blen pageData)
      with (blen (pre ++ frame_bytes (pageNumber, pageData)))
      by (rewrite !blen_app, frame_bytes_length, !length_le32; cbn [snd]; lia).
    rewrite (app_assoc pre). subst rest.
    apply IH; [assumption | cbn [length] in Hfuel; lia].
Qed.

Lemma flat_map_frames_length (frames : list (Z * Buffer)) :
  (length frames <= length (flat_map frame_bytes frames))%nat.
Proof.
  induction frames as [|f frames IH]; [reflexivity|].
  cbn [flat_map length]. rewrite length_app.
  pose proof (frame_bytes_length f) as Hf. pose proof (blen_nonneg (snd f)).
  unfold blen in *. lia.
Qed.

(** X22: [parseWAL] reads its byte range as a sequence of length-prefixed
    frames.  Each frame is a 32-bit little-endian frame length that counts
    the whole frame, a 32-bit little-endian page number, and the page bytes
    that fill the rest of the frame; for page numbers and frame lengths
    below 2^32, each frame's page number and page bytes go to
    [processWALFrame], in order, and the changes they leave are applied; a
    frame that fails makes the whole pass fail with [WAL_PARSE_ERROR]. *)
Theorem parseWAL_frames (this : LiveSQLite) (frames : list (Z * Buffer)) :
  Forall (fun f => 0 <= fst f < 4294967296 /\ 8 + blen (snd f) < 4294967296) frames ->
  parseWAL this (flat_map frame_bytes frames)
  = Some (match processFrames this frames [] with
          | Ok changes => Ok (applyChanges changes this)
          | Throw error => Throw (LiveSQLiteError WAL_PARSE_ERROR error)
          end).
Proof.
  intros Hok. unfold parseWAL.
  pose proof (parseWAL_loop_frames this frames
                (length (flat_map frame_bytes frames)) [] [] Hok
                (flat_map_frames_length frames)) as Hloop.
  cbn [app] in Hloop. change (blen []) with 0 in Hloop. rewrite Hloop.
  destruct (processFrames this frames []); reflexivity.
Qed.

(** ** [parseWAL] ends *)

Lemma readUInt32LE_Ok (b : Buffer) (offset z : Z) :
  readUInt32LE b offset = Ok z -> 0 <= offset /\ offset + 4 <= blen b /\ 0 <= z.
Proof.
  unfold readUInt32LE.
  destruct (Z.leb_spec 0 offset); [|discriminate].
  destruct (Z.leb_spec (offset + 4) (blen b)); [|discriminate]. cbn [andb].
  destruct (buf_get b offset) as [b0|]; [|discriminate].
  destruct (buf_get b (offset + 1)) as [b1|]; [|discriminate].
  destruct (buf_get b (offset + 2)) as [b2|]; [|discriminate].
  destruct (buf_get b (offset + 3)) as [b3|]; [|discriminate].
  intros [= <-].
  pose proof (byteZ_range b0). pose proof (byteZ_range b1).
  pose proof (byteZ_range b2). pose proof (byteZ_range b3). lia.
Qed.

Lemma buf_slice_length (b : Buffer) (start stop : Z) :
  0 <= start -> 0 <= stop ->
  blen (buf_slice b start stop)
  = Z.max 0 (Z.min stop (blen b) - Z.min start (blen b)).
Proof.
  intros Hs He. unfold buf_slice, slice_index.
  destruct (Z.ltb_spec start 0); [lia|]. destruct (Z.ltb_spec stop 0); [lia|].
  unfold blen. rewrite length_take, length_drop. lia.
Qed.

Lemma processWALFrame_Ok_nonempty (this : LiveSQLite) (pageNumber : Z)
    (pageData : Buffer) (changes changes' : Changes) :
  processWALFrame this pageNumber pageData changes = Ok changes' ->
  0 < blen pageData.
Proof.
  unfold processWALFrame, readUInt8.
  destruct (Z.leb_spec (0 + 1) (blen pageData)); [lia|].
  cbn [Z.leb andb rbind]. discriminate.
Qed.

Lemma parseWAL_loop_ends (this : LiveSQLite) (buffer : Buffer) (fuel : nat) :
  forall offset changes,
    0 <= offset -> blen buffer - offset <= Z.of_nat fuel ->
    is_Some (parseWAL_loop fuel this buffer offset changes).
Proof.
  induction fuel as [|fuel IH]; intros offset changes Hoff Hfuel.
  - cbn [parseWAL_loop]. destruct (Z.ltb_spec offset (blen buffer)); [lia|]. eauto.
  - cbn [parseWAL_loop]. destruct (Z.ltb_spec offset (blen buffer)); [|eauto].
    destruct (readUInt32LE buffer offset) as [frameSize|e] eqn:Hsize; [|eauto].
    destruct (readUInt32LE buffer (offset + 4)) as [pageNumber|e] eqn:Hpn; [|eauto].
    destruct (processWALFrame this pageNumber _ changes) as [changes'|e] eqn:Hframe;
      [|eauto].
    apply readUInt32LE_Ok in Hsize as (_ & _ & Hsize).
    apply readUInt32LE_Ok in Hpn as (_ & Hpn & _).
    apply processWALFrame_Ok_nonempty in Hframe.
    rewrite buf_slice_length in Hframe by lia.
    apply IH; lia.
Qed.

(** [parseWAL] returns on every input: a frame that does not throw is
    longer than its eight-byte prefix, so the offset grows. *)
Lemma parseWAL_ends (this : LiveSQLite) (buffer : Buffer) :
  is_Some (parseWAL this buffer).
Proof.
  unfold parseWAL.
  destruct (parseWAL_loop_ends this buffer (length buffer) 0 [] ltac:(lia)
              ltac:(unfold blen; lia)) as [r Hr].
  rewrite Hr. destruct r; eauto.
Qed.

(** An instance of [parseWAL_frames]: one frame for the root page of
    [players] with the cell of the player 11. *)
Lemma parseWAL_frames_witness :
  parseWAL (watching_players (players [])) (players_wal [player_cell 11 "Bob"])
  = Some (Ok (applyChanges [("players", [(11, Some (player 11 "Bob"))])]
                           (watching_players (players [])))).
Proof.
  apply (parseWAL_frames (watching_players (players []))
                         [(2, leaf_page [player_cell 11 "Bob"])]).
  constructor; [|constructor]. vm_compute. split; [split|]; congruence.
Defined.

(** C3 (the code at the failing input): a byte range that holds one frame
    in the layout of SQLite's write-ahead log, a 24-byte header with the
    page number 2 and then the 4096-byte page with the cell of the player
    11, carries that page and the row with it; [parseWAL] reads the page
    number at the head of the frame as a frame length, never uses the page
    size, and records no change. *)
Theorem parseWAL_not_the_spec_frames :
  frames_spec (length sqlite_wal) (pageSize (watching_players (players [])))
              sqlite_wal
  = [(2, bob_page)]
  /\ processFrames (watching_players (players [])) [(2, bob_page)] []
     = Ok [("players", [(11, Some (player 11 "Bob"))])]
  /\ parseWAL_loop (length sqlite_wal) (watching_players (players []))
                   sqlite_wal 0 []
     = Some (Ok [])
  /\ parseWAL (watching_players (players [])) sqlite_wal
     = Some (Ok (watching_players (players []))).
Proof. evaluate. Qed.

(** An instance of [processCell_rowid_size_payload]: the cell of the player
    11 on a leaf page of [players]. *)
Lemma processCell_rowid_size_payload_witness :
  processCell (watching_players (players [])) "players"
              (leaf_page [player_cell 11 "Bob"]) 8 []
  = Ok [("players", [(11, Some (player 11 "Bob"))])].
Proof.
  apply (processCell_rowid_size_payload
           (watching_players (players [])) "players"
           [x0d; x00; x00; x00; x01; x00; x00; x00; x00; x0a]
           [x0b] [x05] [x0b; x03; x42; x6f; x62] [] 8 []);
    [ reflexivity | cbn; lia | reflexivity | reflexivity | cbn; lia
    | reflexivity | reflexivity | reflexivity ].
Defined.

(** C5 (the code at the failing input): on a cell of a leaf table b-tree
    page as SQLite lays it out, payload size first (7), rowid second (11),
    with a record header in its payload, the code records the row under
    rowid 7 and reads the header bytes as the column values. *)
Theorem processCell_not_the_spec_order :
  cell_header_spec sqlite_cell_page 10 = (11, 7)
  /\ processCell (watching_players (players [])) "players" sqlite_cell_page 8 []
     = Ok [("players",
            [(7, Some [("id", Num 3);
                       ("name", Str (String "019"%char EmptyString))])])].
Proof. evaluate. Qed.

(** ** The rows of a table *)

Lemma cache_lookup_insert_eq (cache : RowCache) (rowId : Z) (r : row) :
  <[rowId := r]> cache !! rowId = Some r.
Proof. apply (lookup_insert_eq (by_rowid cache)). Qed.

Lemma cache_lookup_insert_ne (cache : RowCache) (rowId rowId' : Z) (r : row) :
  rowId <> rowId' -> <[rowId := r]> cache !! rowId' = cache !! rowId'.
Proof. apply (lookup_insert_ne (by_rowid cache)). Qed.

Lemma cache_lookup_delete_eq (cache : RowCache) (rowId : Z) :
  delete rowId cache !! rowId = None.
Proof. apply (lookup_delete_eq (by_rowid cache)). Qed.

Lemma cache_lookup_delete_ne (cache : RowCache) (rowId rowId' : Z) :
  rowId <> rowId' -> delete rowId cache !! rowId' = cache !! rowId'.
Proof. apply (lookup_delete_ne (by_rowid cache)). Qed.


(** ** The applicator: what each notification observes *)

Lemma observed_stores_app (es es' : list Event) :
  observed_stores (es ++ es') = observed_stores es ++ observed_stores es'.
Proof. unfold observed_stores. apply flat_map_app. Qed.

Lemma invalidate_emits_no_notification (id : nat) (d : Database)
    (q : LiveSQLiteSelect) :
  observed_stores (snd (invalidate id d q)) = []
  /\ notified (snd (invalidate id d q)) = [].
Proof.
  unfold invalidate, execute.
  destruct (active q); [|split; reflexivity].
  destruct (stmt q (values q) d); [|split; reflexivity].
  cbn [snd]. destruct (_ || _); split; reflexivity.
Qed.

Lemma notifyQuery_store (tableName : string) (oldRow newRow : option row)
    (rowDeleted : bool) (this : LiveSQLite) (entry : nat * LiveSQLiteSelect) :
  tableCache (notifyQuery tableName oldRow newRow rowDeleted this entry)
  = tableCache this
  /\ observed_stores
       (events (notifyQuery tableName oldRow newRow rowDeleted this entry))
     = observed_stores (events this).
Proof.
  destruct entry as [queryId query]. unfold notifyQuery.
  destruct (needsUpdate _ _ _ _ _); [|split; reflexivity].
  destruct (_ || _); [|split; reflexivity].
  pose proof (invalidate_emits_no_notification queryId
                (db (set_queuedUpdates (fun qs => {[queryId]} ∪ qs) this)) query)
    as [Hobs _].
  destruct (invalidate queryId _ query) as [query' emitted].
  cbn [snd] in Hobs. cbn [emit set_liveQueries set_queuedUpdates tableCache events].
  split; [reflexivity|]. rewrite observed_stores_app, Hobs. apply app_nil_r.
Qed.

Lemma notifyQuery_fold_store (tableName : string) (oldRow newRow : option row)
    (rowDeleted : bool) (entries : list (nat * LiveSQLiteSelect)) :
  forall this,
    tableCache (fold_left (notifyQuery tableName oldRow newRow rowDeleted) entries this)
    = tableCache this
    /\ observed_stores
         (events (fold_left (notifyQuery tableName oldRow newRow rowDeleted)
                            entries this))
       = observed_stores (events this).
Proof.
  induction entries as [|entry entries IH]; intros this; [split; reflexivity|].
  cbn [fold_left]. destruct (IH (notifyQuery tableName oldRow newRow rowDeleted this entry))
    as [-> ->].
  apply notifyQuery_store.
Qed.

(** A call of [notifyQueries] leaves the table cache as it is and runs its
    conditions in it. *)
Lemma notifyQueries_store (tableName : string) (oldRow newRow : option row)
    (rowDeleted : bool) (this : LiveSQLite) :
  tableCache (notifyQueries tableName oldRow newRow rowDeleted this)
  = tableCache this
  /\ observed_stores (events (notifyQueries tableName oldRow newRow rowDeleted this))
     = observed_stores (events this) ++ [tableCache this].
Proof.
  unfold notifyQueries.
  destruct (notifyQuery_fold_store tableName oldRow newRow rowDeleted
              (liveQueries (emit [Notified tableName oldRow newRow rowDeleted
                                           (tableCache this)] this))
              (emit [Notified tableName oldRow newRow rowDeleted
                              (tableCache this)] this)) as [-> ->].
  cbn [emit tableCache events]. split; [reflexivity|].
  now rewrite observed_stores_app.
Qed.

Lemma applyRow_store (tableName : string) (this : LiveSQLite)
    (rowId : Z) (newRow : option row) :
  is_Some (tableCache this !! tableName) ->
  tableCache (applyRow tableName this (rowId, newRow))
  = store_step (tableCache this) (tableName, rowId, newRow)
  /\ observed_stores (events (applyRow tableName this (rowId, newRow)))
     = observed_stores (events this)
       ++ (if effective (tableCache this) (tableName, rowId, newRow)
           then [store_step (tableCache this) (tableName, rowId, newRow)]
           else []).
Proof.
  intros [cache Hcache]. unfold applyRow, store_step, effective.
  rewrite Hcache. change (default ∅ (Some cache)) with cache.
  destruct (cache !! rowId) as [old|], newRow as [new|];
    rewrite ?app_nil_r; try (split; reflexivity);
    match goal with
    | |- context [notifyQueries ?t ?o ?n ?d ?s] =>
        destruct (notifyQueries_store t o n d s) as [-> ->]
    end; split; reflexivity.
Qed.

Lemma store_step_table (tc : gmap string RowCache) (tableName : string)
    (rowId : Z) (newRow : option row) (t : string) :
  is_Some (tc !! t) -> is_Some (store_step tc (tableName, rowId, newRow) !! t).
Proof.
  intros Ht. unfold store_step.
  destruct (tc !! tableName) as [cache|] eqn:Hcache; [|assumption].
  destruct (cache !! rowId), newRow; try assumption;
    (destruct (decide (tableName = t)) as [->|Hne];
     [ rewrite lookup_insert_eq; eauto | now rewrite lookup_insert_ne ]).
Qed.

Lemma fold_applyRow_store (tableName : string)
    (rowChanges : list (Z * option row)) :
  forall this,
    is_Some (tableCache this !! tableName) ->
    let ms := map (fun '(rowId, newRow) => (tableName, rowId, newRow)) rowChanges in
    tableCache (fold_left (applyRow tableName) rowChanges this)
    = fold_left store_step ms (tableCache this)
    /\ observed_stores (events (fold_left (applyRow tableName) rowChanges this))
       = observed_stores (events this) ++ stores_after (tableCache this) ms.
Proof.
  induction rowChanges as [|[rowId newRow] rowChanges IH]; intros this Hsome.
  - cbn. now rewrite app_nil_r.
  - cbn [map fold_left stores_after].
    destruct (applyRow_store tableName this rowId newRow Hsome) as [Hstore Hobs].
    destruct (IH (applyRow tableName this (rowId, newRow))) as [IHstore IHobs].
    { rewrite Hstore. now apply store_step_table. }
    cbn zeta in IHstore, IHobs.
    rewrite IHstore, IHobs, Hstore, Hobs. split; [reflexivity|].
    now rewrite <- app_assoc.
Qed.

Lemma store_step_absent (tc : gmap string RowCache) (tableName : string)
    (rowChanges : list (Z * option row)) :
  tc !! tableName = None ->
  let ms := map (fun '(rowId, newRow) => (tableName, rowId, newRow)) rowChanges in
  fold_left store_step ms tc = tc /\ stores_after tc ms = [].
Proof.
  intros Hnone. cbn zeta.
  induction rowChanges as [|[rowId newRow] rowChanges [IH1 IH2]]; [split; reflexivity|].
  cbn [map fold_left stores_after]. unfold store_step at 2 4, effective.
  rewrite Hnone. split; assumption.
Qed.

Lemma fold_left_store_step_app (ms ms' : list (string * Z * option row))
    (tc : gmap string RowCache) :
  stores_after tc (ms ++ ms')
  = stores_after tc ms ++ stores_after (fold_left store_step ms tc) ms'.
Proof.
  revert tc. induction ms as [|m ms IH]; intros tc; [reflexivity|].
  cbn [app stores_after fold_left]. rewrite IH. now rewrite <- app_assoc.
Qed.

(** The table cache after a batch: its mutations applied in order. *)
Lemma applyChanges_store (changes : Changes) (this : LiveSQLite) :
  tableCache (applyChanges changes this)
  = fold_left store_step (mutations changes) (tableCache this).
Proof.
  revert this. unfold applyChanges, mutations.
  induction changes as [|[tableName rowChanges] changes IH]; intros this;
    [reflexivity|].
  cbn [fold_left flat_map]. rewrite fold_left_app, IH. f_equal.
  unfold applyTable.
  destruct (tableCache this !! tableName) as [cache|] eqn:Hcache.
  - apply fold_applyRow_store. eauto.
  - symmetry. apply (store_step_absent _ _ _ Hcache).
Qed.

(** C7 (amended): [applyChanges] applies the mutations of a batch one at a
    time, in order, and calls [notifyQueries] for a mutation right after
    applying it: the conditions evaluated for a mutation run in the table
    cache that holds the mutations of the batch up to and including that
    one, and none of those after it. *)
Theorem applyChanges_notifies_after_each (changes : Changes) (this : LiveSQLite) :
  tableCache (applyChanges changes this)
  = fold_left store_step (mutations changes) (tableCache this)
  /\ observed_stores (events (applyChanges changes this))
     = observed_stores (events this)
       ++ stores_after (tableCache this) (mutations changes).
Proof.
  split; [apply applyChanges_store|].
  revert this. unfold applyChanges, mutations.
  induction changes as [|[tableName rowChanges] changes IH]; intros this.
  - cbn. now rewrite app_nil_r.
  - cbn [fold_left flat_map]. rewrite fold_left_store_step_app, IH.
    unfold applyTable.
    destruct (tableCache this !! tableName) as [cache|] eqn:Hcache.
    + destruct (fold_applyRow_store tableName rowChanges this) as [-> ->]; [eauto|].
      now rewrite <- app_assoc.
    + destruct (store_step_absent (tableCache this) tableName rowChanges Hcache)
        as [-> ->].
      reflexivity.
Qed.

(** C7 (as stated) fails: in a batch that inserts the players 11 and 12,
    the conditions for the insertion of 11 run in a table cache that does
    not hold 12 yet, while the cache after the batch holds it. *)
Lemma applyChanges_notifies_before_batch_end :
  parseWAL (watching_players (players []))
           (players_wal [player_cell 11 "Bob"; player_cell 12 "Carol"])
  = Some (Ok (applyChanges [("players", [(11, Some (player 11 "Bob"));
                                         (12, Some (player 12 "Carol"))])]
                           (watching_players (players []))))
  /\ (let this :=
        applyChanges [("players", [(11, Some (player 11 "Bob"));
                                   (12, Some (player 12 "Carol"))])]
                     (watching_players (players [])) in
      notified (events this)
      = [("players", None, Some (player 11 "Bob"), false);
         ("players", None, Some (player 12 "Carol"), false)]
      /\ observed_stores (events this)
         = [ {[ "players" := {[ 11 := player 11 "Bob" ]} ]};
             {[ "players" := {[ 11 := player 11 "Bob"; 12 := player 12 "Carol" ]} ]} ]
      /\ tableCache this
         = {[ "players" := {[ 11 := player 11 "Bob"; 12 := player 12 "Carol" ]} ]}).
Proof. evaluate. Qed.

(** ** The decoder records no tombstone *)

Lemma Forall_Map_set {K V : Type} `{EqDecision K} (P : K * V -> Prop)
    (m : list (K * V)) (k : K) (v : V) :
  Forall P m -> P (k, v) -> Forall P (Map_set m k v).
Proof.
  intros Hm Hkv. induction Hm as [|[k' v'] m Hk' Hm IH]; cbn.
  - constructor; [assumption | constructor].
  - destruct (decide (k' = k)); constructor; assumption.
Qed.

Lemma Forall_Map_get {K V : Type} `{EqDecision K} (P : K * V -> Prop)
    (m : list (K * V)) (k : K) (v : V) :
  Forall P m -> Map_get m k = Some v -> P (k, v).
Proof.
  intros Hm. induction Hm as [|[k' v'] m Hk' Hm IH]; cbn; [discriminate|].
  destruct (decide (k' = k)) as [->|]; [intros [= <-]; assumption | assumption].
Qed.

Lemma processCell_no_tombstone (this : LiveSQLite) (tableName : string)
    (pageData : Buffer) (cellPointerOffset : Z) (changes changes' : Changes) :
  no_tombstone changes ->
  processCell this tableName pageData cellPointerOffset changes = Ok changes' ->
  no_tombstone changes'.
Proof.
  intros Hno. unfold processCell.
  destruct (readUInt16BE pageData cellPointerOffset) as [cellOffset|];
    cbn [rbind]; [|discriminate].
  destruct (parseRowData _ _ _) as [rowChanges|]; cbn [rbind]; [|discriminate].
  intros [= <-]. rewrite record_row_created. unfold record_row, no_tombstone.
  apply Forall_Map_set; [assumption|]. cbn [snd].
  apply Forall_Map_set; [|cbn; eauto].
  destruct (Map_get changes tableName) as [rows|] eqn:Hget; [|constructor].
  apply (Forall_Map_get _ _ _ _ Hno Hget).
Qed.

Lemma processCells_no_tombstone (this : LiveSQLite) (tableName : string)
    (pageData : Buffer) (n : nat) :
  forall cellPointerOffset changes changes',
    no_tombstone changes ->
    processCells this tableName pageData n cellPointerOffset changes = Ok changes' ->
    no_tombstone changes'.
Proof.
  induction n as [|n IH]; intros cellPointerOffset changes changes' Hno; cbn.
  - now intros [= <-].
  - destruct (processCell _ _ _ _ _) as [changes1|] eqn:Hcell; cbn [rbind];
      [|discriminate].
    apply IH. eapply processCell_no_tombstone; eassumption.
Qed.

Lemma processWALFrame_no_tombstone (this : LiveSQLite) (pageNumber : Z)
    (pageData : Buffer) (changes changes' : Changes) :
  no_tombstone changes ->
  processWALFrame this pageNumber pageData changes = Ok changes' ->
  no_tombstone changes'.
Proof.
  intros Hno. unfold processWALFrame.
  destruct (readUInt8 pageData 0) as [pageType|]; cbn [rbind]; [|discriminate].
  destruct (pageType =? 13); [|now intros [= <-]].
  destruct (getTableInfo this pageNumber) as [tableName|]; [|now intros [= <-]].
  destruct (bool_decide _); [|now intros [= <-]].
  destruct (readUInt16BE pageData 3) as [cellCount|]; cbn [rbind]; [|discriminate].
  now apply processCells_no_tombstone.
Qed.

Lemma parseWAL_loop_no_tombstone (this : LiveSQLite) (buffer : Buffer) (fuel : nat) :
  forall offset changes changes',
    no_tombstone changes ->
    parseWAL_loop fuel this buffer offset changes = Some (Ok changes') ->
    no_tombstone changes'.
Proof.
  induction fuel as [|fuel IH]; intros offset changes changes' Hno;
    cbn [parseWAL_loop]; destruct (offset <? blen buffer);
    try discriminate; try (now intros [= <-]).
  destruct (readUInt32LE buffer offset) as [frameSize|]; [|discriminate].
  destruct (readUInt32LE buffer (offset + 4)) as [pageNumber|]; [|discriminate].
  destruct (processWALFrame this pageNumber _ changes) as [changes1|] eqn:Hframe;
    [|discriminate].
  apply IH. eapply processWALFrame_no_tombstone; eassumption.
Qed.

(** ** Without a tombstone nothing leaves the store *)

Lemma store_step_keeps (tc : gmap string RowCache) (tableName : string)
    (rowId : Z) (new : row) (t : string) (r : Z) :
  is_Some (tc !! t ≫= (.!! r)) ->
  is_Some (store_step tc (tableName, rowId, Some new) !! t ≫= (.!! r)).
Proof.
  intros Hin. unfold store_step.
  destruct (tc !! tableName) as [cache|] eqn:Hcache; [|assumption].
  assert (Hgoal : is_Some (<[tableName := <[rowId := new]> cache]> tc !! t ≫= (.!! r))).
  { destruct (decide (tableName = t)) as [->|Hne].
    - rewrite lookup_insert_eq. rewrite Hcache in Hin.
      cbn [mbind option_bind] in *.
      destruct (decide (rowId = r)) as [->|Hne];
        [ rewrite cache_lookup_insert_eq; eauto
        | now rewrite cache_lookup_insert_ne ].
    - now rewrite lookup_insert_ne. }
  destruct (cache !! rowId); assumption.
Qed.

Lemma fold_store_step_keeps (ms : list (string * Z * option row)) :
  forall tc t r,
    Forall (fun m => is_Some (snd m)) ms ->
    is_Some (tc !! t ≫= (.!! r)) ->
    is_Some (fold_left store_step ms tc !! t ≫= (.!! r)).
Proof.
  induction ms as [|[[tableName rowId] newRow] ms IH]; intros tc t r Hms Hin;
    [assumption|].
  inversion Hms as [|m ms' [new Hnew] Hms']; subst. cbn in Hnew. subst newRow.
  cbn [fold_left]. apply IH; [assumption|]. now apply store_step_keeps.
Qed.

Lemma no_tombstone_mutations (changes : Changes) :
  no_tombstone changes -> Forall (fun m => is_Some (snd m)) (mutations changes).
Proof.
  unfold no_tombstone, mutations. induction 1 as [|[tableName rows] changes Hrows _ IH];
    cbn [flat_map]; [constructor|].
  apply Forall_app. split; [|assumption].
  cbn [snd] in Hrows. induction Hrows as [|[rowId newRow] rows Hrow _ IHrows];
    cbn [map]; constructor; assumption.
Qed.

(** No byte range makes [parseWAL] remove a row from the table cache: the
    rows it decodes are objects, and [applyChanges] deletes on a falsy
    one. *)
Lemma parseWAL_removes_nothing (this this' : LiveSQLite) (buffer : Buffer)
    (t : string) (r : Z) :
  parseWAL this buffer = Some (Ok this') ->
  is_Some (tableCache this !! t ≫= (.!! r)) ->
  is_Some (tableCache this' !! t ≫= (.!! r)).
Proof.
  unfold parseWAL.
  destruct (parseWAL_loop _ this buffer 0 []) as [[changes|]|] eqn:Hloop;
    [|discriminate|discriminate].
  intros [= <-] Hin.
  rewrite applyChanges_store.
  apply fold_store_step_keeps; [|assumption].
  apply no_tombstone_mutations.
  eapply parseWAL_loop_no_tombstone; [|eassumption]. constructor.
Qed.

(** ** Without a tombstone no deletion is notified *)

Lemma invalidate_not_a_deletion (id : nat) (d : Database) (q : LiveSQLiteSelect) :
  Forall not_a_deletion (snd (invalidate id d q)).
Proof.
  unfold invalidate, execute.
  destruct (active q); [|constructor].
  destruct (stmt q (values q) d); cbn [snd].
  - destruct (_ || _); repeat constructor.
  - repeat constructor.
Qed.

Lemma notifyQuery_not_a_deletion (tableName : string) (oldRow newRow : option row)
    (rowDeleted : bool) (this : LiveSQLite) (entry : nat * LiveSQLiteSelect) :
  Forall not_a_deletion (events this) ->
  Forall not_a_deletion
         (events (notifyQuery tableName oldRow newRow rowDeleted this entry)).
Proof.
  intros Hev. destruct entry as [queryId query]. unfold notifyQuery.
  destruct (needsUpdate _ _ _ _ _); [|assumption].
  destruct (_ || _); [|assumption].
  pose proof (invalidate_not_a_deletion queryId
                (db (set_queuedUpdates (fun qs => {[queryId]} ∪ qs) this)) query)
    as Hinv.
  destruct (invalidate queryId _ query) as [query' emitted].
  cbn [emit set_liveQueries set_queuedUpdates events]. apply Forall_app. now split.
Qed.

Lemma notifyQueries_not_a_deletion (tableName : string) (oldRow newRow : option row)
    (this : LiveSQLite) :
  Forall not_a_deletion (events this) ->
  Forall not_a_deletion (events (notifyQueries tableName oldRow newRow false this)).
Proof.
  intros Hev. unfold notifyQueries.
  set (this' := emit _ this).
  assert (Hev' : Forall not_a_deletion (events this')).
  { subst this'. cbn [emit events]. apply Forall_app. split; [assumption|].
    repeat constructor. }
  clearbody this'. clear Hev.
  generalize (liveQueries this'). intros entries. revert this' Hev'.
  induction entries as [|entry entries IH]; intros this' Hev'; [assumption|].
  cbn [fold_left]. apply IH. now apply notifyQuery_not_a_deletion.
Qed.

Lemma applyChanges_not_a_deletion (changes : Changes) :
  forall this,
    no_tombstone changes ->
    Forall not_a_deletion (events this) ->
    Forall not_a_deletion (events (applyChanges changes this)).
Proof.
  unfold applyChanges, no_tombstone.
  induction changes as [|[tableName rowChanges] changes IH]; intros this Hno Hev;
    [assumption|].
  inversion Hno as [|entry entries Hrows Hno']; subst. cbn [snd] in Hrows.
  cbn [fold_left]. apply IH; [assumption|]. unfold applyTable.
  destruct (tableCache this !! tableName); [|assumption].
  clear - Hrows Hev. revert this Hev.
  induction rowChanges as [|[rowId newRow] rowChanges IHr]; intros this Hev;
    [assumption|].
  inversion Hrows as [|rc rcs [new Hnew] Hrows']; subst. cbn in Hnew. subst newRow.
  cbn [fold_left]. apply IHr; [assumption|]. unfold applyRow.
  destruct (_ !! rowId); now apply notifyQueries_not_a_deletion.
Qed.

(** No byte range makes [parseWAL] notify a deletion. *)
Lemma parseWAL_notifies_no_deletion (this this' : LiveSQLite) (buffer : Buffer) :
  parseWAL this buffer = Some (Ok this') ->
  Forall not_a_deletion (events this) ->
  Forall not_a_deletion (events this').
Proof.
  unfold parseWAL.
  destruct (parseWAL_loop _ this buffer 0 []) as [[changes|]|] eqn:Hloop;
    [|discriminate|discriminate].
  intros [= <-] Hev. apply applyChanges_not_a_deletion; [|assumption].
  eapply parseWAL_loop_no_tombstone; [|eassumption]. constructor.
Qed.

(** C1 (the code at the failing input): the players 11 and 12 are cached,
    12 has been deleted, and the byte range holds the leaf page of
    [players] with the cell of 11 alone.  [parseWAL] records one change,
    for 11; the table cache still holds 12 afterwards, and the one mutation
    notified is an update of 11, not a deletion. *)
Theorem parseWAL_infers_no_deletion :
  parseWAL after_delete_12 (players_wal [player_cell 11 "Alice"])
  = Some (Ok (applyChanges [("players", [(11, Some (player 11 "Alice"))])]
                           after_delete_12))
  /\ tableCache (applyChanges [("players", [(11, Some (player 11 "Alice"))])]
                              after_delete_12)
     = {[ "players" :=
            {[ 11 := player 11 "Alice";
               12 := [("rowid", Num 12); ("id", Num 12); ("name", Str "Carol")] ]} ]}
  /\ notified (events (applyChanges [("players", [(11, Some (player 11 "Alice"))])]
                                    after_delete_12))
     = [("players",
         Some [("rowid", Num 11); ("id", Num 11); ("name", Str "Alice")],
         Some (player 11 "Alice"), false)].
Proof. evaluate. Qed.

(** ** The queue of updates *)

Lemma emitted_by_app (id : nat) (es es' : list Event) :
  emitted_by id (es ++ es') = emitted_by id es ++ emitted_by id es'.
Proof. unfold emitted_by. apply List.filter_app. Qed.

Lemma stays_queued_refl (id : nat) (this : LiveSQLite) :
  checkConditionWhenQueued this = false -> id ∈ queuedUpdates this ->
  stays_queued id this this.
Proof. intros Hc Hq. repeat split; assumption. Qed.

Lemma stays_queued_trans (id : nat) (s1 s2 s3 : LiveSQLite) :
  stays_queued id s1 s2 -> stays_queued id s2 s3 -> stays_queued id s1 s3.
Proof.
  intros (_ & _ & Hq12 & He12) (Hc & Hq & Hq23 & He23).
  repeat split; [assumption | assumption | congruence | congruence].
Qed.

Lemma invalidate_emitted_by (id id' : nat) (d : Database) (q : LiveSQLiteSelect) :
  id' <> id -> emitted_by id (snd (invalidate id' d q)) = [].
Proof.
  intros Hne. unfold invalidate, execute.
  destruct (active q); [|reflexivity].
  destruct (stmt q (values q) d); cbn [snd].
  - destruct (_ || _); [|reflexivity]. cbn. now rewrite bool_decide_eq_false_2.
  - cbn. now rewrite bool_decide_eq_false_2.
Qed.

(** With [checkConditionWhenQueued] off, a query whose id is in
    [queuedUpdates] is passed over by [notifyQueries]; the other queries
    leave it as it is. *)
Lemma notifyQuery_stays_queued (id : nat) (tableName : string)
    (oldRow newRow : option row) (rowDeleted : bool) (this : LiveSQLite)
    (entry : nat * LiveSQLiteSelect) :
  checkConditionWhenQueued this = false -> id ∈ queuedUpdates this ->
  stays_queued id this (notifyQuery tableName oldRow newRow rowDeleted this entry).
Proof.
  intros Hc Hq. destruct entry as [queryId query]. unfold notifyQuery.
  destruct (needsUpdate _ _ _ _ _); [|now apply stays_queued_refl].
  rewrite Hc. cbn [orb].
  destruct (decide (queryId = id)) as [->|Hne].
  - rewrite bool_decide_eq_true_2 by assumption. now apply stays_queued_refl.
  - destruct (negb _); [|now apply stays_queued_refl].
    pose proof (invalidate_emitted_by id queryId
                  (db (set_queuedUpdates (fun qs => {[queryId]} ∪ qs) this))
                  query Hne) as Hemit.
    destruct (invalidate queryId _ query) as [query' emitted]. cbn [snd] in Hemit.
    unfold stays_queued.
    cbn [emit set_liveQueries set_queuedUpdates checkConditionWhenQueued
         queuedUpdates liveQueries events].
    split; [assumption|]. split; [set_solver|]. split.
    + now apply Map_get_set_ne.
    + rewrite emitted_by_app, Hemit. apply app_nil_r.
Qed.

Lemma notifyQueries_stays_queued (id : nat) (tableName : string)
    (oldRow newRow : option row) (rowDeleted : bool) (this : LiveSQLite) :
  checkConditionWhenQueued this = false -> id ∈ queuedUpdates this ->
  stays_queued id this (notifyQueries tableName oldRow newRow rowDeleted this).
Proof.
  intros Hc Hq. unfold notifyQueries.
  set (this' := emit _ this).
  assert (H0 : stays_queued id this this').
  { subst this'. unfold stays_queued.
    cbn [emit checkConditionWhenQueued queuedUpdates liveQueries events].
    repeat split; try assumption. rewrite emitted_by_app. apply app_nil_r. }
  clearbody this'. generalize (liveQueries this'). intros entries.
  revert this' H0. induction entries as [|entry entries IH]; intros this' H0;
    [assumption|].
  cbn [fold_left]. apply IH. eapply stays_queued_trans; [eassumption|].
  destruct H0 as (Hc' & Hq' & _). now apply notifyQuery_stays_queued.
Qed.

Lemma applyChanges_stays_queued (id : nat) (changes : Changes) :
  forall this,
    checkConditionWhenQueued this = false -> id ∈ queuedUpdates this ->
    stays_queued id this (applyChanges changes this).
Proof.
  unfold applyChanges.
  assert (Hrow : forall tableName this entry,
             checkConditionWhenQueued this = false -> id ∈ queuedUpdates this ->
             stays_queued id this (applyRow tableName this entry)).
  { intros tableName this [rowId newRow] Hc Hq. unfold applyRow.
    destruct (_ !! rowId), newRow; try (now apply stays_queued_refl);
      match goal with
      | |- context [notifyQueries ?t ?o ?n ?d ?s] =>
          apply (notifyQueries_stays_queued id t o n d s); assumption
      end. }
  assert (Hrows : forall tableName rowChanges this,
             checkConditionWhenQueued this = false -> id ∈ queuedUpdates this ->
             stays_queued id this (fold_left (applyRow tableName) rowChanges this)).
  { intros tableName rowChanges.
    induction rowChanges as [|entry rowChanges IH]; intros this Hc Hq;
      [now apply stays_queued_refl|].
    cbn [fold_left]. pose proof (Hrow tableName this entry Hc Hq) as Hstep.
    eapply stays_queued_trans; [eassumption|].
    destruct Hstep as (Hc' & Hq' & _). now apply IH. }
  induction changes as [|[tableName rowChanges] changes IH]; intros this Hc Hq;
    [now apply stays_queued_refl|].
  cbn [fold_left].
  assert (Hstep : stays_queued id this (applyTable this (tableName, rowChanges))).
  { unfold applyTable. destruct (tableCache this !! tableName);
      [now apply Hrows | now apply stays_queued_refl]. }
  eapply stays_queued_trans; [eassumption|].
  destruct Hstep as (Hc' & Hq' & _). now apply IH.
Qed.

(** With [checkConditionWhenQueued] off, a live query whose id is in
    [queuedUpdates] is in it after any byte range, and [parseWAL] has
    neither run it nor made it emit. *)
Lemma parseWAL_stays_queued (id : nat) (this this' : LiveSQLite) (buffer : Buffer) :
  checkConditionWhenQueued this = false -> id ∈ queuedUpdates this ->
  parseWAL this buffer = Some (Ok this') ->
  stays_queued id this this'.
Proof.
  intros Hc Hq. unfold parseWAL.
  destruct (parseWAL_loop _ this buffer 0 []) as [[changes|]|];
    [|discriminate|discriminate].
  intros [= <-]. now apply applyChanges_stays_queued.
Qed.

(** C2 (the code at the failing input): a live query on [players] whose
    trigger has no condition; the player 11 is renamed twice, a WAL change
    processed after each.  The first pass runs the query, which emits the
    change to Bob, and leaves its id in [queuedUpdates]; nothing takes it
    out, so the second pass notifies the mutation and runs nothing: the
    query has emitted nothing more and its last result still says Bob. *)
Theorem queuedUpdates_never_cleared :
  parseWAL (set_db (players [(11, player 11 "Bob")])
                   (watching_players (players [(11, player 11 "Alice")])))
           (players_wal [player_cell 11 "Bob"])
  = Some (Ok renamed_bob)
  /\ updates (events renamed_bob)
     = [(0%nat, {| added := [player 11 "Alice"]; changed := []; removed := [] |},
         [player 11 "Alice"]);
        (0%nat, {| added := []; changed := [player 11 "Bob"]; removed := [] |},
         [player 11 "Bob"])]
  /\ queuedUpdates renamed_bob = {[ 0%nat ]}
  /\ parseWAL (set_db (players [(11, player 11 "Carl")]) renamed_bob)
              (players_wal [player_cell 11 "Carl"])
     = Some (Ok renamed_carl)
  /\ notified (events renamed_carl)
     = [("players",
         Some [("rowid", Num 11); ("id", Num 11); ("name", Str "Alice")],
         Some (player 11 "Bob"), false);
        ("players", Some (player 11 "Bob"), Some (player 11 "Carl"), false)]
  /\ updates (events renamed_carl) = updates (events renamed_bob)
  /\ lastResult <$> Map_get (liveQueries renamed_carl) 0%nat
     = Some (Some [player 11 "Bob"])
  /\ queuedUpdates renamed_carl = {[ 0%nat ]}.
Proof. evaluate. Qed.

(** ** The diff *)

Lemma fold_left_collect {A : Type} (p : A -> bool) (l : list A) :
  forall acc,
    fold_left (fun acc x => if p x then acc ++ [x] else acc) l acc
    = acc ++ List.filter p l.
Proof.
  induction l as [|x l IH]; intros acc; cbn [fold_left List.filter].
  - now rewrite app_nil_r.
  - rewrite IH. destruct (p x); [now rewrite <- app_assoc | reflexivity].
Qed.

Lemma fold_left_collect2 {A : Type} (p q : A -> bool) (l : list A) :
  forall acc : list A * list A,
    fold_left (fun (acc : list A * list A) x =>
                 if p x then (fst acc ++ [x], snd acc)
                 else if q x then (fst acc, snd acc ++ [x]) else acc) l acc
    = (fst acc ++ List.filter p l,
       snd acc ++ List.filter (fun x => negb (p x) && q x) l).
Proof.
  induction l as [|x l IH]; intros [a c]; cbn [fold_left List.filter fst snd].
  - now rewrite !app_nil_r.
  - rewrite IH. destruct (p x); cbn [negb andb fst snd].
    + now rewrite <- app_assoc.
    + destruct (q x); cbn [fst snd]; [now rewrite <- app_assoc | reflexivity].
Qed.

Lemma map_with_index_row_only (keySelector : KeySelector) (l : list row) :
  (forall r i, keySelector r i = keySelector r None) ->
  map_with_index keySelector l = map (fun r => keySelector r None) l.
Proof.
  intros Hrow. unfold map_with_index.
  assert (H : forall (f : nat -> nat) (l : list row),
             imap (fun i x => keySelector x (Some (f i))) l
             = map (fun r => keySelector r None) l).
  { clear l. intros f l. revert f.
    induction l as [|r l IH]; intros f; cbn; [reflexivity|].
    rewrite Hrow. f_equal. apply (IH (f ∘ S)). }
  apply (H (fun i => i)).
Qed.

(** For a key selector that reads the row alone, the diff of an old and a
    new result is: added, the new rows whose key no old row has; changed,
    the new rows whose key an old row has and whose JSON text differs from
    that of the first old row with the key; removed, the old rows whose key
    no new row has; each in the order of its result. *)
Lemma diffResults_by_key (keySelector : KeySelector) (old new : list row) :
  (forall r i, keySelector r i = keySelector r None) ->
  let keys l := map (fun r => keySelector r None) l in
  diffResults keySelector (Some old) new
  = {| added := List.filter (fun r => negb (has_key (keys old) (keySelector r None))) new;
       changed :=
         List.filter (fun r => has_key (keys old) (keySelector r None)
                               && differs_from_old keySelector old r) new;
       removed := List.filter (fun r => negb (has_key (keys new) (keySelector r None))) old |}.
Proof.
  intros Hrow keys. unfold diffResults. cbn [default from_option].
  rewrite !map_with_index_row_only by assumption. fold (keys old) (keys new).
  change (id old) with old.
  rewrite (fold_left_collect
             (fun r => negb (has_key (keys new) (keySelector r None))) old []).
  pose proof (fold_left_collect2
                (fun r => negb (has_key (keys old) (keySelector r None)))
                (differs_from_old keySelector old) new ([], [])) as Hnew.
  cbn beta in Hnew.
  match goal with
  | |- context [fold_left ?f new ([], [])] =>
      change (fold_left f new ([], []))
        with (fold_left
                (fun (acc : list row * list row) x =>
                   if negb (has_key (keys old) (keySelector x None))
                   then (fst acc ++ [x], snd acc)
                   else if differs_from_old keySelector old x
                        then (fst acc, snd acc ++ [x]) else acc)
                new ([], []))
  end.
  rewrite Hnew. cbn [fst snd app]. f_equal.
  apply List.filter_ext. intros r. now rewrite negb_involutive.
Qed.

Lemma has_key_nil (k : key) : has_key [] k = false.
Proof. unfold has_key. apply bool_decide_eq_false_2, not_elem_of_nil. Qed.

(** Without an old result every new row is added, whatever the key
    selector. *)
Lemma diffResults_first (keySelector : KeySelector) (new : list row) :
  diffResults keySelector None new
  = {| added := new; changed := []; removed := [] |}.
Proof.
  unfold diffResults. cbn [default from_option fold_left].
  assert (H : forall acc : list row * list row,
             fold_left
               (fun (diff : list row * list row) row =>
                  if negb (has_key [] (keySelector row None))
                  then (fst diff ++ [row], snd diff)
                  else
                    if negb (bool_decide
                               (JSON_stringify (Obj row)
                                = match find (fun r => bool_decide
                                                (keySelector r None = keySelector row None)) []
                                  with
                                  | Some r => JSON_stringify (Obj r)
                                  | None => JSON_stringify Undefined
                                  end))
                    then (fst diff, snd diff ++ [row]) else diff)
               new acc
             = (fst acc ++ new, snd acc)).
  { induction new as [|r new IH]; intros [a c]; cbn [fold_left fst snd].
    - now rewrite app_nil_r.
    - rewrite has_key_nil. cbn [negb]. rewrite IH. cbn [fst snd].
      now rewrite <- app_assoc. }
  rewrite H. reflexivity.
Qed.

(** [execute] emits an update exactly when one of the three lists is not
    empty. *)
Lemma execute_emits_iff (id : nat) (d : Database) (q : LiveSQLiteSelect)
    (newResult : list row) :
  stmt q (values q) d = Ok newResult ->
  let diff := diffResults (keySelector q) (lastResult q) newResult in
  (added diff = [] /\ changed diff = [] /\ removed diff = []
   -> snd (execute id d q) = [])
  /\ (~ (added diff = [] /\ changed diff = [] /\ removed diff = [])
      -> snd (execute id d q) = [Update id diff newResult]).
Proof.
  intros Hstmt diff. unfold execute. rewrite Hstmt. fold diff. cbn [snd].
  destruct (added diff), (changed diff), (removed diff); cbn;
    split; intros H; try reflexivity;
    try (destruct H as (? & ? & ?); discriminate);
    exfalso; apply H; repeat split; reflexivity.
Qed.

(** C8 (the code at the failing input): with the [Index] key selector and
    a result that has not changed, the diff reports the one row as added
    and as removed, and an update is emitted.  Building the key sets,
    [map] passes the index; in the two loops the key selector gets the row
    alone, the index is [undefined], and so is the key. *)
Theorem diffResults_Index_sees_no_old_key :
  lastResult indexed_query = Some [player 11 "Alice"]
  /\ diffResults LiveSQLiteKeySelector.Index
                 (Some [player 11 "Alice"]) [player 11 "Alice"]
     = {| added := [player 11 "Alice"]; changed := [];
          removed := [player 11 "Alice"] |}
  /\ snd (execute 0 (players [(11, player 11 "Alice")]) indexed_query)
     = [Update 0 {| added := [player 11 "Alice"]; changed := [];
                    removed := [player 11 "Alice"] |}
               [player 11 "Alice"]].
Proof. evaluate. Qed.

(** ** The [Columns] key *)

(** C10: the [Columns] key of a row is the text of the selected values
    joined by a bar; a single value holding a bar gets the key of two
    values, and two rows of one result with different values in the key
    columns get one key, so that the diff takes the second for a change of
    the first.  The keys are all the diff compares to tell the rows apart:
    a new row is added when no old row has its key, changed when an old
    row has its key and the first such row has another JSON text, and an
    old row is removed when no new row has its key. *)
Theorem Columns_keys_collide :
  (forall columns r index,
      LiveSQLiteKeySelector.Columns columns r index
      = KStr (join "|" (map (fun col => element_text (obj_get r col)) columns)))
  /\ LiveSQLiteKeySelector.Columns ["a"] [("a", Str "a|b")] None
     = LiveSQLiteKeySelector.Columns ["a"; "b"] [("a", Str "a"); ("b", Str "b")] None
  /\ (exists columns r1 r2,
        map (obj_get r1) columns <> map (obj_get r2) columns
        /\ LiveSQLiteKeySelector.Columns columns r1 None
           = LiveSQLiteKeySelector.Columns columns r2 None
        /\ diffResults (LiveSQLiteKeySelector.Columns columns) (Some [r1]) [r2]
           = {| added := []; changed := [r2]; removed := [] |})
  /\ (forall columns old new,
        let key r := LiveSQLiteKeySelector.Columns columns r None in
        diffResults (LiveSQLiteKeySelector.Columns columns) (Some old) new
        = {| added := List.filter (fun r => negb (has_key (map key old) (key r))) new;
             changed :=
               List.filter
                 (fun r => has_key (map key old) (key r)
                           && differs_from_old
                                (LiveSQLiteKeySelector.Columns columns) old r) new;
             removed :=
               List.filter (fun r => negb (has_key (map key new) (key r))) old |}).
Proof.
  split; [|split; [|split]].
  - intros columns r index. unfold LiveSQLiteKeySelector.Columns, Array_join.
    now rewrite map_map.
  - reflexivity.
  - exists ["a"; "b"], [("a", Str "x|y"); ("b", Str "z")],
      [("a", Str "x"); ("b", Str "y|z")].
    split; [discriminate|]. split; vm_compute; reflexivity.
  - intros columns old new key.
    apply (diffResults_by_key (LiveSQLiteKeySelector.Columns columns) old new).
    intros r i. reflexivity.
Qed.

(** ** The column cache *)











(** ** JSON in TEXT columns *)

(** [parseValue] on a TEXT column: the parsed value of the text when it is
    JSON, the text itself when it is not. *)
Lemma parseValue_TEXT (data : Buffer) (offset : Z) :
  let text :=
    buf_toString data (offset + getVarintSize data offset)
                 (offset + getVarintSize data offset + readVarint data offset) in
  parseValue data offset "TEXT"
  = Ok (match JSON.parse text with Some v => v | None => Str text end).
Proof. unfold parseValue. cbn. destruct (JSON.parse _); reflexivity. Qed.

(** C9 (the code at the failing input): the account 1 has the profile
    text of a JSON object.  The row [cacheTable] loads and the rows the
    live query emits hold the text; the same row decoded from a WAL frame
    holds the parsed object, and that is what the table cache holds and
    what the trigger conditions get as the new row from then on. *)
Theorem JSON_parsed_on_the_WAL_path_only :
  tableCache watching_accounts
  = {[ "accounts" :=
         {[ 1 := [("rowid", Num 1); ("id", Num 1); ("profile", Str age_30)] ]} ]}
  /\ updates (events watching_accounts)
     = [(0%nat,
         {| added := [[("id", Num 1); ("profile", Str age_30)]];
            changed := []; removed := [] |},
         [[("id", Num 1); ("profile", Str age_30)]])]
  /\ parseWAL watching_accounts (frame_bytes (4, leaf_page [player_cell 1 age_30]))
     = Some (Ok (applyChanges
                   [("accounts",
                     [(1, Some [("id", Num 1);
                                ("profile", Obj [("age", Num 30)])])])]
                   watching_accounts))
  /\ tableCache
       (applyChanges
          [("accounts",
            [(1, Some [("id", Num 1); ("profile", Obj [("age", Num 30)])])])]
          watching_accounts)
     = {[ "accounts" :=
            {[ 1 := [("id", Num 1); ("profile", Obj [("age", Num 30)])] ]} ]}
  /\ notified
       (events
          (applyChanges
             [("accounts",
               [(1, Some [("id", Num 1); ("profile", Obj [("age", Num 30)])])])]
             watching_accounts))
     = [("accounts",
         Some [("rowid", Num 1); ("id", Num 1); ("profile", Str age_30)],
         Some [("id", Num 1); ("profile", Obj [("age", Num 30)])], false)].
Proof. evaluate. Qed.

(** * Further properties of the code *)

(** ** Identifiers *)

Lemma append_char_inj (s1 s2 : string) (c : ascii) :
  s1 +:+ String c EmptyString = s2 +:+ String c EmptyString -> s1 = s2.
Proof.
  revert s2. induction s1 as [|a s1 IH]; intros [|b s2]; cbn; intros H.
  - reflexivity.
  - injection H as _ H. destruct s2; discriminate.
  - injection H as _ H. destruct s1; discriminate.
  - injection H as -> H. f_equal. now apply IH.
Qed.

Lemma double_quotes_inj (s1 s2 : string) :
  double_quotes s1 = double_quotes s2 -> s1 = s2.
Proof.
  revert s2. induction s1 as [|a s1 IH]; intros [|b s2]; cbn [double_quotes].
  - reflexivity.
  - destruct (Ascii.eqb b dquote); discriminate.
  - destruct (Ascii.eqb a dquote); discriminate.
  - destruct (Ascii.eqb_spec a dquote) as [->|Ha],
             (Ascii.eqb_spec b dquote) as [->|Hb].
    + intros [= H]. f_equal. now apply IH.
    + intros [= <- H]. destruct (double_quotes s2); [discriminate|].
      injection H as <- _. contradiction.
    + intros [= -> H]. destruct (double_quotes s1); [discriminate|].
      injection H as -> _. contradiction.
    + intros [= -> H]. f_equal. now apply IH.
Qed.

(** X1: [escapeId] never gives two identifiers the same text, and its text
    is two characters and one per double quote longer than the
    identifier. *)
Theorem escapeId_injective :
  (forall s1 s2, escapeId s1 = escapeId s2 -> s1 = s2)
  /\ (forall s,
         String.length (escapeId s)
         = (2 + String.length s
            + length (List.filter (fun c => Ascii.eqb c dquote)
                                  (list_ascii_of_string s)))%nat).
Proof.
  split.
  - intros s1 s2 H. unfold escapeId in H. injection H as H.
    apply append_char_inj in H. now apply double_quotes_inj.
  - intros s. unfold escapeId. cbn [String.length].
    assert (Happ : forall a b, String.length (a +:+ b)
                               = (String.length a + String.length b)%nat).
    { intros a b. induction a as [|c a IH]; [reflexivity|].
      change (String c a +:+ b) with (String c (a +:+ b)).
      cbn [String.length]. now rewrite IH. }
    rewrite Happ. cbn [String.length].
    induction s as [|c s IH]; cbn [double_quotes String.length
                                    list_ascii_of_string List.filter]; [reflexivity|].
    destruct (Ascii.eqb c dquote); cbn [String.length length]; lia.
Qed.

(** ** The gate of [processWALChanges] *)

Lemma processWALChanges_gate_step (now : Z) (s : Scheduler) :
  let '(s', gate) := processWALChanges_gate now s in
  minInterval s' = minInterval s
  /\ match gate with
     | Passed => lastProcessTime s' = now
                 /\ minInterval s <= now - lastProcessTime s
     | _ => lastProcessTime s' = lastProcessTime s
     end.
Proof.
  unfold processWALChanges_gate.
  destruct (paused s); [split; reflexivity|].
  destruct (Z.ltb_spec (now - lastProcessTime s) (minInterval s)).
  - destruct (updateTimeout s); split; reflexivity.
  - cbn. split; [reflexivity|]. split; [reflexivity | assumption].
Qed.

(** X2: whatever the file changes, timer callbacks, pauses and resumes, and
    whatever the clock shows at each, two passes of [processWALChanges]
    that follow one another start at least [minInterval] apart, and the
    first at least [minInterval] after the last one before. *)
Theorem passes_are_spaced (es : list SchedulerEvent) (s : Scheduler) :
  spaced (minInterval s) (lastProcessTime s) (snd (scheduler_run s es)).
Proof.
  revert s. induction es as [|e es IH]; intros s; [exact I|].
  cbn [scheduler_run].
  assert (Hstep : let '(s', gate) := scheduler_step s e in
                  minInterval s' = minInterval s
                  /\ match gate with
                     | Passed =>
                         exists now,
                           match e with
                           | WalChanged t | TimerFired t | ResumeCalled t => t = now
                           | PauseCalled => False
                           end
                           /\ lastProcessTime s' = now
                           /\ minInterval s <= now - lastProcessTime s
                     | _ => lastProcessTime s' = lastProcessTime s
                     end).
  { destruct e as [now|now| |now]; cbn [scheduler_step];
      try (split; reflexivity);
      match goal with
      | |- context [processWALChanges_gate ?t ?s0] =>
          pose proof (processWALChanges_gate_step t s0) as H;
          destruct (processWALChanges_gate t s0) as [s' [| |]];
          cbn [minInterval lastProcessTime] in H; destruct H as [Hmin Hlast]
      end; split; try assumption.
    all: exists now; destruct Hlast; repeat split; assumption. }
  destruct (scheduler_step s e) as [s' gate]. destruct Hstep as [Hmin Hgate].
  specialize (IH s'). destruct (scheduler_run s' es) as [s'' passes].
  cbn [snd] in *. rewrite Hmin in IH.
  destruct gate.
  - now rewrite <- Hgate.
  - now rewrite <- Hgate.
  - destruct Hgate as (now & He & Hlast & Hgap).
    destruct e; try contradiction; subst; cbn [spaced]; split; assumption.
Qed.

Lemma scheduler_step_keeps (s : Scheduler) (e : SchedulerEvent) :
  minInterval (fst (scheduler_step s e)) = minInterval s
  /\ (snd (scheduler_step s e) <> Passed ->
      lastProcessTime (fst (scheduler_step s e)) = lastProcessTime s).
Proof.
  destruct e as [now|now| |now]; cbn [scheduler_step];
    unfold processWALChanges_gate; cbn [paused minInterval lastProcessTime updateTimeout];
    repeat match goal with
           | |- context [if ?c then _ else _] => destruct c
           | |- context [match updateTimeout ?x with _ => _ end] =>
               destruct (updateTimeout x)
           end;
    cbn [fst snd minInterval lastProcessTime]; split; congruence.
Qed.

(** As long as no pass starts, the time of the last pass stays. *)
Lemma scheduler_run_no_pass (es : list SchedulerEvent) :
  forall s,
    snd (scheduler_run s es) = [] ->
    minInterval (fst (scheduler_run s es)) = minInterval s
    /\ lastProcessTime (fst (scheduler_run s es)) = lastProcessTime s.
Proof.
  induction es as [|e es IH]; intros s; cbn [scheduler_run]; [now split|].
  destruct (scheduler_step_keeps s e) as [Hmin Hlast].
  destruct (scheduler_step s e) as [s1 gate]. cbn [fst snd] in *.
  specialize (IH s1). destruct (scheduler_run s1 es) as [s2 passes].
  cbn [fst snd] in *. intros Hnone.
  assert (Hgate : gate <> Passed /\ passes = [])
    by (destruct gate; [split; [discriminate | assumption] ..| discriminate]).
  destruct Hgate as [Hgate ->]. destruct (IH eq_refl) as [-> ->].
  split; [assumption | now apply Hlast].
Qed.

(** X3: when [processWALChanges] defers and no timer is pending, it arms
    one whose delay is positive and ends when [minInterval] has passed
    since the last pass.  Whatever reaches the scheduler in between, file
    changes, pauses and resumes, at whatever clock readings, the timer's
    callback, when it runs at that moment or later with the engine not
    paused, starts a pass, unless a pass has started since the timer was
    armed. *)
Theorem deferred_pass_is_due (now : Z) (s s' : Scheduler) :
  processWALChanges_gate now s = (s', Deferred) ->
  updateTimeout s = None ->
  exists delay,
    updateTimeout s' = Some delay
    /\ 0 < delay
    /\ now + delay = lastProcessTime s + minInterval s
    /\ forall es t,
         now + delay <= t ->
         paused (fst (scheduler_run s' es)) = false ->
         snd (scheduler_run s' es) <> []
         \/ snd (scheduler_step (fst (scheduler_run s' es)) (TimerFired t))
            = Passed.
Proof.
  unfold processWALChanges_gate. intros Hgate Hnone.
  destruct (paused s) eqn:Hpaused; [discriminate|].
  destruct (Z.ltb_spec (now - lastProcessTime s) (minInterval s)) as [Hlt|];
    [|discriminate].
  rewrite Hnone in Hgate. injection Hgate as <-.
  exists (minInterval s - (now - lastProcessTime s)).
  cbn [updateTimeout]. split; [reflexivity|]. split; [lia|]. split; [lia|].
  intros es t Ht Hrunning.
  match goal with
  | |- context [scheduler_run ?armed es] => set (s1 := armed) in *
  end.
  destruct (snd (scheduler_run s1 es)) as [|pass passes] eqn:Hpasses;
    [right | left; discriminate].
  destruct (scheduler_run_no_pass es s1 Hpasses) as [Hmin Hlast].
  subst s1. cbn [minInterval lastProcessTime] in Hmin, Hlast.
  cbn [scheduler_step]. unfold processWALChanges_gate.
  cbn [paused lastProcessTime minInterval]. rewrite Hrunning, Hmin, Hlast.
  destruct (Z.ltb_spec (t - lastProcessTime s) (minInterval s)); [lia|].
  reflexivity.
Qed.

(** An instance of [deferred_pass_is_due]: an interval of 500 ms, the last
    pass at 1000, a change at 1100. *)
Lemma deferred_pass_is_due_witness :
  exists delay,
    updateTimeout
      {| paused := false; minInterval := 500; lastProcessTime := 1000;
         updateTimeout := Some 400 |} = Some delay
    /\ 0 < delay
    /\ 1100 + delay = 1000 + 500
    /\ forall es t,
         1100 + delay <= t ->
         paused (fst (scheduler_run
                        {| paused := false; minInterval := 500;
                           lastProcessTime := 1000; updateTimeout := Some 400 |}
                        es)) = false ->
         snd (scheduler_run
                {| paused := false; minInterval := 500;
                   lastProcessTime := 1000; updateTimeout := Some 400 |} es)
         <> []
         \/ snd (scheduler_step
                   (fst (scheduler_run
                           {| paused := false; minInterval := 500;
                              lastProcessTime := 1000; updateTimeout := Some 400 |}
                           es))
                   (TimerFired t)) = Passed.
Proof.
  apply (deferred_pass_is_due 1100
           {| paused := false; minInterval := 500; lastProcessTime := 1000;
              updateTimeout := None |}
           {| paused := false; minInterval := 500; lastProcessTime := 1000;
              updateTimeout := Some 400 |});
    reflexivity.
Defined.

(** ** What [readVarint] returns *)

Lemma toInt32_range (z : Z) : -2147483648 <= toInt32 z < 2147483648.
Proof.
  unfold toInt32.
  pose proof (Z.mod_pos_bound (z + 2147483648) 4294967296 ltac:(lia)). lia.
Qed.

Lemma readVarint_loop_range (buffer : Buffer) (offset : Z) (n : nat) :
  forall size value,
    -2147483648 <= value < 2147483648 ->
    -2147483648 <= readVarint_loop n buffer offset size value < 2147483648.
Proof.
  induction n as [|n IH]; intros size value Hv; cbn [readVarint_loop];
    [assumption|].
  destruct (_ =? 0); [apply toInt32_range|]. apply IH, toInt32_range.
Qed.

(** X4: whatever the bytes, [readVarint] returns a signed 32-bit integer;
    and at an offset outside the buffer it returns 0, for a varint of one
    byte. *)
Theorem readVarint_is_int32 :
  (forall buffer offset,
      -2147483648 <= readVarint buffer offset < 2147483648)
  /\ (forall buffer offset,
         offset < 0 \/ blen buffer <= offset ->
         readVarint buffer offset = 0 /\ getVarintSize buffer offset = 1).
Proof.
  split.
  - intros buffer offset. apply readVarint_loop_range. lia.
  - intros buffer offset Hout.
    assert (Hnone : buf_get buffer (offset + 0) = None).
    { rewrite Z.add_0_r. unfold buf_get.
      destruct (Z.ltb_spec offset 0); [reflexivity|].
      apply nth_error_None. unfold blen in Hout. lia. }
    unfold readVarint, getVarintSize.
    cbn [readVarint_loop getVarintSize_loop]. rewrite Hnone. split; reflexivity.
Qed.

(** An instance of [readVarint_is_int32]: reading past a one-byte
    buffer. *)
Lemma readVarint_is_int32_witness :
  readVarint [x7f] 1 = 0 /\ getVarintSize [x7f] 1 = 1.
Proof. apply (proj2 readVarint_is_int32 [x7f] 1). right. vm_compute. discriminate. Defined.

(** ** Varints written and read back *)

Lemma encodeVarint_groups_bytes (n : nat) :
  forall z,
    0 <= z < 128 ^ (Z.of_nat n + 1) ->
    varint_bytes (encodeVarint_groups n z) = true
    /\ (1 <= length (encodeVarint_groups n z) <= n + 1)%nat
    /\ varint_value (encodeVarint_groups n z) = z.
Proof.
  induction n as [|n IH]; intros z Hz.
  - change (128 ^ (Z.of_nat 0 + 1)) with 128 in Hz.
    cbn [encodeVarint_groups varint_bytes varint_value length].
    rewrite Z.mod_small by lia. rewrite byteZ_byte_of_Z by lia.
    split; [now apply Z.ltb_lt|]. split; [lia|].
    rewrite Z.mod_small by lia. lia.
  - cbn [encodeVarint_groups].
    destruct (Z.ltb_spec z 128) as [Hlt|Hge].
    + cbn [varint_bytes varint_value length].
      rewrite byteZ_byte_of_Z by lia.
      split; [now apply Z.ltb_lt|]. split; [lia|].
      rewrite Z.mod_small by lia. lia.
    + assert (Hpow : 128 ^ (Z.of_nat (S n) + 1) = 128 * 128 ^ (Z.of_nat n + 1)).
      { replace (Z.of_nat (S n) + 1) with (Z.succ (Z.of_nat n + 1)) by lia.
        apply Z.pow_succ_r. lia. }
      destruct (IH (z / 128)) as (Hb & Hl & Hv).
      { split; [apply Z.div_pos; lia|].
        apply Z.div_lt_upper_bound; lia. }
      pose proof (Z.mod_pos_bound z 128 ltac:(lia)) as Hmod.
      cbn [varint_value length]. rewrite byteZ_byte_of_Z by lia.
      split; [|split; [lia|]].
      * destruct (encodeVarint_groups n (z / 128)) as [|b bs] eqn:Henc;
          [cbn in Hl; lia|].
        change (varint_bytes (byte_of_Z (128 + z mod 128) :: b :: bs))
          with ((128 <=? byteZ (byte_of_Z (128 + z mod 128)))
                && varint_bytes (b :: bs)).
        rewrite byteZ_byte_of_Z by lia.
        rewrite Hb. destruct (Z.leb_spec 128 (128 + z mod 128)); [reflexivity | lia].
      * rewrite Hv.
        replace ((128 + z mod 128) mod 128) with (z mod 128)
          by (rewrite <- Z.add_mod_idemp_l, Z.mod_same, Z.add_0_l, Z.mod_mod by lia;
              reflexivity).
        pose proof (Z.div_mod z 128 ltac:(lia)). lia.
Qed.

Lemma encodeVarint_bytes (z : Z) :
  0 <= z < 268435456 ->
  varint_bytes (encodeVarint z) = true
  /\ (1 <= length (encodeVarint z) <= 4)%nat
  /\ varint_value (encodeVarint z) = z.
Proof. intros Hz. apply (encodeVarint_groups_bytes 3 z). exact Hz. Qed.

(** X5: a number below 2^28, written as a varint of seven-bit groups with
    the least significant group first, is read back by [readVarint] from
    where it stands in a buffer, and [getVarintSize] gives the number of its
    bytes, between one and four. *)
Theorem readVarint_encodeVarint (pre post : Buffer) (z : Z) :
  0 <= z < 268435456 ->
  readVarint (pre ++ encodeVarint z ++ post) (blen pre) = z
  /\ getVarintSize (pre ++ encodeVarint z ++ post) (blen pre)
     = blen (encodeVarint z)
  /\ 1 <= blen (encodeVarint z) <= 4.
Proof.
  intros Hz. destruct (encodeVarint_bytes z Hz) as (Hb & Hl & Hv).
  destruct (readVarint_bytes pre (encodeVarint z) post Hb ltac:(lia)) as [Hr Hs].
  rewrite Hr, Hs, Hv. unfold blen. repeat split; lia.
Qed.

(** An instance of [readVarint_encodeVarint]: the number 300 after two
    other bytes. *)
Lemma readVarint_encodeVarint_witness :
  readVarint [x01; x02; xac; x02; xff] 2 = 300
  /\ getVarintSize [x01; x02; xac; x02; xff] 2 = 2
  /\ 1 <= 2 <= 4.
Proof. apply (readVarint_encodeVarint [x01; x02] [xff] 300). lia. Defined.

(** ** Rows written and read back *)

Lemma string_of_bytes_of_string (s : string) :
  string_of_bytes (bytes_of_string s) = s.
Proof.
  unfold string_of_bytes, bytes_of_string. rewrite map_map.
  rewrite (map_ext _ (fun a => a)) by apply ascii_of_byte_of_ascii.
  rewrite map_id. apply string_of_list_ascii_of_string.
Qed.

Lemma buf_toString_middle (pre bs post : Buffer) :
  buf_toString (pre ++ bs ++ post) (blen pre) (blen pre + blen bs)
  = utf8_text bs.
Proof.
  unfold buf_toString. rewrite !blen_app.
  pose proof (blen_nonneg pre). pose proof (blen_nonneg bs).
  pose proof (blen_nonneg post).
  rewrite Z.max_r, Z.min_l by lia.
  destruct (Z.leb_spec (blen pre + blen bs) (blen pre)) as [Hle|Hgt].
  - destruct bs; [reflexivity | unfold blen in *; cbn [length] in *; lia].
  - replace (blen pre + blen bs - blen pre) with (blen bs) by lia.
    unfold blen. rewrite !Nat2Z.id.
    rewrite skipn_app, skipn_all, Nat.sub_diag.
    change (drop 0 (bs ++ post)) with (bs ++ post). cbn [app].
    rewrite firstn_app, firstn_all, Nat.sub_diag. cbn [firstn].
    now rewrite app_nil_r.
Qed.

Lemma readDoubleLE_middle (pre bits post : Buffer) :
  length bits = 8%nat ->
  readDoubleLE (pre ++ bits ++ post) (blen pre)
  = Ok (decoded_value (RealValue bits)).
Proof.
  intros Hlen. unfold readDoubleLE. rewrite !blen_app.
  pose proof (blen_nonneg pre). pose proof (blen_nonneg post).
  assert (Hb : blen bits = 8) by (unfold blen; lia).
  destruct (Z.leb_spec 0 (blen pre)); [|lia].
  destruct (Z.leb_spec (blen pre + 8) (blen pre + (blen bits + blen post))); [|lia].
  cbn [andb]. unfold blen at 1. rewrite Nat2Z.id.
  rewrite skipn_app, skipn_all, Nat.sub_diag.
  change (drop 0 (bits ++ post)) with (bits ++ post). cbn [app].
  rewrite <- Hlen, firstn_app, firstn_all, Nat.sub_diag. cbn [firstn].
  rewrite app_nil_r. cbn [decoded_value].
  destruct bits as [|b0 [|b1 [|b2 [|b3 [|b4 [|b5 [|b6 [|b7 [|b8 bits]]]]]]]]];
    try discriminate. reflexivity.
Qed.

(** One value in place: what [parseValue] returns and how far
    [getValueSize] moves on. *)
Lemma parseValue_encoded (pre post : Buffer) (type : string) (v : StoredValue) :
  value_fits type v ->
  parseValue (pre ++ encode_value v ++ post) (blen pre) type = Ok (decoded_value v)
  /\ getValueSize (pre ++ encode_value v ++ post) (blen pre) type
     = blen (encode_value v).
Proof.
  destruct v as [z|bits|s|b|]; cbn [value_fits encode_value decoded_value].
  - intros [-> Hz]. unfold parseValue, getValueSize. cbn [String.eqb Ascii.eqb Bool.eqb].
    destruct (readVarint_encodeVarint pre post z Hz) as (-> & -> & _).
    split; reflexivity.
  - intros [-> Hlen]. unfold parseValue, getValueSize.
    cbn [String.eqb Ascii.eqb Bool.eqb].
    rewrite (readDoubleLE_middle pre bits post Hlen). cbn [decoded_value].
    split; [reflexivity | unfold blen; lia].
  - intros [-> Hlen]. unfold parseValue, getValueSize.
    cbn [String.eqb Ascii.eqb Bool.eqb orb].
    pose proof (blen_nonneg s) as Hnn.
    rewrite <- !app_assoc.
    destruct (readVarint_encodeVarint pre (s ++ post) (blen s) ltac:(lia))
      as (-> & -> & _).
    replace (blen pre + blen (encodeVarint (blen s)))
      with (blen (pre ++ encodeVarint (blen s))) by apply blen_app.
    rewrite (app_assoc pre), buf_toString_middle.
    split; [destruct (JSON.parse (utf8_text s)); reflexivity|].
    rewrite blen_app. reflexivity.
  - intros [-> Hlen]. unfold parseValue, getValueSize.
    cbn [String.eqb Ascii.eqb Bool.eqb orb].
    pose proof (blen_nonneg b) as Hnn.
    rewrite <- !app_assoc.
    destruct (readVarint_encodeVarint pre (b ++ post) (blen b) ltac:(lia))
      as (-> & -> & _).
    replace (blen pre + blen (encodeVarint (blen b)))
      with (blen (pre ++ encodeVarint (blen b))) by apply blen_app.
    rewrite (app_assoc pre), buf_slice_middle.
    split; [reflexivity|]. rewrite blen_app. reflexivity.
  - intros (Hi & Hr & Ht & Hb). unfold parseValue, getValueSize.
    apply String.eqb_neq in Hi, Hr, Ht, Hb. rewrite Hi, Hr, Ht, Hb.
    split; reflexivity.
Qed.

Lemma parseRowData_loop_encoded (columns : list Column) (values : list StoredValue) :
  Forall2 (fun column v => value_fits (type column) v) columns values ->
  forall (pre post : Buffer) (rowData : row),
    parseRowData_loop columns (pre ++ flat_map encode_value values ++ post)
                      (blen pre) rowData
    = Ok (row_of_values columns values rowData).
Proof.
  induction 1 as [|column v columns values Hfits _ IH]; intros pre post rowData;
    [reflexivity|].
  cbn [parseRowData_loop flat_map]. rewrite <- app_assoc.
  destruct (parseValue_encoded pre (flat_map encode_value values ++ post)
              (type column) v Hfits) as [-> ->].
  cbn [rbind rcatch fst snd].
  replace (blen pre + blen (encode_value v))
    with (blen (pre ++ encode_value v)) by apply blen_app.
  rewrite (app_assoc pre). rewrite IH. reflexivity.
Qed.

(** X6: a payload that holds, one after the other, a value for each column
    of a table, written as the decoder reads its declared type (a varint for
    INTEGER, eight bytes for REAL, a length varint and the bytes for TEXT
    and BLOB, nothing for any other type), every INTEGER from 0 to
    2^28 - 1 and every TEXT and BLOB shorter than 2^28 bytes, is decoded by
    [parseRowData] into the row of these values under the column names: the
    number, the double of the eight bytes, the bytes of the BLOB, and for a
    TEXT its bytes decoded as UTF-8, or what this text parses to when it is
    JSON. *)
Theorem parseRowData_reads_back (info : gmap string (list Column))
    (tableName : string) (columns : list Column) (values : list StoredValue) :
  info !! tableName = Some columns ->
  Forall2 (fun column v => value_fits (type column) v) columns values ->
  parseRowData info tableName (flat_map encode_value values)
  = Ok (row_of_values columns values []).
Proof.
  intros Hinfo Hfits. unfold parseRowData. rewrite Hinfo.
  pose proof (parseRowData_loop_encoded columns values Hfits [] [] []) as H.
  cbn [app] in H. rewrite app_nil_r in H. exact H.
Qed.

(** An instance of [parseRowData_reads_back]: a player named by a JSON
    number, and one whose name has a byte that is not UTF-8. *)
Lemma parseRowData_reads_back_witness :
  parseRowData {[ "players" := players_columns ]} "players"
               (flat_map encode_value [IntegerValue 300; TextValue [x31; x32]])
  = Ok [("id", Num 300); ("name", Num 12)]
  /\ parseRowData {[ "players" := players_columns ]} "players"
                  (flat_map encode_value [IntegerValue 7; TextValue [x41; xff]])
     = Ok [("id", Num 7); ("name", Str (string_of_bytes [x41; xef; xbf; xbd]))].
Proof.
  split.
  - apply (parseRowData_reads_back {[ "players" := players_columns ]} "players"
             players_columns [IntegerValue 300; TextValue [x31; x32]]).
    + reflexivity.
    + repeat constructor; vm_compute; congruence.
  - apply (parseRowData_reads_back {[ "players" := players_columns ]} "players"
             players_columns [IntegerValue 7; TextValue [x41; xff]]).
    + reflexivity.
    + repeat constructor; vm_compute; congruence.
Defined.

(** ** The outcomes of [parseWAL] *)

Lemma readUInt32LE_short (buffer : Buffer) (offset : Z) :
  blen buffer < offset + 4 -> readUInt32LE buffer offset = Throw RangeError.
Proof.
  intros Hshort. unfold readUInt32LE.
  destruct (Z.leb_spec (offset + 4) (blen buffer)); [lia|].
  now rewrite andb_false_r.
Qed.

Lemma readUInt32LE_throws (buffer : Buffer) (offset : Z) (e : JsError) :
  readUInt32LE buffer offset = Throw e -> e = RangeError.
Proof.
  unfold readUInt32LE. intros H.
  repeat match type of H with
         | context [if ?c then _ else _] => destruct c
         | context [match ?x with _ => _ end] => destruct x
         end; congruence.
Qed.

(** X7: [parseWAL] returns on every byte range, with the changes of its
    frames applied or with a [WAL_PARSE_ERROR]; an empty range leaves the
    engine as it is, and a range that ends within the eight bytes that
    start a frame, here the first, is an error caused by a [RangeError]. *)
Theorem parseWAL_outcomes :
  (forall this buffer,
      (exists changes,
          parseWAL_loop (length buffer) this buffer 0 [] = Some (Ok changes)
          /\ parseWAL this buffer = Some (Ok (applyChanges changes this)))
      \/ (exists cause,
             parseWAL this buffer
             = Some (Throw (LiveSQLiteError WAL_PARSE_ERROR cause))))
  /\ (forall this, parseWAL this [] = Some (Ok this))
  /\ (forall this buffer,
         0 < blen buffer < 8 ->
         parseWAL this buffer
         = Some (Throw (LiveSQLiteError WAL_PARSE_ERROR RangeError))).
Proof.
  split; [|split].
  - intros this buffer. unfold parseWAL.
    destruct (parseWAL_loop_ends this buffer (length buffer) 0 [] ltac:(lia)
                ltac:(unfold blen; lia)) as [[changes|e] Hr]; rewrite Hr.
    + left. exists changes. split; reflexivity.
    + right. exists e. reflexivity.
  - intros this. reflexivity.
  - intros this buffer [Hpos Hshort]. unfold parseWAL.
    destruct buffer as [|b buffer]; [unfold blen in Hpos; cbn in Hpos; lia|].
    cbn [length parseWAL_loop].
    destruct (Z.ltb_spec 0 (blen (b :: buffer))); [|lia].
    destruct (Z.le_gt_cases 4 (blen (b :: buffer))) as [Hfour|Hfew].
    + destruct (readUInt32LE (b :: buffer) 0) as [frameSize|e] eqn:Hsize.
      * rewrite (readUInt32LE_short (b :: buffer) (0 + 4)) by lia. reflexivity.
      * now rewrite (readUInt32LE_throws _ _ _ Hsize).
    + rewrite (readUInt32LE_short (b :: buffer) 0) by lia. reflexivity.
Qed.

(** ** Frames that leave no change *)

Lemma readUInt8_first (pageData : Buffer) :
  0 < blen pageData -> readUInt8 pageData 0 = Ok (byte_at pageData 0).
Proof.
  intros Hpos. unfold readUInt8, byte_at.
  destruct (Z.leb_spec (0 + 1) (blen pageData)); [|lia]. cbn [Z.leb andb].
  destruct pageData as [|b pageData]; [unfold blen in Hpos; cbn in Hpos; lia|].
  reflexivity.
Qed.

Lemma processWALFrame_passed_over (this : LiveSQLite) (frame : Z * Buffer)
    (changes : Changes) :
  passed_over this frame ->
  processWALFrame this (fst frame) (snd frame) changes = Ok changes.
Proof.
  intros [Hpos Hwhy]. unfold processWALFrame.
  rewrite (readUInt8_first _ Hpos). cbn [rbind].
  destruct (Z.eqb_spec (byte_at (snd frame) 0) 13) as [Hleaf|]; [|reflexivity].
  destruct Hwhy as [Hne|Htable]; [contradiction|].
  destruct (getTableInfo this (fst frame)) as [tableName|]; [|reflexivity].
  now rewrite bool_decide_eq_false_2.
Qed.

(** X8: a byte range all of whose frames carry a page that is not a leaf
    table page, or whose page number is not the root page of a table in
    [usedTables], leaves the engine as it is: [parseWAL] reads every frame
    and records no change. *)
Theorem parseWAL_passes_over (this : LiveSQLite) (frames : list (Z * Buffer)) :
  Forall (fun f => 0 <= fst f < 4294967296 /\ 8 + blen (snd f) < 4294967296) frames ->
  Forall (passed_over this) frames ->
  parseWAL this (flat_map frame_bytes frames) = Some (Ok this).
Proof.
  intros Hok Hover. unfold parseWAL.
  pose proof (parseWAL_loop_frames this frames
                (length (flat_map frame_bytes frames)) [] [] Hok
                (flat_map_frames_length frames)) as Hloop.
  cbn [app] in Hloop. change (blen []) with 0 in Hloop. rewrite Hloop.
  assert (Hframes : processFrames this frames [] = Ok []).
  { clear Hloop Hok. induction Hover as [|[pageNumber pageData] frames Hf _ IH];
      [reflexivity|].
    cbn [processFrames].
    pose proof (processWALFrame_passed_over this (pageNumber, pageData) [] Hf)
      as Hframe.
    cbn [fst snd] in Hframe. rewrite Hframe. exact IH. }
  rewrite Hframes. reflexivity.
Qed.

(** An instance of [parseWAL_passes_over]: an interior page of [players]
    (type 5) under its root number, and a leaf page under the number 7,
    which is no table's root. *)
Lemma parseWAL_passes_over_witness :
  parseWAL (watching_players (players []))
           (flat_map frame_bytes
                     [(2, [x05; x00; x00; x00; x00]);
                      (7, leaf_page [player_cell 11 "Bob"])])
  = Some (Ok (watching_players (players []))).
Proof.
  apply (parseWAL_passes_over (watching_players (players []))
           [(2, [x05; x00; x00; x00; x00]);
            (7, leaf_page [player_cell 11 "Bob"])]).
  - repeat constructor; vm_compute; congruence.
  - constructor; [|constructor; [|constructor]].
    + split; [reflexivity|]. left. vm_compute. discriminate.
    + split; [reflexivity|]. right. vm_compute. exact I.
Defined.

(** ** The store after a batch *)

Lemma store_step_lookup (tc : gmap string RowCache) (t' : string) (r' : Z)
    (newRow : option row) (t : string) (r : Z) :
  is_Some (tc !! t) ->
  store_step tc (t', r', newRow) !! t ≫= (.!! r)
  = if bool_decide (t' = t /\ r' = r) then newRow else tc !! t ≫= (.!! r).
Proof.
  intros [cache Hcache]. unfold store_step.
  destruct (decide (t' = t)) as [->|Hne].
  - rewrite Hcache. destruct (decide (r' = r)) as [->|Hner].
    + rewrite bool_decide_eq_true_2 by (split; reflexivity).
      destruct (cache !! r) as [old|] eqn:Hold, newRow as [new|];
        rewrite ?lookup_insert_eq, ?Hcache; cbn [mbind option_bind];
        rewrite ?cache_lookup_insert_eq, ?cache_lookup_delete_eq;
        try reflexivity.
      exact Hold.
    + rewrite bool_decide_eq_false_2 by (intros [_ ?]; contradiction).
      destruct (cache !! r') as [old|], newRow as [new|];
        rewrite ?lookup_insert_eq, ?Hcache; cbn [mbind option_bind];
        rewrite ?cache_lookup_insert_ne, ?cache_lookup_delete_ne by assumption;
        reflexivity.
  - rewrite bool_decide_eq_false_2 by (intros [? _]; contradiction).
    destruct (tc !! t') as [cache'|]; [|reflexivity].
    destruct (cache' !! r'), newRow; rewrite ?lookup_insert_ne by assumption;
      reflexivity.
Qed.

Lemma fold_store_step_lookup (ms : list (string * Z * option row)) (t : string)
    (r : Z) :
  forall tc,
    is_Some (tc !! t) ->
    fold_left store_step ms tc !! t ≫= (.!! r)
    = match last_for t r ms with
      | Some newRow => newRow
      | None => tc !! t ≫= (.!! r)
      end.
Proof.
  induction ms as [|[[t' r'] newRow] ms IH]; intros tc Hsome; [reflexivity|].
  cbn [fold_left last_for].
  rewrite IH by now apply store_step_table.
  destruct (last_for t r ms) as [later|]; [reflexivity|].
  rewrite store_step_lookup by assumption.
  destruct (bool_decide _); reflexivity.
Qed.

Lemma fold_store_step_absent (ms : list (string * Z * option row)) (t : string) :
  forall tc, tc !! t = None -> fold_left store_step ms tc !! t = None.
Proof.
  induction ms as [|[[t' r'] newRow] ms IH]; intros tc Hnone; [assumption|].
  cbn [fold_left]. apply IH. unfold store_step.
  destruct (tc !! t') as [cache'|] eqn:Hc; [|assumption].
  assert (Hne : t' <> t) by congruence.
  destruct (cache' !! r'), newRow; rewrite ?lookup_insert_ne by assumption;
    assumption.
Qed.

(** X9: after [applyChanges], a row of a cached table is what the last
    entry of the batch for it says, present with that entry's row or absent
    for a falsy one, and is as before when the batch has no entry for it; a
    table that is not cached stays uncached. *)
Theorem applyChanges_last_entry_wins (changes : Changes) (this : LiveSQLite)
    (t : string) :
  (is_Some (tableCache this !! t) ->
   forall r,
     tableCache (applyChanges changes this) !! t ≫= (.!! r)
     = match last_for t r (mutations changes) with
       | Some newRow => newRow
       | None => tableCache this !! t ≫= (.!! r)
       end)
  /\ (tableCache this !! t = None ->
      tableCache (applyChanges changes this) !! t = None).
Proof.
  rewrite applyChanges_store. split.
  - intros Hsome r. now apply fold_store_step_lookup.
  - apply fold_store_step_absent.
Qed.

(** An instance of [applyChanges_last_entry_wins]: the player 11 renamed
    in a batch. *)
Lemma applyChanges_last_entry_wins_witness :
  tableCache renamed_bob !! "players" ≫= (.!! 11) = Some (player 11 "Bob").
Proof.
  apply (proj1 (applyChanges_last_entry_wins
                  [("players", [(11, Some (player 11 "Bob"))])]
                  (set_db (players [(11, player 11 "Bob")])
                          (watching_players (players [(11, player 11 "Alice")])))
                  "players")).
  vm_compute. eauto.
Defined.

(** ** Queries a batch does not concern *)

Lemma needsUpdate_untriggered (q : LiveSQLiteSelect) (tableName : string)
    (oldRow newRow : option row) (rowDeleted : bool) :
  triggered_by q tableName = false ->
  needsUpdate q tableName oldRow newRow rowDeleted = false.
Proof.
  unfold triggered_by, needsUpdate.
  induction (triggers q) as [|trigger ts IH]; cbn [existsb]; [reflexivity|].
  intros H. apply orb_false_elim in H as [Htable Hrest].
  rewrite Htable. cbn [negb]. now apply IH.
Qed.

Lemma Map_set_elem_ne {V : Type} (m : list (nat * V)) (k k' : nat) (v v' : V) :
  k' <> k -> (k, v) ∈ Map_set m k' v' <-> (k, v) ∈ m.
Proof.
  intros Hne. induction m as [|[k0 v0] m IH]; cbn.
  - rewrite list_elem_of_singleton, elem_of_nil. split; [|contradiction].
    intros [= -> _]. contradiction.
  - destruct (decide (k0 = k')) as [->|Hne0].
    + rewrite !elem_of_cons. split; intros [H|H]; try (now right);
        injection H as -> _; contradiction.
    + rewrite !elem_of_cons, IH. reflexivity.
Qed.

Lemma untouched_refl (id : nat) (this : LiveSQLite) : untouched id this this.
Proof. repeat split; auto. Qed.

Lemma untouched_trans (id : nat) (s1 s2 s3 : LiveSQLite) :
  untouched id s1 s2 -> untouched id s2 s3 -> untouched id s1 s3.
Proof.
  intros (He12 & Hq12 & Hu12) (He23 & Hq23 & Hu23). split; [congruence|]. split.
  - intros q. now rewrite Hq23, Hq12.
  - now rewrite Hu23, Hu12.
Qed.

Lemma notifyQuery_untouched (id : nat) (tableName : string)
    (oldRow newRow : option row) (rowDeleted : bool) (this : LiveSQLite)
    (entry : nat * LiveSQLiteSelect) :
  (fst entry = id ->
   needsUpdate (snd entry) tableName oldRow newRow rowDeleted = false) ->
  untouched id this (notifyQuery tableName oldRow newRow rowDeleted this entry).
Proof.
  destruct entry as [queryId query]. cbn [fst snd]. intros Hid.
  unfold notifyQuery.
  destruct (needsUpdate query tableName oldRow newRow rowDeleted) eqn:Hneeds;
    [|apply untouched_refl].
  assert (Hne : queryId <> id) by (intros Heq; specialize (Hid Heq); congruence).
  destruct (_ || _); [|apply untouched_refl].
  pose proof (invalidate_emitted_by id queryId
                (db (set_queuedUpdates (fun qs => {[queryId]} ∪ qs) this))
                query Hne) as Hemit.
  destruct (invalidate queryId _ query) as [query' emitted]. cbn [snd] in Hemit.
  unfold untouched.
  cbn [emit set_liveQueries set_queuedUpdates queuedUpdates liveQueries events].
  split; [rewrite emitted_by_app, Hemit; apply app_nil_r|]. split.
  - intros q. now apply Map_set_elem_ne.
  - rewrite elem_of_union, elem_of_singleton.
    split; [intros [Heq|Hin]; [congruence|assumption] | now right].
Qed.

Lemma notifyQueries_untouched (id : nat) (tableName : string)
    (oldRow newRow : option row) (rowDeleted : bool) (this : LiveSQLite) :
  (forall q, (id, q) ∈ liveQueries this ->
             needsUpdate q tableName oldRow newRow rowDeleted = false) ->
  untouched id this (notifyQueries tableName oldRow newRow rowDeleted this).
Proof.
  intros Hq. unfold notifyQueries.
  set (this' := emit _ this).
  assert (H0 : untouched id this this').
  { subst this'. unfold untouched. cbn [emit queuedUpdates liveQueries events].
    split; [rewrite emitted_by_app; apply app_nil_r|]. split; reflexivity. }
  assert (Hentries : forall entry, entry ∈ liveQueries this' ->
            fst entry = id ->
            needsUpdate (snd entry) tableName oldRow newRow rowDeleted = false).
  { intros [k q] Hin Hk. cbn [fst snd] in *. subst k. now apply Hq. }
  clearbody this'. revert Hentries. generalize (liveQueries this').
  intros entries. revert this' H0.
  induction entries as [|entry entries IH]; intros this' H0 Hentries;
    [assumption|].
  cbn [fold_left]. apply IH.
  - eapply untouched_trans; [eassumption|].
    apply notifyQuery_untouched, Hentries, list_elem_of_here.
  - intros e He. apply Hentries. now apply list_elem_of_further.
Qed.

Lemma fold_left_untouched {A : Type} (id : nat) (f : LiveSQLite -> A -> LiveSQLite)
    (l : list A) (this : LiveSQLite) :
  (forall cur a, a ∈ l -> untouched id this cur -> untouched id cur (f cur a)) ->
  untouched id this (fold_left f l this).
Proof.
  intros Hf.
  assert (Hgen : forall cur, untouched id this cur ->
                   untouched id this (fold_left f l cur)).
  { induction l as [|a l IH]; intros cur Hcur; [assumption|].
    cbn [fold_left]. apply IH.
    - intros cur' a' Hin. apply Hf. now apply list_elem_of_further.
    - eapply untouched_trans; [eassumption|].
      apply Hf; [apply list_elem_of_here | assumption]. }
  apply Hgen, untouched_refl.
Qed.

Lemma applyTable_untouched (id : nat) (this : LiveSQLite) (tableName : string)
    (rowChanges : list (Z * option row)) :
  (forall q, (id, q) ∈ liveQueries this -> triggered_by q tableName = false) ->
  untouched id this (applyTable this (tableName, rowChanges)).
Proof.
  intros Hq. unfold applyTable.
  destruct (tableCache this !! tableName); [|apply untouched_refl].
  assert (Hgen : forall cur, untouched id this cur ->
                   untouched id this (fold_left (applyRow tableName) rowChanges cur)).
  { induction rowChanges as [|[rowId newRow] rowChanges IH]; intros cur Hcur;
      [assumption|].
    cbn [fold_left]. apply IH. eapply untouched_trans; [eassumption|].
    assert (Hcurq : forall o n d q, (id, q) ∈ liveQueries cur ->
                      needsUpdate q tableName o n d = false).
    { intros o n d q Hin. apply needsUpdate_untriggered, Hq.
      now apply (proj1 (proj2 Hcur)). }
    unfold applyRow.
    destruct (_ !! rowId), newRow; try apply untouched_refl;
      match goal with
      | |- untouched _ _ (notifyQueries _ _ _ _ ?s) =>
          apply (untouched_trans id cur s);
          [ unfold untouched; cbn;
            split; [reflexivity | split; [intros q; reflexivity | reflexivity]]
          | apply notifyQueries_untouched; intros q Hin; apply Hcurq; exact Hin ]
      end. }
  apply Hgen, untouched_refl.
Qed.

(** X10: a batch whose tables none of a live query's triggers names leaves
    the query alone: [applyChanges] does not run it, the query emits
    nothing, and it is neither put in nor taken out of [queuedUpdates]. *)
Theorem applyChanges_untriggered (id : nat) (changes : Changes) (this : LiveSQLite) :
  (forall q tableName,
      (id, q) ∈ liveQueries this -> tableName ∈ map fst changes ->
      triggered_by q tableName = false) ->
  untouched id this (applyChanges changes this).
Proof.
  unfold applyChanges. intros Hq.
  apply fold_left_untouched. intros cur [tableName rowChanges] Hin Hcur.
  apply applyTable_untouched. intros q Hinq. apply Hq.
  - now apply (proj1 (proj2 Hcur)).
  - apply list_elem_of_fmap. now exists (tableName, rowChanges).
Qed.

Lemma untriggered_check (id : nat) (m : list (nat * LiveSQLiteSelect))
    (tables : list string) :
  forallb (fun e => negb (Nat.eqb (fst e) id)
                    || forallb (fun t => negb (triggered_by (snd e) t)) tables) m
  = true ->
  forall q t, (id, q) ∈ m -> t ∈ tables -> triggered_by q t = false.
Proof.
  intros Hall q t Hq Ht.
  rewrite forallb_forall in Hall.
  apply list_elem_of_In in Hq, Ht.
  specialize (Hall _ Hq). cbn [fst snd] in Hall.
  rewrite Nat.eqb_refl in Hall. cbn [negb orb] in Hall.
  rewrite forallb_forall in Hall. specialize (Hall _ Ht).
  now apply negb_true_iff in Hall.
Qed.

Lemma applyChanges_untriggered_witness :
  untouched 1 league_renamed
            (applyChanges [("players", [(11, Some (player 11 "Bob"))])] league_renamed)
  /\ length (emitted_by 0 (events league_renamed)) = 1%nat
  /\ length (emitted_by 0 (events (applyChanges
                                     [("players", [(11, Some (player 11 "Bob"))])]
                                     league_renamed))) = 2%nat.
Proof.
  split; [|evaluate].
  apply (applyChanges_untriggered 1 [("players", [(11, Some (player 11 "Bob"))])]
                                  league_renamed).
  apply untriggered_check. vm_compute. reflexivity.
Defined.

(** ** Stopped queries *)

Lemma Map_delete_absent {V : Type} (m : list (nat * V)) (k : nat) (v : V) :
  NoDup (map fst m) -> (k, v) ∉ Map_delete m k.
Proof.
  induction m as [|[k0 v0] m IH]; cbn; intros Hnd; [apply not_elem_of_nil|].
  apply NoDup_cons in Hnd as [Hk0 Hnd].
  destruct (decide (k0 = k)) as [->|Hne].
  - intros Hin. apply Hk0. apply list_elem_of_fmap. now exists (k, v).
  - rewrite elem_of_cons. intros [[= -> _]|Hin]; [contradiction|].
    now apply IH.
Qed.

Lemma Map_get_absent {V : Type} (m : list (nat * V)) (k : nat) :
  (forall v, (k, v) ∉ m) -> Map_get m k = None.
Proof.
  induction m as [|[k0 v0] m IH]; cbn; intros Hk; [reflexivity|].
  destruct (decide (k0 = k)) as [->|Hne].
  - exfalso. apply (Hk v0), list_elem_of_here.
  - apply IH. intros v Hin. apply (Hk v). now apply list_elem_of_further.
Qed.

Lemma Map_set_keys_NoDup {V : Type} (m : list (nat * V)) (k : nat) (v : V) :
  NoDup (map fst m) -> NoDup (map fst (Map_set m k v)).
Proof.
  induction m as [|[k0 v0] m IH]; cbn; intros Hnd.
  - apply NoDup_singleton.
  - destruct (decide (k0 = k)) as [->|Hne]; [exact Hnd|].
    cbn. apply NoDup_cons in Hnd as [Hk0 Hnd]. apply NoDup_cons. split; [|auto].
    intros Hin. apply list_elem_of_fmap in Hin as [[k1 v1] [Hk1 Hin]].
    cbn in Hk1. subst k1.
    destruct (decide (k0 = k)); [contradiction|].
    assert (Hin' : (k0, v1) ∈ m).
    { clear - Hin Hne. induction m as [|[k2 v2] m IH]; cbn in Hin.
      - apply list_elem_of_singleton in Hin. injection Hin as -> _. contradiction.
      - destruct (decide (k2 = k)) as [->|Hne2].
        + apply elem_of_cons in Hin as [[= -> _]|Hin]; [contradiction|].
          now apply list_elem_of_further.
        + apply elem_of_cons in Hin as [Heq|Hin];
            [rewrite Heq; apply list_elem_of_here
            |apply list_elem_of_further; auto]. }
    apply Hk0, list_elem_of_fmap. now exists (k0, v1).
Qed.

(** X11: a stopped query is out of the registry for good: whatever byte
    range [parseWAL] processes afterwards, the query emits nothing more and
    is not registered again.  The registry is a [Map], whose keys are
    distinct. *)
Theorem stopped_query_is_silent (id : nat) (this this' : LiveSQLite)
    (buffer : Buffer) :
  NoDup (map fst (liveQueries this)) ->
  parseWAL (stop id this) buffer = Some (Ok this') ->
  emitted_by id (events this') = emitted_by id (events this)
  /\ Map_get (liveQueries this') id = None.
Proof.
  intros Hnd. unfold parseWAL.
  destruct (parseWAL_loop _ _ buffer 0 []) as [[changes|]|];
    [|discriminate|discriminate].
  intros [= <-].
  assert (Habsent : forall q, (id, q) ∉ liveQueries (stop id this)).
  { intros q. unfold stop. cbn [set_liveQueries liveQueries].
    now apply Map_delete_absent. }
  assert (Huntouched : untouched id (stop id this)
                                 (applyChanges changes (stop id this))).
  { apply fold_left_untouched. intros cur [tableName rowChanges] _ Hcur.
    apply applyTable_untouched. intros q Hin.
    apply (proj1 (proj2 Hcur)) in Hin. now apply Habsent in Hin. }
  destruct Huntouched as (He & Hq & _).
  split; [exact He|].
  apply Map_get_absent. intros q Hin. apply Hq in Hin. now apply Habsent in Hin.
Qed.

Lemma stopped_query_is_silent_witness :
  parseWAL bob_stopped (players_wal [player_cell 11 "Bob"])
  = Some (Ok bob_stopped_renamed)
  /\ emitted_by 0 (events bob_stopped_renamed)
     = emitted_by 0 (events (set_db (players [(11, player 11 "Bob")])
                               (watching_players (players [(11, player 11 "Alice")]))))
  /\ Map_get (liveQueries bob_stopped_renamed) 0%nat = None.
Proof.
  assert (H : parseWAL bob_stopped (players_wal [player_cell 11 "Bob"])
              = Some (Ok bob_stopped_renamed)) by (vm_compute; reflexivity).
  split; [exact H|].
  apply (stopped_query_is_silent 0
           (set_db (players [(11, player 11 "Bob")])
                   (watching_players (players [(11, player 11 "Alice")])))
           bob_stopped_renamed (players_wal [player_cell 11 "Bob"]));
    [|exact H].
  vm_compute. apply NoDup_singleton.
Defined.

(** ** Executing a query whose result has not changed *)

Lemma filter_none {A : Type} (p : A -> bool) (l : list A) :
  (forall x, x ∈ l -> p x = false) -> List.filter p l = [].
Proof.
  induction l as [|a l IH]; intros Hp; [reflexivity|].
  cbn. rewrite (Hp a) by apply list_elem_of_here.
  apply IH. intros x Hx. apply Hp. now apply list_elem_of_further.
Qed.

Lemma find_first_with_key {K : Type} `{EqDecision K} (f : row -> K)
    (l : list row) (r : row) :
  NoDup (map f l) -> r ∈ l ->
  find (fun r' => bool_decide (f r' = f r)) l = Some r.
Proof.
  induction l as [|a l IH]; cbn; intros Hnd Hin.
  - now apply elem_of_nil in Hin.
  - apply NoDup_cons in Hnd as [Ha Hnd].
    apply elem_of_cons in Hin as [->|Hin].
    + now rewrite bool_decide_eq_true_2.
    + rewrite bool_decide_eq_false_2; [now apply IH|].
      intros Heq. apply Ha. rewrite Heq. apply list_elem_of_fmap. now exists r.
Qed.

(** X12: executing a live query whose statement returns the result it
    returned last emits nothing and leaves the query as it is, when the key
    selector reads the row alone and gives the rows of the result distinct
    keys. *)
Theorem execute_unchanged_is_silent (id : nat) (d : Database)
    (q : LiveSQLiteSelect) (result : list row) :
  (forall r i, keySelector q r i = keySelector q r None) ->
  NoDup (map (fun r => keySelector q r None) result) ->
  lastResult q = Some result ->
  stmt q (values q) d = Ok result ->
  execute id d q = (q, []).
Proof.
  intros Hrow Hnd Hlast Hstmt. unfold execute. rewrite Hstmt, Hlast.
  rewrite diffResults_by_key by assumption. cbn [added changed removed].
  assert (Hkey : forall r, r ∈ result ->
            has_key (map (fun r => keySelector q r None) result)
                    (keySelector q r None) = true).
  { intros r Hr. apply bool_decide_eq_true_2, list_elem_of_fmap. now exists r. }
  assert (Hsame : forall r, r ∈ result ->
            differs_from_old (keySelector q) result r = false).
  { intros r Hr. unfold differs_from_old, old_row_with_key.
    pose proof (find_first_with_key (fun r => keySelector q r None) result r
                  Hnd Hr) as Hfind.
    cbn beta in Hfind. rewrite Hfind.
    now rewrite bool_decide_eq_true_2. }
  rewrite !filter_none;
    try (intros r Hr; rewrite Hkey by assumption;
         rewrite ?Hsame by assumption; reflexivity).
  cbn. f_equal. destruct q. cbn in *. now subst.
Qed.

Lemma execute_unchanged_is_silent_witness :
  execute 0 (players [(11, player 11 "Alice")])
          (set_lastResult
             {| stmt := all_rows "players"; values := [];
                keySelector := LiveSQLiteKeySelector.Columns ["id"];
                triggers := on_table "players"; lastResult := None;
                active := true |}
             [player 11 "Alice"])
  = (set_lastResult
       {| stmt := all_rows "players"; values := [];
          keySelector := LiveSQLiteKeySelector.Columns ["id"];
          triggers := on_table "players"; lastResult := None;
          active := true |}
       [player 11 "Alice"], []).
Proof.
  apply (execute_unchanged_is_silent 0 (players [(11, player 11 "Alice")]) _
                                     [player 11 "Alice"]).
  - reflexivity.
  - vm_compute. apply NoDup_singleton.
  - reflexivity.
  - reflexivity.
Defined.

(** ** What caching tables changes *)

Lemma caches_grown_refl (this : LiveSQLite) : caches_grown this this.
Proof. unfold caches_grown. repeat split; auto. Qed.

Lemma caches_grown_trans (s1 s2 s3 : LiveSQLite) :
  caches_grown s1 s2 -> caches_grown s2 s3 -> caches_grown s1 s3.
Proof.
  intros (Hq1 & He1 & Hn1 & Hu1 & Hd1 & Hc1 & Hs1 & Ht1 & Hi1)
         (Hq2 & He2 & Hn2 & Hu2 & Hd2 & Hc2 & Hs2 & Ht2 & Hi2).
  unfold caches_grown. repeat split; try congruence.
  - etransitivity; eassumption.
  - intros t Ht. rewrite Ht2; [now apply Ht1|]. now rewrite Ht1.
  - intros t Ht. rewrite Hi2; [now apply Hi1|]. now rewrite Hi1.
Qed.

Ltac lookup_inserted :=
  try (let t0 := fresh "t" in let Hsome := fresh "Hsome" in intros t0 Hsome);
  match goal with
  | Hsome : is_Some (?m !! ?t0) |- <[?t := _]> ?m !! ?t0 = _ =>
      rewrite lookup_insert_ne;
      [ reflexivity
      | let Heq := fresh in
        intros Heq; rewrite <- Heq in Hsome;
        match goal with
        | Hnone : m !! t = None |- _ => rewrite Hnone in Hsome
        end;
        destruct Hsome; discriminate ]
  | Hne : ?t0 <> ?t |- <[?t := _]> _ !! ?t0 = _ =>
      rewrite lookup_insert_ne by congruence; reflexivity
  | |- is_Some (<[?t := _]> _ !! ?t) => rewrite lookup_insert_eq; eauto
  end.

(** [cacheTable] on a table without a row cache. *)
Lemma cacheTable_grows (t : string) (this this' : LiveSQLite) (r : Result unit) :
  tableCache this !! t = None ->
  cacheTable t this = (this', r) ->
  caches_grown this this'
  /\ usedTables this' = usedTables this
  /\ (forall t', t' <> t -> tableCache this' !! t' = tableCache this !! t'
                            /\ tableInfo this' !! t' = tableInfo this !! t')
  /\ match r with
     | Ok _ => is_Some (tableCache this' !! t) /\ is_Some (tableInfo this' !! t)
     | Throw e => (exists cause, e = LiveSQLiteError CACHE_TABLE_ERROR cause)
                  /\ tableCache this' = tableCache this
     end.
Proof.
  intros Hnone. unfold cacheTable, cacheTableInfo.
  destruct (bool_decide (is_Some (tableInfo this !! t))) eqn:Hinfo; cbn [negb].
  - apply bool_decide_eq_true in Hinfo. destruct Hinfo as [info Hinfo].
    rewrite Hinfo.
    destruct (db_select_rowid _ _ _) as [rows|e]; intros [= <- <-].
    + unfold caches_grown. cbn. repeat split; auto; lookup_inserted.
    + split; [apply caches_grown_refl|]. repeat split; eauto.
  - apply bool_decide_eq_false in Hinfo.
    assert (Hinfo' : tableInfo this !! t = None).
    { destruct (tableInfo this !! t); [exfalso; eauto | reflexivity]. }
    unfold db_table_info, rcatch.
    set (columnInfo := match find_table (db this) t with
                       | Some tb => tbl_columns tb
                       | None => []
                       end).
    assert (Hci : match find_table (db this) t with
                  | Some t0 => Ok (tbl_columns t0)
                  | None => Ok []
                  end = Ok columnInfo).
    { subst columnInfo. now destruct (find_table (db this) t). }
    rewrite Hci. cbn [set_tableInfo tableInfo]. rewrite lookup_insert_eq.
    destruct (db_select_rowid _ _ _) as [rows|e]; intros [= <- <-];
      unfold caches_grown; cbn; repeat split; eauto; lookup_inserted.
Qed.

Lemma cacheTable_ready (t : string) (this this' : LiveSQLite) (r : Result unit) :
  tableCache this !! t = None ->
  cacheTable t this = (this', r) ->
  tables_ready this -> tables_ready this'.
Proof.
  intros Hnone Hcache [Hused Hcached].
  destruct (cacheTable_grows t this this' r Hnone Hcache)
    as (Hgrown & Husame & Hother & Hr).
  destruct Hgrown as (_ & _ & _ & _ & _ & _ & _ & Hkeep & Hkeepi).
  split.
  - intros t' Ht'. rewrite Husame in Ht'. rewrite Hkeep; auto.
  - intros t' Ht'. destruct (decide (t' = t)) as [->|Hne].
    + destruct r as [[]|e]; [apply Hr|].
      destruct Hr as [_ Hsame]. rewrite Hsame, Hnone in Ht'.
      destruct Ht'; discriminate.
    + destruct (Hother t' Hne) as [Hc Hi]. rewrite Hi. apply Hcached.
      now rewrite <- Hc.
Qed.

Lemma ensureTableCached_grows (t : string) (this this' : LiveSQLite)
    (r : Result unit) :
  ensureTableCached t this = (this', r) ->
  caches_grown this this'
  /\ (tables_ready this -> tables_ready this')
  /\ match r with
     | Ok _ => t ∈ usedTables this' /\ is_Some (tableCache this' !! t)
     | Throw e => exists cause, e = LiveSQLiteError CACHE_TABLE_ERROR cause
     end.
Proof.
  unfold ensureTableCached.
  destruct (bool_decide (is_Some (tableCache this !! t))) eqn:Hcached; cbn [negb].
  - apply bool_decide_eq_true in Hcached. intros [= <- <-].
    split; [|split; [|split]].
    + unfold caches_grown. cbn. repeat split; auto. apply union_subseteq_r.
    + intros [Hused Hc]. split; cbn; [|exact Hc].
      intros t' Ht'. apply elem_of_union in Ht' as [Ht'|Ht']; [|auto].
      apply elem_of_singleton in Ht'. now subst t'.
    + cbn. apply elem_of_union_l. now apply elem_of_singleton.
    + exact Hcached.
  - apply bool_decide_eq_false in Hcached.
    assert (Hnone : tableCache this !! t = None).
    { destruct (tableCache this !! t); [exfalso; eauto | reflexivity]. }
    destruct (cacheTable t this) as [s1 r1] eqn:Hcache.
    pose proof (cacheTable_ready t this s1 r1 Hnone Hcache) as Hready.
    destruct (cacheTable_grows t this s1 r1 Hnone Hcache)
      as (Hgrown & Husame & Hother & Hr).
    destruct r1 as [[]|e]; intros [= <- <-].
    + destruct Hr as [Hc Hi]. split; [|split; [|split]].
      * eapply caches_grown_trans; [exact Hgrown|].
        unfold caches_grown. cbn. repeat split; auto. apply union_subseteq_r.
      * intros Hthis. destruct (Hready Hthis) as [Hused Hcc].
        split; cbn; [|exact Hcc].
        intros t' Ht'. apply elem_of_union in Ht' as [Ht'|Ht']; [|auto].
        apply elem_of_singleton in Ht'. now subst t'.
      * cbn. apply elem_of_union_l. now apply elem_of_singleton.
      * exact Hc.
    + split; [exact Hgrown|]. split; [exact Hready|]. apply Hr.
Qed.

Lemma ensureTriggersCached_grows (ts : list Trigger) (this this' : LiveSQLite)
    (r : Result unit) :
  ensureTriggersCached ts this = (this', r) ->
  caches_grown this this'
  /\ (tables_ready this -> tables_ready this')
  /\ match r with
     | Ok _ => forall trigger, trigger ∈ ts ->
                 table trigger ∈ usedTables this'
                 /\ is_Some (tableCache this' !! table trigger)
     | Throw e => exists cause, e = LiveSQLiteError CACHE_TABLE_ERROR cause
     end.
Proof.
  revert this. induction ts as [|trigger ts IH]; intros this; cbn.
  - intros [= <- <-]. split; [apply caches_grown_refl|]. split; [auto|].
    intros trigger Hin. now apply elem_of_nil in Hin.
  - destruct (ensureTableCached (table trigger) this) as [s1 r1] eqn:Hone.
    destruct (ensureTableCached_grows _ _ _ _ Hone) as (Hg1 & Hr1 & Hres1).
    destruct r1 as [[]|e].
    + intros Hrest. destruct (IH _ Hrest) as (Hg2 & Hr2 & Hres2).
      split; [eapply caches_grown_trans; eassumption|]. split; [auto|].
      destruct r as [[]|e]; [|exact Hres2].
      intros trigger' Hin. apply elem_of_cons in Hin as [->|Hin]; [|auto].
      destruct Hres1 as [Hused Hcached].
      destruct Hg2 as (_ & _ & _ & _ & _ & _ & Hsub & Hkeep & _).
      split; [now apply Hsub|]. now rewrite Hkeep.
    + intros [= <- <-]. auto.
Qed.

(** ** Registering a live query *)

(** X13: a [select] that fails has thrown the error of [prepare], or a
    [CACHE_TABLE_ERROR], caching the table of one of its triggers having
    failed, or the error of the statement, run by the constructor of the
    live query, where no listener takes the error event.  In every case it
    has registered no query and emitted nothing, and the tables it cached
    before the failure stay cached. *)
Theorem select_failure_registers_nothing
    (query : Query) (values : list jsval)
    (keySelector : KeySelector) (triggers : list Trigger)
    (this this' : LiveSQLite) (e : JsError) :
  select query values keySelector triggers this = (this', Throw e) ->
  (query (db this) = Throw e
   \/ (exists cause, e = LiveSQLiteError CACHE_TABLE_ERROR cause)
   \/ (exists stmt, query (db this) = Ok stmt
                    /\ stmt values (db this) = Throw e))
  /\ caches_grown this this'.
Proof.
  unfold select.
  destruct (query (db this)) as [stmt|e0] eqn:Hprepare.
  - destruct (ensureTriggersCached triggers this) as [s1 r1] eqn:Hcached.
    destruct (ensureTriggersCached_grows _ _ _ _ Hcached) as (Hgrown & _ & Hres).
    destruct r1 as [[]|e1].
    + unfold LiveSQLiteSelect_new.
      assert (Hdb : db s1 = db this) by apply Hgrown.
      destruct (stmt values (db s1)) as [rows|e1] eqn:Hrun.
      * destruct (execute _ _ _). discriminate.
      * intros [= <- <-]. split; [|assumption].
        right. right. exists stmt. rewrite <- Hdb. now split.
    + intros [= <- <-]. split; [|assumption]. right. left. exact Hres.
  - intros [= <- <-]. split; [now left | apply caches_grown_refl].
Qed.

(** An instance of [select_failure_registers_nothing]: a query on
    [accounts] with triggers on [players] and on a table [teams] that the
    database does not have. *)
Lemma select_failure_registers_nothing_witness :
  (select_all "accounts" (db (watching_players (league "Alice")))
   = Throw (LiveSQLiteError CACHE_TABLE_ERROR SqliteError)
   \/ (exists cause,
          LiveSQLiteError CACHE_TABLE_ERROR SqliteError
          = LiveSQLiteError CACHE_TABLE_ERROR cause)
   \/ (exists stmt,
          select_all "accounts" (db (watching_players (league "Alice"))) = Ok stmt
          /\ stmt [] (db (watching_players (league "Alice")))
             = Throw (LiveSQLiteError CACHE_TABLE_ERROR SqliteError)))
  /\ caches_grown
       (watching_players (league "Alice"))
       (fst (select (select_all "accounts") []
                    (LiveSQLiteKeySelector.Columns ["id"])
                    (on_table "players" ++ on_table "teams")
                    (watching_players (league "Alice")))).
Proof.
  apply (select_failure_registers_nothing
           (select_all "accounts") [] (LiveSQLiteKeySelector.Columns ["id"])
           (on_table "players" ++ on_table "teams")
           (watching_players (league "Alice"))).
  vm_compute. reflexivity.
Defined.



(** X15: [select] reloads nothing: a table that has a row cache when
    [select] is called has the same row cache afterwards, whether [select]
    succeeds or fails and whatever the database holds by then. *)
Theorem select_reloads_nothing
    (query : Query) (values : list jsval)
    (keySelector : KeySelector) (triggers : list Trigger) (this : LiveSQLite)
    (t : string) :
  is_Some (tableCache this !! t) ->
  tableCache (fst (select query values keySelector triggers this)) !! t
  = tableCache this !! t.
Proof.
  intros Hcached. unfold select.
  destruct (query (db this)) as [stmt|e0]; [|reflexivity].
  destruct (ensureTriggersCached triggers this) as [s1 r1] eqn:Htriggers.
  destruct (ensureTriggersCached_grows _ _ _ _ Htriggers)
    as ((_ & _ & _ & _ & _ & _ & _ & Hkeep & _) & _ & _).
  destruct r1 as [[]|e]; [|cbn; now apply Hkeep].
  destruct (LiveSQLiteSelect_new _ _ _ _ _ _) as [[q emitted]|e];
    cbn; now apply Hkeep.
Qed.

Lemma select_reloads_nothing_witness :
  db after_delete_12 = players [(11, player 11 "Alice")]
  /\ tableCache (fst (select (select_all "players") []
                            (LiveSQLiteKeySelector.Columns ["id"])
                            (on_table "players") after_delete_12)) !! "players"
     = tableCache after_delete_12 !! "players"
  /\ tableCache after_delete_12 !! "players" ≫= (.!! 12)
     = Some (("rowid", Num 12) :: player 12 "Carol").
Proof.
  split; [reflexivity|]. split; [|vm_compute; reflexivity].
  apply (select_reloads_nothing (select_all "players") []
           (LiveSQLiteKeySelector.Columns ["id"]) (on_table "players")
           after_delete_12 "players").
  vm_compute. eauto.
Defined.




(** ** The tables the decoder reads are ready *)

Lemma fold_left_keeps {A B : Type} (proj : LiveSQLite -> B)
    (f : LiveSQLite -> A -> LiveSQLite) (l : list A) :
  (forall s a, proj (f s a) = proj s) ->
  forall s, proj (fold_left f l s) = proj s.
Proof.
  intros Hf. induction l as [|a l IH]; intros s; [reflexivity|].
  cbn [fold_left]. now rewrite IH, Hf.
Qed.

Lemma notifyQueries_tables (tableName : string) (oldRow newRow : option row)
    (rowDeleted : bool) (this : LiveSQLite) :
  let this' := notifyQueries tableName oldRow newRow rowDeleted this in
  tableInfo this' = tableInfo this /\ usedTables this' = usedTables this.
Proof.
  cbn zeta. unfold notifyQueries.
  assert (Hone : forall s entry,
            (tableInfo (notifyQuery tableName oldRow newRow rowDeleted s entry),
             usedTables (notifyQuery tableName oldRow newRow rowDeleted s entry))
            = (tableInfo s, usedTables s)).
  { intros s [queryId query]. unfold notifyQuery.
    destruct (needsUpdate _ _ _ _ _); [|reflexivity].
    destruct (_ || _); [|reflexivity].
    destruct (invalidate _ _ _). reflexivity. }
  pose proof (fold_left_keeps (fun s => (tableInfo s, usedTables s)) _
                (liveQueries (emit [Notified tableName oldRow newRow rowDeleted
                                             (tableCache this)] this))
                Hone
                (emit [Notified tableName oldRow newRow rowDeleted
                                (tableCache this)] this)) as H.
  cbn beta in H. injection H as H1 H2. split; assumption.
Qed.

Lemma applyChanges_tables (changes : Changes) (this : LiveSQLite) :
  tableInfo (applyChanges changes this) = tableInfo this
  /\ usedTables (applyChanges changes this) = usedTables this.
Proof.
  assert (Hrow : forall t s entry,
            (tableInfo (applyRow t s entry), usedTables (applyRow t s entry))
            = (tableInfo s, usedTables s)).
  { intros t s [rowId newRow]. unfold applyRow.
    destruct (_ !! rowId), newRow; try reflexivity;
      match goal with
      | |- context [notifyQueries ?t ?o ?n ?d ?s] =>
          destruct (notifyQueries_tables t o n d s) as [-> ->]
      end; reflexivity. }
  assert (Htable : forall s entry,
            (tableInfo (applyTable s entry), usedTables (applyTable s entry))
            = (tableInfo s, usedTables s)).
  { intros s [t rowChanges]. unfold applyTable.
    destruct (tableCache s !! t); [|reflexivity].
    apply (fold_left_keeps (fun s => (tableInfo s, usedTables s))),  Hrow. }
  pose proof (fold_left_keeps (fun s => (tableInfo s, usedTables s)) _ changes
                Htable this) as H.
  cbn beta in H. injection H as H1 H2. split; assumption.
Qed.

Lemma fold_store_step_table (ms : list (string * Z * option row)) (t : string) :
  forall tc, is_Some (tc !! t) -> is_Some (fold_left store_step ms tc !! t).
Proof.
  induction ms as [|[[t' r'] newRow] ms IH]; intros tc Hsome; [assumption|].
  cbn [fold_left]. apply IH. now apply store_step_table.
Qed.

Lemma LiveSQLite_new_ready (checkConditionWhenQueued : bool)
    (columnCache : gmap string CacheSettings) (db : Database) (pageSize : Z) :
  tables_ready (LiveSQLite_new checkConditionWhenQueued columnCache db pageSize).
Proof.
  split; cbn.
  - intros t Ht. now apply not_elem_of_empty in Ht.
  - intros t Ht. rewrite lookup_empty in Ht. destruct Ht; discriminate.
Qed.

Lemma select_ready (query : Query)
    (values : list jsval) (keySelector : KeySelector)
    (triggerList : list Trigger) (this : LiveSQLite) :
  tables_ready this ->
  tables_ready (fst (select query values keySelector triggerList this)).
Proof.
  intros Hready. unfold select.
  destruct (query (db this)) as [stmt|e0]; [|exact Hready].
  destruct (ensureTriggersCached triggerList this) as [s1 r1] eqn:Htriggers.
  destruct (ensureTriggersCached_grows _ _ _ _ Htriggers) as (_ & Hr & _).
  specialize (Hr Hready).
  destruct r1 as [[]|e]; [|exact Hr].
  destruct (LiveSQLiteSelect_new _ _ _ _ _ _) as [[q emitted]|e]; exact Hr.
Qed.

(** X17: in every state the engine reaches, each table in [usedTables] has
    a row cache and each table with a row cache has a column list: a new
    engine is such a state, and [select], failed or not, [parseWAL], [stop]
    and a write to the database by another connection lead from such a
    state to such a state. *)
Theorem tables_ready_invariant :
  (forall checkConditionWhenQueued columnCache db pageSize,
      tables_ready (LiveSQLite_new checkConditionWhenQueued columnCache db pageSize))
  /\ (forall this,
         tables_ready this ->
         (forall query values keySelector triggerList,
             tables_ready (fst (select query values keySelector triggerList this)))
         /\ (forall buffer this',
                parseWAL this buffer = Some (Ok this') -> tables_ready this')
         /\ (forall id, tables_ready (stop id this))
         /\ (forall d, tables_ready (set_db d this))).
Proof.
  split; [apply LiveSQLite_new_ready|].
  intros this Hready. split; [|split; [|split]].
  - intros query values keySelector triggerList. now apply select_ready.
  - intros buffer this'. unfold parseWAL.
    destruct (parseWAL_loop _ this buffer 0 []) as [[changes|]|];
      [|discriminate|discriminate].
    intros [= <-]. destruct Hready as [Hused Hcached].
    destruct (applyChanges_tables changes this) as [Hinfo Hu].
    split.
    + intros t Ht. rewrite Hu in Ht. rewrite applyChanges_store.
      now apply fold_store_step_table, Hused.
    + intros t Ht. rewrite Hinfo. apply Hcached.
      destruct (tableCache this !! t) eqn:Hc; [eauto|].
      rewrite applyChanges_store, (fold_store_step_absent _ _ _ Hc) in Ht.
      exact Ht.
  - intros id. exact Hready.
  - intros d. exact Hready.
Qed.

(** ** What makes the decoder fail *)

Ltac reader_throws H :=
  repeat match type of H with
         | context [if ?c then _ else _] => destruct c
         | context [match ?x with _ => _ end] => destruct x
         end; congruence.

Lemma readUInt8_throws (buffer : Buffer) (offset : Z) (e : JsError) :
  readUInt8 buffer offset = Throw e -> e = RangeError.
Proof. unfold readUInt8. intros H. reader_throws H. Qed.

Lemma readUInt16BE_throws (buffer : Buffer) (offset : Z) (e : JsError) :
  readUInt16BE buffer offset = Throw e -> e = RangeError.
Proof. unfold readUInt16BE. intros H. reader_throws H. Qed.

Lemma readDoubleLE_throws (buffer : Buffer) (offset : Z) (e : JsError) :
  readDoubleLE buffer offset = Throw e -> e = RangeError.
Proof.
  unfold readDoubleLE. intros H.
  destruct (_ && _); [|congruence].
  destruct (map byteZ _) as [|b0 [|b1 [|b2 [|b3 [|b4 [|b5 [|b6 [|b7 [|b8 l]]]]]]]]];
    congruence.
Qed.

Lemma parseValue_throws (data : Buffer) (offset : Z) (type : string) (e : JsError) :
  parseValue data offset type = Throw e -> e = RangeError.
Proof.
  unfold parseValue.
  destruct (String.eqb type "INTEGER"); [discriminate|].
  destruct (String.eqb type "REAL"); [apply readDoubleLE_throws|].
  destruct (String.eqb type "TEXT"); [destruct (JSON.parse _); discriminate|].
  destruct (String.eqb type "BLOB"); discriminate.
Qed.

Lemma parseRowData_loop_throws (columns : list Column) (data : Buffer) (e : JsError) :
  forall offset rowData,
    parseRowData_loop columns data offset rowData = Throw e ->
    e = LiveSQLiteError PARSE_COLUMN_ERROR RangeError.
Proof.
  induction columns as [|column columns IH]; intros offset rowData;
    cbn [parseRowData_loop]; [discriminate|].
  destruct (parseValue data offset (type column)) as [value|e'] eqn:Hvalue;
    cbn [rbind rcatch].
  - apply IH.
  - intros [= <-]. now rewrite (parseValue_throws _ _ _ _ Hvalue).
Qed.

Lemma processCells_throws (this : LiveSQLite) (tableName : string)
    (pageData : Buffer) (e : JsError) :
  is_Some (tableInfo this !! tableName) ->
  forall n cellPointerOffset changes,
    processCells this tableName pageData n cellPointerOffset changes = Throw e ->
    short_read e.
Proof.
  intros [columns Hcolumns].
  induction n as [|n IH]; intros cellPointerOffset changes;
    cbn [processCells]; [discriminate|].
  destruct (processCell this tableName pageData cellPointerOffset changes)
    as [changes'|e'] eqn:Hcell; cbn [rbind]; [apply IH|].
  intros [= <-]. unfold processCell in Hcell.
  destruct (readUInt16BE pageData cellPointerOffset) as [cellOffset|e1] eqn:Hptr;
    cbn [rbind] in Hcell.
  - unfold parseRowData in Hcell. rewrite Hcolumns in Hcell.
    destruct (parseRowData_loop columns _ 0 []) as [rowChanges|e2] eqn:Hrow;
      cbn [rbind] in Hcell; [discriminate|].
    injection Hcell as <-. right. eapply parseRowData_loop_throws, Hrow.
  - injection Hcell as <-. left. eapply readUInt16BE_throws, Hptr.
Qed.

Lemma processWALFrame_throws (this : LiveSQLite) (pageNumber : Z)
    (pageData : Buffer) (changes : Changes) (e : JsError) :
  tables_ready this ->
  processWALFrame this pageNumber pageData changes = Throw e ->
  short_read e.
Proof.
  intros [Hused Hcached]. unfold processWALFrame.
  destruct (readUInt8 pageData 0) as [pageType|e1] eqn:Htype; cbn [rbind].
  - destruct (pageType =? 13); [|discriminate].
    destruct (getTableInfo this pageNumber) as [tableName|]; [|discriminate].
    destruct (bool_decide (tableName ∈ usedTables this)) eqn:Hin; [|discriminate].
    apply bool_decide_eq_true in Hin.
    destruct (readUInt16BE pageData 3) as [cellCount|e2] eqn:Hcount; cbn [rbind].
    + apply processCells_throws. auto.
    + intros [= <-]. left. eapply readUInt16BE_throws, Hcount.
  - intros [= <-]. left. eapply readUInt8_throws, Htype.
Qed.

(** X18: in a state where the tables in [usedTables] are ready, and with
    the database answering the lookup of the table of a root page, the one
    thing that makes the decoding of the frames fail, the loop of
    [parseWAL] that comes before [applyChanges], is a read past the end of
    a buffer: the error it throws is the [RangeError] of a [Buffer] read,
    alone, or wrapped by [parseRowData] in a [PARSE_COLUMN_ERROR] when the
    read is that of a REAL column; and [parseWAL] wraps it in a
    [WAL_PARSE_ERROR]. *)
Theorem parseWAL_decoding_fails_on_short_reads_only (this : LiveSQLite)
    (buffer : Buffer) (cause : JsError) :
  tables_ready this ->
  parseWAL_loop (length buffer) this buffer 0 [] = Some (Throw cause) ->
  short_read cause
  /\ parseWAL this buffer = Some (Throw (LiveSQLiteError WAL_PARSE_ERROR cause)).
Proof.
  intros Hready Hrun.
  assert (Hloop : forall fuel offset changes cause,
            parseWAL_loop fuel this buffer offset changes = Some (Throw cause) ->
            short_read cause).
  { clear Hrun cause.
    induction fuel as [|fuel IH]; intros offset changes cause;
      cbn [parseWAL_loop]; destruct (offset <? blen buffer); try discriminate.
    destruct (readUInt32LE buffer offset) as [frameSize|e1] eqn:Hsize.
    - destruct (readUInt32LE buffer (offset + 4)) as [pageNumber|e2] eqn:Hpage.
      + destruct (processWALFrame this pageNumber _ changes) as [changes'|e3]
          eqn:Hframe.
        * apply IH.
        * intros [= <-]. eapply processWALFrame_throws; eassumption.
      + intros [= <-]. left. eapply readUInt32LE_throws, Hpage.
    - intros [= <-]. left. eapply readUInt32LE_throws, Hsize. }
  split; [eapply Hloop, Hrun|].
  unfold parseWAL. now rewrite Hrun.
Qed.

(** An instance of [parseWAL_decoding_fails_on_short_reads_only]: a leaf
    page of [players] that ends before its cell pointer. *)
Lemma parseWAL_decoding_fails_on_short_reads_only_witness :
  short_read RangeError
  /\ parseWAL (watching_players (players [(11, player 11 "Alice")])) cut_short_wal
     = Some (Throw (LiveSQLiteError WAL_PARSE_ERROR RangeError)).
Proof.
  apply (parseWAL_decoding_fails_on_short_reads_only
           (watching_players (players [(11, player 11 "Alice")])) cut_short_wal).
  - apply select_ready, LiveSQLite_new_ready.
  - vm_compute. reflexivity.
Defined.

(** ** Queries a batch brings up to date *)

Lemma Map_get_middle {V : Type} (done rest : list (nat * V)) (k : nat) (v : V) :
  k ∉ map fst done -> Map_get (done ++ (k, v) :: rest) k = Some v.
Proof.
  induction done as [|[k0 v0] done IH]; cbn; intros Hk.
  - now rewrite decide_True.
  - apply not_elem_of_cons in Hk as [Hne Hk].
    rewrite decide_False by congruence. now apply IH.
Qed.

Lemma Map_set_middle {V : Type} (done rest : list (nat * V)) (k : nat) (v v' : V) :
  k ∉ map fst done ->
  Map_set (done ++ (k, v) :: rest) k v' = done ++ (k, v') :: rest.
Proof.
  induction done as [|[k0 v0] done IH]; cbn; intros Hk.
  - now rewrite decide_True.
  - apply not_elem_of_cons in Hk as [Hne Hk].
    rewrite decide_False by congruence. now rewrite IH.
Qed.

Lemma Map_get_key {V : Type} (m : list (nat * V)) (k : nat) (v : V) :
  Map_get m k = Some v -> k ∈ map fst m.
Proof.
  induction m as [|[k0 v0] m IH]; cbn; [discriminate|].
  destruct (decide (k0 = k)) as [->|Hne]; intros H.
  - apply list_elem_of_here.
  - apply list_elem_of_further. auto.
Qed.

Lemma same_query_refl (q : LiveSQLiteSelect) : same_query q q.
Proof. unfold same_query. auto. Qed.

Lemma invalidate_same_query (k : nat) (d : Database) (q0 q : LiveSQLiteSelect)
    (result : list row) :
  same_query q0 q -> active q0 = true ->
  stmt q0 (values q0) d = Ok result ->
  same_query q0 (fst (invalidate k d q))
  /\ lastResult (fst (invalidate k d q)) = Some result.
Proof.
  intros (Hs & Hv & Ht & Ha & Hk) Hactive Hstmt.
  unfold invalidate, execute. rewrite Ha, Hactive, Hs, Hv, Hstmt. cbn.
  unfold same_query. cbn. repeat split; assumption.
Qed.

Lemma needsUpdate_unconditional (q : LiveSQLiteSelect) (trigger : Trigger)
    (oldRow newRow : option row) (rowDeleted : bool) :
  trigger ∈ triggers q -> condition trigger = None ->
  needsUpdate q (table trigger) oldRow newRow rowDeleted = true.
Proof.
  intros Hin Hnone. unfold needsUpdate. apply existsb_exists.
  exists trigger. split; [now apply list_elem_of_In|].
  now rewrite String.eqb_refl, Hnone.
Qed.

Section Refresh.
Variables (id : nat) (q0 : LiveSQLiteSelect) (d : Database) (result : list row).
Hypothesis Hactive : active q0 = true.
Hypothesis Hstmt : stmt q0 (values q0) d = Ok result.

(** The loop of [notifyQueries], from the entry it has reached: [done] are
    the entries behind it.  When the call is one that triggers the query
    ([trig]), the query is up to date once its entry is behind. *)
Lemma notifyQuery_fold_tracks (tableName : string) (oldRow newRow : option row)
    (rowDeleted : bool) (trig fresh : bool) :
  (trig = true ->
   forall q, same_query q0 q ->
             needsUpdate q tableName oldRow newRow rowDeleted = true) ->
  forall rest done s,
    db s = d ->
    liveQueries s = done ++ rest ->
    NoDup (map fst (done ++ rest)) ->
    (exists q,
        Map_get (liveQueries s) id = Some q /\ same_query q0 q
        /\ (lastResult q = Some result
            \/ (fresh = false
                /\ (id ∈ map fst done -> trig = false)
                /\ (checkConditionWhenQueued s = true \/ id ∉ queuedUpdates s)))) ->
    let s' := fold_left (notifyQuery tableName oldRow newRow rowDeleted) rest s in
    db s' = d
    /\ NoDup (map fst (liveQueries s'))
    /\ tracks id q0 result (trig || fresh) s'.
Proof.
  intros Htrig.
  induction rest as [|[k qk] rest IH]; intros done s Hdb Hlive Hnd Hq; cbn zeta.
  - cbn [fold_left]. rewrite app_nil_r in Hlive, Hnd.
    split; [assumption|]. split; [now rewrite Hlive|].
    destruct Hq as (q & Hget & Hsame & Hfresh). exists q.
    split; [assumption|]. split; [assumption|].
    destruct Hfresh as [Hfresh|(Hf & Hdone & Hrun)]; [now left|]. right.
    split; [|assumption]. rewrite Hf, Hdone; [reflexivity|].
    rewrite <- Hlive. eapply Map_get_key, Hget.
  - cbn [fold_left].
    assert (Hk : k ∉ map fst done).
    { rewrite map_app in Hnd. apply NoDup_app in Hnd as (_ & Hdisj & _).
      intros Hin. apply (Hdisj k Hin). cbn. apply list_elem_of_here. }
    assert (Hgetk : Map_get (liveQueries s) k = Some qk).
    { rewrite Hlive. now apply Map_get_middle. }
    destruct Hq as (q & Hget & Hsame & Hfresh).
    assert (Hdone' : forall q1,
              NoDup (map fst ((done ++ [(k, q1)]) ++ rest))).
    { intros q1. rewrite <- app_assoc. cbn [app].
      rewrite map_app in Hnd |- *. exact Hnd. }
    assert (Hbehind : (id ∈ map fst done -> trig = false) -> k <> id ->
                      forall q1, id ∈ map fst (done ++ [(k, q1)]) -> trig = false).
    { intros Hdone Hne q1 Hin. apply Hdone. rewrite map_app in Hin.
      apply elem_of_app in Hin as [Hin|Hin]; [assumption|].
      cbn in Hin. apply list_elem_of_singleton in Hin. congruence. }
    set (s1 := notifyQuery tableName oldRow newRow rowDeleted s (k, qk)).
    assert (Hstep : exists qk1,
              db s1 = d
              /\ liveQueries s1 = (done ++ [(k, qk1)]) ++ rest
              /\ exists q,
                  Map_get (liveQueries s1) id = Some q /\ same_query q0 q
                  /\ (lastResult q = Some result
                      \/ (fresh = false
                          /\ (id ∈ map fst (done ++ [(k, qk1)]) -> trig = false)
                          /\ (checkConditionWhenQueued s1 = true
                              \/ id ∉ queuedUpdates s1)))).
    { subst s1. unfold notifyQuery.
      destruct (needsUpdate qk tableName oldRow newRow rowDeleted) eqn:Hneeds.
      - destruct (checkConditionWhenQueued s
                  || negb (bool_decide (k ∈ queuedUpdates s))) eqn:Hrun.
        + pose proof (invalidate_same_query k d q0 qk result) as Hinv.
          cbn [db set_queuedUpdates]. rewrite Hdb.
          destruct (invalidate k d qk) as [qk' emitted]. cbn [fst] in Hinv.
          exists qk'. split; [exact Hdb|]. split.
          { cbn. rewrite Hlive, <- app_assoc. cbn [app].
            now apply Map_set_middle. }
          cbn [emit set_liveQueries set_queuedUpdates liveQueries
                    queuedUpdates checkConditionWhenQueued].
          destruct (decide (k = id)) as [->|Hne].
          * rewrite Hgetk in Hget. injection Hget as <-.
            destruct (Hinv Hsame Hactive Hstmt) as [Hsame' Hlast].
            exists qk'. rewrite Map_get_set_eq. auto.
          * exists q. rewrite Map_get_set_ne by assumption.
            split; [assumption|]. split; [assumption|].
            destruct Hfresh as [Hfresh|(Hf & Hdone & Hcan)]; [now left|]. right.
            split; [assumption|]. split; [now apply Hbehind|].
            destruct Hcan as [Hc|Hq]; [now left|]. right.
            rewrite elem_of_union, elem_of_singleton.
            intros [Heq|Hin]; [congruence|contradiction].
        + exists qk. split; [exact Hdb|]. split.
          { rewrite Hlive, <- app_assoc. reflexivity. }
          exists q. split; [assumption|]. split; [assumption|].
          destruct Hfresh as [Hfresh|(Hf & Hdone & Hcan)]; [now left|].
          destruct (decide (k = id)) as [->|Hne].
          * exfalso. apply orb_false_elim in Hrun as [Hc Hq].
            apply negb_false_iff, bool_decide_eq_true in Hq.
            destruct Hcan as [Hc'|Hq']; [congruence|contradiction].
          * right. split; [assumption|]. split; [now apply Hbehind|assumption].
      - exists qk. split; [exact Hdb|]. split.
        { rewrite Hlive, <- app_assoc. reflexivity. }
        exists q. split; [assumption|]. split; [assumption|].
        destruct Hfresh as [Hfresh|(Hf & Hdone & Hcan)]; [now left|].
        right. split; [assumption|]. split; [|assumption].
        destruct (decide (k = id)) as [->|Hne]; [|now apply Hbehind].
        intros _. rewrite Hgetk in Hget. injection Hget as <-.
        destruct trig; [|reflexivity].
        rewrite (Htrig eq_refl qk Hsame) in Hneeds. discriminate. }
    clearbody s1. destruct Hstep as (qk1 & Hdb1 & Hlive1 & Hq1).
    apply (IH (done ++ [(k, qk1)]) s1); auto.
Qed.

Lemma notifyQueries_tracks (tableName : string) (oldRow newRow : option row)
    (rowDeleted : bool) (trig fresh : bool) (this : LiveSQLite) :
  (trig = true ->
   forall q, same_query q0 q ->
             needsUpdate q tableName oldRow newRow rowDeleted = true) ->
  db this = d ->
  NoDup (map fst (liveQueries this)) ->
  tracks id q0 result fresh this ->
  let this' := notifyQueries tableName oldRow newRow rowDeleted this in
  db this' = d
  /\ NoDup (map fst (liveQueries this'))
  /\ tracks id q0 result (trig || fresh) this'.
Proof.
  intros Htrig Hdb Hnd (q & Hget & Hsame & Hfresh). cbn zeta.
  unfold notifyQueries.
  apply (notifyQuery_fold_tracks tableName oldRow newRow rowDeleted trig fresh
           Htrig _ []); cbn; try assumption; try reflexivity.
  exists q. split; [assumption|]. split; [assumption|].
  destruct Hfresh as [Hfresh|[Hf Hcan]]; [now left|]. right.
  split; [assumption|]. split; [|assumption].
  intros Hin. now apply elem_of_nil in Hin.
Qed.

End Refresh.

Lemma tracks_weaken (id : nat) (q0 : LiveSQLiteSelect) (result : list row)
    (fresh : bool) (this : LiveSQLite) :
  tracks id q0 result true this -> tracks id q0 result fresh this.
Proof.
  intros (q & Hget & Hsame & [Hlast|[Hf _]]); [|discriminate].
  exists q. auto.
Qed.

Section RefreshBatch.
Variables (id : nat) (q0 : LiveSQLiteSelect) (d : Database) (result : list row)
          (t0 : string).
Hypothesis Hactive : active q0 = true.
Hypothesis Hstmt : stmt q0 (values q0) d = Ok result.
Hypothesis Htrigger :
  forall q oldRow newRow rowDeleted,
    same_query q0 q -> needsUpdate q t0 oldRow newRow rowDeleted = true.

(** A row change leaves the query tracked; one with a row, for the table
    [t0], brings the query up to date. *)
Lemma applyRow_watched (t : string) (fresh : bool) (this : LiveSQLite)
    (rowId : Z) (newRow : option row) :
  watched id q0 d result t0 fresh this ->
  watched id q0 d result t0 fresh (applyRow t this (rowId, newRow))
  /\ (t = t0 -> is_Some newRow ->
      watched id q0 d result t0 true (applyRow t this (rowId, newRow))).
Proof.
  intros (Hdb & Hnd & Hcached & Htracks).
  assert (Hnotify : forall o n dl cache,
            let this' := notifyQueries t o n dl
                           (set_tableCache (fun tc => <[t := cache]> tc) this) in
            watched id q0 d result t0 fresh this'
            /\ (t = t0 -> watched id q0 d result t0 true this')).
  { intros o n dl cache. cbn zeta.
    set (s := set_tableCache _ this).
    assert (Hc : is_Some (tableCache (notifyQueries t o n dl s) !! t0)).
    { rewrite (proj1 (notifyQueries_store t o n dl s)). subst s. cbn.
      destruct (decide (t = t0)) as [->|Hne];
        [rewrite lookup_insert_eq; eauto | now rewrite lookup_insert_ne]. }
    split.
    - destruct (notifyQueries_tracks id q0 d result Hactive Hstmt t o n dl
                  false fresh s) as (H1 & H2 & H3);
        try assumption; [discriminate|].
      repeat split; assumption.
    - intros ->.
      destruct (notifyQueries_tracks id q0 d result Hactive Hstmt t0 o n dl
                  true fresh s) as (H1 & H2 & H3);
        try assumption; [intros _ q; apply Htrigger|].
      repeat split; assumption. }
  unfold applyRow.
  destruct (_ !! rowId) as [old|], newRow as [new|].
  - split; [apply Hnotify|]. intros Ht _. now apply Hnotify.
  - split; [apply Hnotify|]. intros _ [? ?]. discriminate.
  - split; [apply Hnotify|]. intros Ht _. now apply Hnotify.
  - split; [repeat split; assumption|]. intros _ [? ?]. discriminate.
Qed.

Lemma fold_applyRow_watched (t : string) (rowChanges : list (Z * option row)) :
  forall fresh this,
    watched id q0 d result t0 fresh this ->
    watched id q0 d result t0 fresh (fold_left (applyRow t) rowChanges this)
    /\ (t = t0 ->
        (exists rowId newRow, (rowId, Some newRow) ∈ rowChanges) ->
        watched id q0 d result t0 true (fold_left (applyRow t) rowChanges this)).
Proof.
  induction rowChanges as [|[rowId newRow] rowChanges IH]; intros fresh this Hw.
  - split; [assumption|]. intros _ (r & n & Hin). now apply elem_of_nil in Hin.
  - cbn [fold_left].
    destruct (applyRow_watched t fresh this rowId newRow Hw) as [Hkeep Hnow].
    split; [now apply IH|].
    intros Ht (r & n & Hin). apply elem_of_cons in Hin as [Heq|Hin].
    + injection Heq as <- <-.
      assert (Hsome : is_Some (Some n)) by eauto.
      exact (proj1 (IH true _ (Hnow Ht Hsome))).
    + apply (proj2 (IH fresh _ Hkeep) Ht). eauto.
Qed.

Lemma applyTable_watched (fresh : bool) (this : LiveSQLite)
    (t : string) (rowChanges : list (Z * option row)) :
  watched id q0 d result t0 fresh this ->
  watched id q0 d result t0 fresh (applyTable this (t, rowChanges))
  /\ (t = t0 ->
      (exists rowId newRow, (rowId, Some newRow) ∈ rowChanges) ->
      watched id q0 d result t0 true (applyTable this (t, rowChanges))).
Proof.
  intros Hw. unfold applyTable.
  destruct (tableCache this !! t) as [cache|] eqn:Hcache.
  - now apply fold_applyRow_watched.
  - split; [assumption|]. intros -> _.
    destruct Hw as (_ & _ & [? Hc] & _). congruence.
Qed.

Lemma applyChanges_watched (changes : Changes) :
  forall fresh this,
    watched id q0 d result t0 fresh this ->
    watched id q0 d result t0 fresh (applyChanges changes this)
    /\ ((exists rowChanges rowId newRow,
            (t0, rowChanges) ∈ changes /\ (rowId, Some newRow) ∈ rowChanges) ->
        watched id q0 d result t0 true (applyChanges changes this)).
Proof.
  unfold applyChanges.
  induction changes as [|[t rowChanges] changes IH]; intros fresh this Hw.
  - split; [assumption|]. intros (rs & r & n & Hin & _).
    now apply elem_of_nil in Hin.
  - cbn [fold_left].
    destruct (applyTable_watched fresh this t rowChanges Hw) as [Hkeep Hnow].
    split; [now apply IH|].
    intros (rs & r & n & Hin & Hrow). apply elem_of_cons in Hin as [Heq|Hin].
    + injection Heq as Ht Hrs. subst t rs.
      assert (Hsome : exists rowId newRow, (rowId, Some newRow) ∈ rowChanges)
        by eauto.
      exact (proj1 (IH true _ (Hnow eq_refl Hsome))).
    + apply (proj2 (IH fresh _ Hkeep)). eauto 6.
Qed.

End RefreshBatch.

(** X19: a batch brings a live query up to date.  When a batch holds a row
    for a table that has a row cache and that a trigger of the query names
    without a condition, and the query is active and can be run
    ([checkConditionWhenQueued] is set or the query is not in
    [queuedUpdates]), then after [applyChanges] the registry holds the
    query with, as its last result, the result of its statement on the
    database. *)
Theorem applyChanges_refreshes (id : nat) (q : LiveSQLiteSelect)
    (result : list row) (this : LiveSQLite) (changes : Changes)
    (trigger : Trigger) (rowChanges : list (Z * option row)) (rowId : Z)
    (newRow : row) :
  NoDup (map fst (liveQueries this)) ->
  Map_get (liveQueries this) id = Some q ->
  active q = true ->
  stmt q (values q) (db this) = Ok result ->
  checkConditionWhenQueued this = true \/ id ∉ queuedUpdates this ->
  trigger ∈ triggers q ->
  condition trigger = None ->
  is_Some (tableCache this !! table trigger) ->
  (table trigger, rowChanges) ∈ changes ->
  (rowId, Some newRow) ∈ rowChanges ->
  exists q',
    Map_get (liveQueries (applyChanges changes this)) id = Some q'
    /\ same_query q q'
    /\ lastResult q' = Some result.
Proof.
  intros Hnd Hget Hactive Hstmt Hcan Htrigger Hnone Hcached Htable Hrow.
  assert (Hneeds : forall q1 o n dl,
            same_query q q1 -> needsUpdate q1 (table trigger) o n dl = true).
  { intros q1 o n dl (_ & _ & Htr & _). apply needsUpdate_unconditional;
      [now rewrite Htr | assumption]. }
  assert (Hw : watched id q (db this) result (table trigger) false this).
  { repeat split; try assumption. exists q.
    split; [assumption|]. split; [apply same_query_refl|]. right. auto. }
  destruct (applyChanges_watched id q (db this) result (table trigger)
              Hactive Hstmt Hneeds changes false this Hw) as [_ Hfresh].
  destruct Hfresh as (_ & _ & _ & (q' & Hget' & Hsame & Hlast)); [eauto 6|].
  exists q'. destruct Hlast as [Hlast|[Hf _]]; [auto|discriminate].
Qed.

Lemma applyChanges_refreshes_witness :
  exists q',
    Map_get (liveQueries renamed_bob) 0%nat = Some q'
    /\ same_query players_query q'
    /\ lastResult q' = Some [player 11 "Bob"].
Proof.
  apply (applyChanges_refreshes 0 players_query [player 11 "Bob"]
           (set_db (players [(11, player 11 "Bob")])
                   (watching_players (players [(11, player 11 "Alice")])))
           [("players", [(11, Some (player 11 "Bob"))])]
           {| table := "players"; condition := None |}
           [(11, Some (player 11 "Bob"))] 11 (player 11 "Bob")).
  - vm_compute. apply NoDup_singleton.
  - vm_compute. reflexivity.
  - reflexivity.
  - vm_compute. reflexivity.
  - right.
    assert (E : queuedUpdates
                  (set_db (players [(11, player 11 "Bob")])
                          (watching_players (players [(11, player 11 "Alice")])))
                = ∅) by (vm_compute; reflexivity).
    rewrite E. apply not_elem_of_empty.
  - apply list_elem_of_here.
  - reflexivity.
  - vm_compute. eauto.
  - apply list_elem_of_here.
  - apply list_elem_of_here.
Defined.

(** ** Applying a diff *)

Section FindByKey.
Context {K : Type} `{EqDecision K}.
Variable f : row -> K.

Lemma find_key_app (l1 l2 : list row) (k : K) :
  find (fun r => bool_decide (f r = k)) (l1 ++ l2)
  = match find (fun r => bool_decide (f r = k)) l1 with
    | Some r => Some r
    | None => find (fun r => bool_decide (f r = k)) l2
    end.
Proof.
  induction l1 as [|a l1 IH]; cbn; [reflexivity|].
  destruct (bool_decide (f a = k)); [reflexivity|exact IH].
Qed.

Lemma find_key_filter_all (q : row -> bool) (l : list row) (k : K) :
  (forall r, r ∈ l -> f r = k -> q r = true) ->
  find (fun r => bool_decide (f r = k)) (List.filter q l)
  = find (fun r => bool_decide (f r = k)) l.
Proof.
  induction l as [|a l IH]; intros Hq; [reflexivity|]. cbn.
  assert (IH' := IH (fun r Hr => Hq r (list_elem_of_further _ _ _ Hr))).
  destruct (bool_decide (f a = k)) eqn:Ha.
  - apply bool_decide_eq_true in Ha.
    rewrite (Hq a (list_elem_of_here _ _) Ha). cbn.
    now rewrite bool_decide_eq_true_2.
  - destruct (q a); cbn; [rewrite Ha|]; exact IH'.
Qed.

Lemma find_key_filter_none (q : row -> bool) (l : list row) (k : K) :
  (forall r, r ∈ l -> f r = k -> q r = false) ->
  find (fun r => bool_decide (f r = k)) (List.filter q l) = None.
Proof.
  induction l as [|a l IH]; intros Hq; [reflexivity|]. cbn.
  assert (IH' := IH (fun r Hr => Hq r (list_elem_of_further _ _ _ Hr))).
  destruct (q a) eqn:Hqa; [|exact IH']. cbn.
  rewrite bool_decide_eq_false_2; [exact IH'|].
  intros Ha. rewrite (Hq a (list_elem_of_here _ _) Ha) in Hqa. discriminate.
Qed.

Lemma find_key_Some (l : list row) (k : K) (r : row) :
  find (fun r => bool_decide (f r = k)) l = Some r -> r ∈ l /\ f r = k.
Proof.
  intros H. apply find_some in H as [Hin Hk].
  split; [now apply list_elem_of_In | now apply bool_decide_eq_true in Hk].
Qed.

Lemma find_key_None (l : list row) (k : K) :
  find (fun r => bool_decide (f r = k)) l = None ->
  forall r, r ∈ l -> f r <> k.
Proof.
  intros H r Hin Hk. apply list_elem_of_In in Hin.
  pose proof (find_none _ _ H r Hin) as Hr. cbn in Hr.
  now rewrite bool_decide_eq_true_2 in Hr.
Qed.

Lemma NoDup_key_unique (l : list row) (r r' : row) :
  NoDup (map f l) -> r ∈ l -> r' ∈ l -> f r = f r' -> r = r'.
Proof.
  induction l as [|a l IH]; cbn; intros Hnd Hr Hr' Heq.
  - now apply elem_of_nil in Hr.
  - apply NoDup_cons in Hnd as [Ha Hnd].
    apply elem_of_cons in Hr as [->|Hr], Hr' as [->|Hr']; auto.
    + exfalso. apply Ha. rewrite Heq. apply list_elem_of_fmap. now exists r'.
    + exfalso. apply Ha. rewrite <- Heq. apply list_elem_of_fmap. now exists r.
Qed.

End FindByKey.

(** X20: a diff leads from the old result to the new one.  For a key
    selector that reads the row alone and gives the rows of the new result
    distinct keys, a consumer that keeps the old rows by key and applies the
    diff of [diffResults] (the added and changed rows put under their keys,
    the keys of the removed rows dropped) holds under every key the row the
    new result has under it, up to the JSON text by which [diffResults]
    compares rows. *)
Theorem diffResults_leads_to_new (keySelector : KeySelector)
    (old new : list row) (k : key) :
  (forall r i, keySelector r i = keySelector r None) ->
  NoDup (map (fun r => keySelector r None) new) ->
  JSON_stringify ∘ Obj
    <$> apply_diff keySelector (diffResults keySelector (Some old) new) old k
  = JSON_stringify ∘ Obj <$> old_row_with_key keySelector new k.
Proof.
  intros Hrow Hnd. rewrite diffResults_by_key by assumption.
  unfold apply_diff, old_row_with_key. cbn [added changed removed].
  set (key := fun r : row => keySelector r None).
  change (fun r : row => bool_decide (keySelector r None = k))
    with (fun r : row => bool_decide (key r = k)).
  rewrite find_key_app.
  assert (Hhas : forall l, has_key (map key l) k = true <-> exists r, r ∈ l /\ key r = k).
  { intros l. unfold has_key. rewrite bool_decide_eq_true, list_elem_of_fmap.
    split; intros (r & H1 & H2); exists r; auto. }
  destruct (find (fun r => bool_decide (key r = k)) new) as [r|] eqn:Hnew.
  - apply find_key_Some in Hnew as Hr. destruct Hr as [Hin Hk].
    assert (Huniq : forall r', r' ∈ new -> key r' = k -> r' = r).
    { intros r' Hin' Hk'.
      apply (NoDup_key_unique key new);
        [exact Hnd | assumption | assumption | congruence]. }
    destruct (has_key (map key old) k) eqn:Hold.
    + rewrite find_key_filter_none
        by (intros r' _ Hk'; fold (key r'); now rewrite Hk', Hold).
      destruct (differs_from_old keySelector old r) eqn:Hdiffers.
      * rewrite find_key_filter_all, Hnew; [reflexivity|].
        intros r' Hin' Hk'. rewrite (Huniq r' Hin' Hk').
        fold (key r). now rewrite Hk, Hold, Hdiffers.
      * rewrite find_key_filter_none.
        2:{ intros r' Hin' Hk'. rewrite (Huniq r' Hin' Hk').
            fold (key r). now rewrite Hk, Hold, Hdiffers. }
        destruct (has_key (map _ (List.filter _ old)) k) eqn:Hrem.
        { exfalso. apply (proj1 (Hhas _)) in Hrem as (r' & Hin' & Hk').
          apply list_elem_of_In, filter_In in Hin' as [_ Hq].
          apply negb_true_iff in Hq.
          assert (Ht : has_key (map key new) (key r') = true)
            by (rewrite Hk'; apply Hhas; eauto).
          unfold key in Ht, Hq. congruence. }
        unfold differs_from_old, old_row_with_key in Hdiffers.
        apply negb_false_iff, bool_decide_eq_true in Hdiffers.
        fold (key r) in Hdiffers. rewrite Hk in Hdiffers.
        change (fun r0 : row => bool_decide (keySelector r0 None = k))
          with (fun r0 : row => bool_decide (key r0 = k)) in Hdiffers.
        destruct (find (fun r0 => bool_decide (key r0 = k)) old) as [ro|] eqn:Ho.
        -- unfold fmap, option_fmap, option_map, compose. cbv beta iota.
           congruence.
        -- exfalso. apply Hhas in Hold as (r' & Hin' & Hk').
           exact (find_key_None key old k Ho r' Hin' Hk').
    + rewrite find_key_filter_all, Hnew; [reflexivity|].
      intros r' _ Hk'. fold (key r'). now rewrite Hk', Hold.
  - pose proof (find_key_None key new k Hnew) as Hnone.
    rewrite !find_key_filter_none
      by (intros r' Hin' Hk'; now apply Hnone in Hin').
    fold key.
    destruct (has_key (map key (List.filter _ old)) k) eqn:Hrem; [reflexivity|].
    destruct (find (fun r0 => bool_decide (key r0 = k)) old) as [ro|] eqn:Ho;
      [|reflexivity].
    exfalso. apply find_key_Some in Ho as [Hin Hk].
    apply not_true_iff_false in Hrem. apply Hrem, Hhas.
    exists ro. split; [|assumption].
    apply list_elem_of_In, filter_In. split; [now apply list_elem_of_In|].
    apply negb_true_iff, not_true_is_false. intros H.
    change (keySelector ro None) with (key ro) in H. rewrite Hk in H.
    apply Hhas in H as (r' & Hin' & Hk'). exact (Hnone r' Hin' Hk').
Qed.

Lemma diffResults_leads_to_new_witness :
  JSON_stringify ∘ Obj
    <$> apply_diff (LiveSQLiteKeySelector.Columns ["id"])
          (diffResults (LiveSQLiteKeySelector.Columns ["id"])
                       (Some [player 11 "Alice"; player 12 "Carol"])
                       [player 11 "Bob"; player 13 "Dan"])
          [player 11 "Alice"; player 12 "Carol"] (KStr "11")
  = JSON_stringify ∘ Obj
      <$> old_row_with_key (LiveSQLiteKeySelector.Columns ["id"])
            [player 11 "Bob"; player 13 "Dan"] (KStr "11").
Proof.
  apply (diffResults_leads_to_new (LiveSQLiteKeySelector.Columns ["id"])
           [player 11 "Alice"; player 12 "Carol"]
           [player 11 "Bob"; player 13 "Dan"] (KStr "11")).
  - intros r i. reflexivity.
  - apply (bool_decide_unpack _). vm_compute. exact I.
Defined.

(** ** Loading a table *)









